(** * NetGraph: layout store, lazy parent index and expansion protocol

    A shallow embedding of [nengo_viz/components/netgraph.py]: the [Config]
    layout store with its [dumps] serializer, and the [NetGraph] component
    ([get_parents], [find_config], [update_client], [message], the [act_*]
    handlers, [expand_network], [create_object], [send_pan_and_zoom] and
    [create_connection]).

    Python objects are references tagged with their class; the object model
    (which network owns which children) is a heap of adjacency lists, so that
    shared and self-containing networks can be written down.  The instance
    attributes of [NetGraph], the configuration file, the client socket and
    standard output form one explicit state that every method threads through
    a state-and-exception monad.  Numbers are rationals, with the floats
    [inf], [-inf] and [nan] beside them: the only arithmetic the module
    performs is [random.uniform(0, 1)].  A line of the configuration file is
    kept as the uid, field and value whose text it holds, and [exec] reads
    the text of the value back.  The lock that
    [update_client] holds during a tick is left out: a session is followed
    as one thread of ticks and messages. *)

From Stdlib Require Import QArith Lqa DecimalString DecimalNat.
From stdpp Require Import base option list gmap strings sorting.

Set Warnings "-register-all".
Local Open Scope string_scope.

(** ** Values *)

(** What [json.loads] produces.  A number is a finite one, or one of the
    floats [inf], [-inf] and [nan], which [json.loads] returns for
    [Infinity], [-Infinity], [NaN] and for a literal beyond the range of a
    float. *)
Inductive json : Type :=
  | JNull
  | JBool (b : bool)
  | JNum (q : Q)
  | JInf (negative : bool)
  | JNaN
  | JStr (s : string)
  | JArr (l : list json)
  | JObj (kv : list (string * json)).

(** The classes the component distinguishes with [isinstance], and the
    registry of [nengo.Config]. *)
Inductive kind : Type := Ensemble | Node | Network | Connection.

#[global] Instance kind_eq_dec : EqDecision kind.
Proof. solve_decision. Defined.

Definition kind_code (k : kind) : nat :=
  match k with Ensemble => 0 | Node => 1 | Network => 2 | Connection => 3 end.

Definition kind_of_code (n : nat) : kind :=
  match n with 0 => Ensemble | 1 => Node | 2 => Network | _ => Connection end.

#[global] Instance kind_countable : Countable kind.
Proof. apply (inj_countable' kind_code kind_of_code). by intros []. Defined.

(** A Python object: its class and its identity ([id(obj)]). *)
Record obj : Type := Obj { cls : kind; oid : nat }.

#[global] Instance obj_eq_dec : EqDecision obj.
Proof. solve_decision. Defined.

#[global] Instance obj_countable : Countable obj.
Proof.
  apply (inj_countable' (λ o, (cls o, oid o)) (λ p, Obj p.1 p.2)).
  by intros [].
Defined.

Definition ens (i : nat) : obj := Obj Ensemble i.
Definition node (i : nat) : obj := Obj Node i.
Definition net (i : nat) : obj := Obj Network i.
Definition conn (i : nat) : obj := Obj Connection i.

(** ** The collaborators

    The network objects ([net.ensembles], [net.nodes], [net.networks],
    [net.connections], [conn.pre_obj], [conn.post_obj]), the naming service
    [viz.viz.get_uid] / [get_label], the session context ([viz.model],
    [viz.viz.filename], [viz.viz.locals]) and the generator behind
    [random.random()].  Networks and connections are addressed by identity.
    The dict [viz.viz.locals] is read in two places of a configuration
    file: [locals] is what a uid expression evaluates to, a model object;
    [constants] is the value a bare name is bound to where the file has a
    name in place of a number (a script that starts with
    [from numpy import *] binds [inf] and [nan]).  In both, [None] stands
    for a name that is not bound. *)
Record Model : Type := {
  model : nat;
  ensembles : nat → list nat;
  nodes : nat → list nat;
  networks : nat → list nat;
  connections : nat → list nat;
  pre_obj : nat → obj;
  post_obj : nat → obj;
  get_uid : obj → string;
  get_label : obj → string;
  filename : option string;
  locals : string → option obj;
  constants : string → option json;
  random : nat → Q
}.

(** ** Layout store *)

(** The parameters [Config.__init__] declares: [pos] and [size] default to
    [None], [expanded] (networks only) to [False]. *)
Record LayoutEntry : Type := {
  pos : option (json * json);
  size : option (json * json);
  expanded : bool
}.

Definition default_entry : LayoutEntry :=
  {| pos := None; size := None; expanded := false |}.

Definition set_pos (v : option (json * json)) (e : LayoutEntry) : LayoutEntry :=
  {| pos := v; size := size e; expanded := expanded e |}.
Definition set_size (v : option (json * json)) (e : LayoutEntry) : LayoutEntry :=
  {| pos := pos e; size := v; expanded := expanded e |}.
Definition set_expanded (b : bool) (e : LayoutEntry) : LayoutEntry :=
  {| pos := pos e; size := size e; expanded := b |}.

(** The entry of an object, a default one when nothing was set yet. *)
Definition entry (c : gmap obj LayoutEntry) (o : obj) : LayoutEntry :=
  default (default_entry) (c !! o).

(** One line of the configuration file, [config[<uid>].<field>=<value>].
    A line is kept as the uid, the field and the value whose text [%s]
    wrote: the text of a value is its [repr], and what [exec] makes of that
    text is [read_back] below. *)
Inductive assignment : Type :=
  | SetPos (v : option (json * json))
  | SetSize (v : option (json * json))
  | SetExpanded (b : bool).

Record cfg_line : Type := Line {
  l_uid : string;
  l_assign : assignment
}.

(** ** Messages written to the client *)

Record object_info : Type := {
  o_uid : string;
  o_label : string;
  o_pos : json * json;
  o_type : string;
  o_size : json * json;
  o_parent : option string;
  o_expanded : option bool
}.

Record conn_info : Type := {
  c_uid : string;
  c_pre : list string;
  c_post : list string;
  c_parent : option string
}.

Inductive message_out : Type :=
  | CreateObject (info : object_info)
  | CreateConnection (info : conn_info)
  | Pan (pan : json * json)
  | Zoom (zoom : json).

(** Lines printed on standard output. *)
Inductive printed : Type :=
  | PrintReceived (msg : json)
  | PrintPan (x y : json)
  | PrintZoom (scale : json).

(** ** State *)

(** The attributes of a [NetGraph] instance, together with the parts of the
    world its methods write to: the file system, the client and standard
    output, and the number of random draws made so far.  [searched] is a
    history variable: the networks popped from [networks_to_search] so far,
    oldest first. *)
Record Session : Type := {
  config : gmap obj LayoutEntry;
  to_be_expanded : list obj;
  uids : gmap string obj;
  parents : gmap string string;
  networks_to_search : list nat;
  searched : list nat;
  disk : gmap string (list cfg_line);
  client : list message_out;
  stdout : list printed;
  draws : nat
}.

Inductive exn : Type :=
  | KeyError | IndexError | AttributeError | TypeError | ValueError
  | NameError | IOError.

(** How a call ends: normally, with an exception, or still running when the
    fuel of a [while] loop is used up. *)
Inductive outcome (A : Type) : Type :=
  | Ok (a : A)
  | Raise (e : exn)
  | OutOfFuel.
Arguments Ok {A} a.
Arguments Raise {A} e.
Arguments OutOfFuel {A}.

Definition M (A : Type) : Type := Session → outcome A * Session.

#[global] Instance M_ret : MRet M := λ A a s, (Ok a, s).

#[global] Instance M_bind : MBind M := λ A B f m s,
  match m s with
  | (Ok a, s') => f a s'
  | (Raise e, s') => (Raise e, s')
  | (OutOfFuel, s') => (OutOfFuel, s')
  end.

#[global] Instance M_fmap : FMap M := λ A B f ma, a ← ma; mret (f a).

Definition raise {A} (e : exn) : M A := λ s, (Raise e, s).
Definition out_of_fuel {A} : M A := λ s, (OutOfFuel, s).
Definition get_state : M Session := λ s, (Ok s, s).
Definition modify (f : Session → Session) : M unit := λ s, (Ok tt, f s).

(** [for x in l: body(x)] *)
Fixpoint for_each {A} (l : list A) (body : A → M unit) : M unit :=
  match l with
  | [] => mret tt
  | x :: l' => body x ;; for_each l' body
  end.

(** Field updates of the state. *)
Definition with_config (c : gmap obj LayoutEntry) (s : Session) : Session :=
  {| config := c; to_be_expanded := to_be_expanded s; uids := uids s;
     parents := parents s; networks_to_search := networks_to_search s;
     searched := searched s; disk := disk s; client := client s;
     stdout := stdout s; draws := draws s |}.
Definition with_to_be_expanded (q : list obj) (s : Session) : Session :=
  {| config := config s; to_be_expanded := q; uids := uids s;
     parents := parents s; networks_to_search := networks_to_search s;
     searched := searched s; disk := disk s; client := client s;
     stdout := stdout s; draws := draws s |}.
Definition with_uids (u : gmap string obj) (s : Session) : Session :=
  {| config := config s; to_be_expanded := to_be_expanded s; uids := u;
     parents := parents s; networks_to_search := networks_to_search s;
     searched := searched s; disk := disk s; client := client s;
     stdout := stdout s; draws := draws s |}.
Definition with_index (p : gmap string string) (q done : list nat)
    (s : Session) : Session :=
  {| config := config s; to_be_expanded := to_be_expanded s; uids := uids s;
     parents := p; networks_to_search := q; searched := done;
     disk := disk s; client := client s; stdout := stdout s;
     draws := draws s |}.
Definition with_disk (d : gmap string (list cfg_line)) (s : Session) : Session :=
  {| config := config s; to_be_expanded := to_be_expanded s; uids := uids s;
     parents := parents s; networks_to_search := networks_to_search s;
     searched := searched s; disk := d; client := client s;
     stdout := stdout s; draws := draws s |}.
Definition with_client (c : list message_out) (s : Session) : Session :=
  {| config := config s; to_be_expanded := to_be_expanded s; uids := uids s;
     parents := parents s; networks_to_search := networks_to_search s;
     searched := searched s; disk := disk s; client := c;
     stdout := stdout s; draws := draws s |}.
Definition with_stdout (o : list printed) (s : Session) : Session :=
  {| config := config s; to_be_expanded := to_be_expanded s; uids := uids s;
     parents := parents s; networks_to_search := networks_to_search s;
     searched := searched s; disk := disk s; client := client s;
     stdout := o; draws := draws s |}.
Definition with_draws (n : nat) (s : Session) : Session :=
  {| config := config s; to_be_expanded := to_be_expanded s; uids := uids s;
     parents := parents s; networks_to_search := networks_to_search s;
     searched := searched s; disk := disk s; client := client s;
     stdout := stdout s; draws := n |}.

(** [client.write(json.dumps(info))] and [print]. *)
Definition write (msg : message_out) : M unit :=
  modify (λ s, with_client (client s ++ [msg]) s).
Definition print (p : printed) : M unit :=
  modify (λ s, with_stdout (stdout s ++ [p]) s).

(** ** [nengo.Config] as [Config.__init__] sets it up

    [config[obj]] exists for ensembles, nodes and networks and is a
    [KeyError] for any other object; [expanded] is a parameter of networks
    only, so reading or writing it on an ensemble or a node is an
    [AttributeError].  A parameter made by [Parameter(None)] is not optional:
    assigning [None] to it is a [ValueError]. *)
Definition config_item (o : obj) : M unit :=
  match cls o with
  | Connection => raise KeyError
  | _ => mret tt
  end.

Definition read_pos (o : obj) : M (option (json * json)) :=
  config_item o ;; s ← get_state; mret (pos (entry (config s) o)).

Definition read_size (o : obj) : M (option (json * json)) :=
  config_item o ;; s ← get_state; mret (size (entry (config s) o)).

Definition read_expanded (o : obj) : M bool :=
  config_item o ;;
  match cls o with
  | Network => s ← get_state; mret (expanded (entry (config s) o))
  | _ => raise AttributeError
  end.

Definition update_entry (o : obj) (f : LayoutEntry → LayoutEntry) : M unit :=
  modify (λ s, with_config (<[o := f (entry (config s) o)]> (config s)) s).

Definition assign_pos (o : obj) (v : option (json * json)) : M unit :=
  config_item o ;;
  match v with
  | None => raise ValueError
  | Some _ => update_entry o (set_pos v)
  end.

Definition assign_size (o : obj) (v : option (json * json)) : M unit :=
  config_item o ;;
  match v with
  | None => raise ValueError
  | Some _ => update_entry o (set_size v)
  end.

Definition assign_expanded (o : obj) (b : bool) : M unit :=
  config_item o ;;
  match cls o with
  | Network => update_entry o (set_expanded b)
  | _ => raise AttributeError
  end.

(** ** [Config.dumps] *)

(** [sorted(uids.items())]: the keys are distinct, so the order is the order
    of the uids. *)
Definition item_le (a b : string * obj) : Prop := String.leb a.1 b.1 = true.

#[global] Instance item_le_dec a b : Decision (item_le a b).
Proof. unfold item_le. apply _. Defined.

Definition sorted_items (u : gmap string obj) : list (string * obj) :=
  merge_sort item_le (map_to_list u).

Definition dumps_item (c : gmap obj LayoutEntry) (it : string * obj)
    : list cfg_line :=
  let '(uid, o) := it in
  match cls o with
  | Ensemble =>
      [Line uid (SetPos (pos (entry c o)));
       Line uid (SetSize (size (entry c o)))]
  | Node =>
      [Line uid (SetPos (pos (entry c o)));
       Line uid (SetSize (size (entry c o)))]
  | Network =>
      [Line uid (SetPos (pos (entry c o)));
       Line uid (SetSize (size (entry c o)));
       Line uid (SetExpanded (expanded (entry c o)))]
  | Connection => []
  end.

Definition dumps (c : gmap obj LayoutEntry) (u : gmap string obj)
    : list cfg_line :=
  flat_map (dumps_item c) (sorted_items u).

(** ** The text of a value, read by [exec]

    [%s] writes a value with [repr].  For [None], [True], [False], a finite
    number, a string, a list and a dict this is a literal that evaluates to
    the value.  An infinite float is written [inf] or [-inf] and a NaN
    [nan]: these are names, which [exec] looks up, a [NameError] when they
    are not bound; [-inf] negates what [inf] is bound to.  The elements of a
    list or dict are evaluated in the order they are written. *)
Definition lookup_name (names : string → option json) (n : string)
    : outcome json :=
  match names n with
  | Some v => Ok v
  | None => Raise NameError
  end.

Definition negate (v : json) : outcome json :=
  match v with
  | JNum q => Ok (JNum (- q))
  | JInf b => Ok (JInf (negb b))
  | JNaN => Ok JNaN
  | JBool b => Ok (JNum (if b then - (1) else 0))
  | _ => Raise TypeError
  end.

Fixpoint read_back (names : string → option json) (v : json)
    : outcome json :=
  match v with
  | JInf false => lookup_name names "inf"
  | JInf true =>
      match lookup_name names "inf" with
      | Ok x => negate x
      | r => r
      end
  | JNaN => lookup_name names "nan"
  | JArr l =>
      match foldr (λ x acc,
                     match read_back names x, acc with
                     | Ok x', Ok l' => Ok (x' :: l')
                     | Ok _, r => r
                     | Raise e, _ => Raise e
                     | OutOfFuel, _ => OutOfFuel
                     end) (Ok []) l with
      | Ok l' => Ok (JArr l')
      | Raise e => Raise e
      | OutOfFuel => OutOfFuel
      end
  | JObj kv =>
      match foldr (λ p acc,
                     match read_back names p.2, acc with
                     | Ok x', Ok kv' => Ok ((p.1, x') :: kv')
                     | Ok _, r => r
                     | Raise e, _ => Raise e
                     | OutOfFuel, _ => OutOfFuel
                     end) (Ok []) kv with
      | Ok kv' => Ok (JObj kv')
      | Raise e => Raise e
      | OutOfFuel => OutOfFuel
      end
  | _ => Ok v
  end.

(** The right-hand side of a [pos] or [size] line: [None], or a tuple whose
    two elements are read in turn. *)
Definition read_back_pair (names : string → option json)
    (v : option (json * json)) : outcome (option (json * json)) :=
  match v with
  | None => Ok None
  | Some (x, y) =>
      match read_back names x with
      | Ok x' =>
          match read_back names y with
          | Ok y' => Ok (Some (x', y'))
          | Raise e => Raise e
          | OutOfFuel => OutOfFuel
          end
      | Raise e => Raise e
      | OutOfFuel => OutOfFuel
      end
  end.

(** A value that holds no [inf] and no [nan]. *)
Fixpoint finite (v : json) : bool :=
  match v with
  | JInf _ | JNaN => false
  | JArr l => forallb finite l
  | JObj kv => forallb (λ p, finite p.2) kv
  | _ => true
  end.

(** A computation that only returns a result. *)
Definition lift {A} (r : outcome A) : M A := λ s, (r, s).

(** ** [NetGraph] *)

Section NetGraph.
Variable m : Model.

(** [NetGraph.__init__], the configuration having been found. *)
Definition init (c : gmap obj LayoutEntry) (d : gmap string (list cfg_line))
    : Session :=
  {| config := c; to_be_expanded := [net (model m)]; uids := ∅;
     parents := ∅; networks_to_search := [model m]; searched := [];
     disk := d; client := []; stdout := []; draws := 0 |}.

(** [save_config]: [filename + '.cfg'] is a [TypeError] when the session has
    no file name; the file system accepts every write. *)
Definition save_config : M unit :=
  match filename m with
  | None => raise TypeError
  | Some f =>
      modify (λ s, with_disk (<[f ++ ".cfg" := dumps (config s) (uids s)]> (disk s)) s)
  end.

(** *** [get_parents] *)

(** The three [for] loops of the body: every direct child of network [n] gets
    [n]'s uid as its parent, nodes first, then ensembles, then networks. *)
Definition index_children (n : nat) (p : gmap string string)
    : gmap string string :=
  let net_uid := get_uid m (net n) in
  let p1 := foldl (λ p i, <[get_uid m (node i) := net_uid]> p) p (nodes m n) in
  let p2 := foldl (λ p i, <[get_uid m (ens i) := net_uid]> p) p1 (ensembles m n) in
  foldl (λ p i, <[get_uid m (net i) := net_uid]> p) p2 (networks m n).

(** One iteration of the first [while] loop, [n] being the network that
    [pop(0)] returned and [rest] what stays in the queue. *)
Definition search_network (n : nat) (rest : list nat) (s : Session) : Session :=
  with_index (index_children n (parents s)) (rest ++ networks m n)
             (searched s ++ [n]) s.

(** [while uid not in self.parents: ...] *)
Fixpoint index_until (fuel : nat) (uid : string) : M unit := λ s,
  match parents s !! uid with
  | Some _ => (Ok tt, s)
  | None =>
      match fuel with
      | 0 => (OutOfFuel, s)
      | S fuel' =>
          match networks_to_search s with
          | [] => (Raise IndexError, s)
          | n :: rest => index_until fuel' uid (search_network n rest s)
          end
      end
  end.

(** [while parents[-1] in self.parents: parents.append(...)]: the elements
    appended after [last]. *)
Fixpoint walk_parents (fuel : nat) (p : gmap string string) (last : string)
    : outcome (list string) :=
  match p !! last with
  | None => Ok []
  | Some up =>
      match fuel with
      | 0 => OutOfFuel
      | S fuel' =>
          match walk_parents fuel' p up with
          | Ok l => Ok (up :: l)
          | Raise e => Raise e
          | OutOfFuel => OutOfFuel
          end
      end
  end.

Definition get_parents (fuel : nat) (uid : string) : M (list string) :=
  index_until fuel uid ;;
  s ← get_state;
  match walk_parents fuel (parents s) uid with
  | Ok l => mret (uid :: l)
  | Raise e => raise e
  | OutOfFuel => out_of_fuel
  end.

(** *** Expansion *)

(** [random.uniform(a, b)] is [a + (b-a) * random()]. *)
Definition uniform (a b r : Q) : Q := (a + (b - a) * r)%Q.

Definition next_random : M Q :=
  s ← get_state;
  modify (with_draws (S (draws s))) ;;
  mret (random m (draws s)).

Definition register (uid : string) (o : obj) : M unit :=
  modify (λ s, with_uids (<[uid := o]> (uids s)) s).

Definition create_object (o : obj) (type : string) (parent : option string)
    : M unit :=
  p ← read_pos o;
  pos ← match p with
        | None =>
            r1 ← next_random;
            r2 ← next_random;
            let pos := (JNum (uniform 0 1 r1), JNum (uniform 0 1 r2)) in
            assign_pos o (Some pos) ;;
            mret pos
        | Some pos => mret pos
        end;
  z ← read_size o;
  size ← match z with
         | None =>
             let size := (JNum (1 # 10), JNum (1 # 10)) in
             assign_size o (Some size) ;;
             mret size
         | Some size => mret size
         end;
  let label := get_label m o in
  let uid := get_uid m o in
  register uid o ;;
  e ← (if decide (type = "net") then Some <$> read_expanded o else mret None);
  write (CreateObject {| o_uid := uid; o_label := label; o_pos := pos;
                         o_type := type; o_size := size; o_parent := parent;
                         o_expanded := e |}).

(** ['conn_%d' % id(conn)] *)
Definition conn_uid (i : nat) : string :=
  "conn_" ++ NilZero.string_of_uint (Nat.to_uint i).

Definition create_connection (fuel : nat) (i : nat) (parent : option string)
    : M unit :=
  let pre := get_uid m (pre_obj m i) in
  let post := get_uid m (post_obj m i) in
  let uid := conn_uid i in
  register uid (conn i) ;;
  chain ← get_parents fuel pre;
  let pres := removelast chain in
  chain ← get_parents fuel post;
  let posts := removelast chain in
  write (CreateConnection {| c_uid := uid; c_pre := pres; c_post := posts;
                             c_parent := parent |}).

Definition send_pan_and_zoom : M unit :=
  p ← read_pos (net (model m));
  let pan := match p with None => (JNum 0, JNum 0) | Some pan => pan end in
  z ← read_size (net (model m));
  let zoom := match z with None => JNum 1 | Some zoom => zoom.1 end in
  write (Pan pan) ;;
  write (Zoom zoom).

(** Only a network has [ensembles], [nodes], [networks] and [connections]. *)
Definition expand_network (fuel : nat) (network : obj) : M unit :=
  let parent := if decide (network = net (model m)) then None
                else Some (get_uid m network) in
  match cls network with
  | Network =>
      let n := oid network in
      for_each (ensembles m n) (λ i, create_object (ens i) "ens" parent) ;;
      for_each (nodes m n) (λ i, create_object (node i) "node" parent) ;;
      for_each (networks m n) (λ i, create_object (net i) "net" parent) ;;
      for_each (connections m n) (λ i, create_connection fuel i parent) ;;
      assign_expanded network true
  | _ => raise AttributeError
  end.

Definition update_client (fuel : nat) : M unit :=
  s ← get_state;
  match to_be_expanded s with
  | network :: rest =>
      modify (with_to_be_expanded rest) ;;
      expand_network fuel network ;;
      if decide (network = net (model m)) then send_pan_and_zoom else mret tt
  | [] => mret tt
  end.

(** *** Client actions *)

(** [self.uids[uid]]: lists and dicts are unhashable, any other value that is
    not a registered string is a missing key. *)
Definition lookup_uid (uid : json) : M obj :=
  match uid with
  | JStr u =>
      s ← get_state;
      match uids s !! u with
      | Some o => mret o
      | None => raise KeyError
      end
  | JArr _ | JObj _ => raise TypeError
  | _ => raise KeyError
  end.

Definition act_expand (uid : json) : M unit :=
  net ← lookup_uid uid;
  modify (λ s, with_to_be_expanded (to_be_expanded s ++ [net]) s) ;;
  assign_expanded net true ;;
  save_config.

Definition act_collapse (uid : json) : M unit :=
  net ← lookup_uid uid;
  assign_expanded net false ;;
  save_config.

Definition act_pan (x y : json) : M unit :=
  print (PrintPan x y) ;;
  assign_pos (net (model m)) (Some (x, y)) ;;
  save_config.

Definition act_zoom (scale x y : json) : M unit :=
  print (PrintZoom scale) ;;
  assign_size (net (model m)) (Some (scale, scale)) ;;
  assign_pos (net (model m)) (Some (x, y)) ;;
  save_config.

Definition act_pos (uid x y : json) : M unit :=
  o ← lookup_uid uid;
  assign_pos o (Some (x, y)) ;;
  save_config.

Definition act_size (uid width height : json) : M unit :=
  o ← lookup_uid uid;
  assign_size o (Some (width, height)) ;;
  save_config.

(** The dict [json.loads] builds from an object: a repeated key keeps its
    last value. *)
Definition dict_of (kv : list (string * json)) : gmap string json :=
  list_to_map (reverse kv).

(** [handler( **info)]: the keys of [info] must be exactly the parameters of
    the handler, otherwise the call is a [TypeError]. *)
Definition call1 (info : gmap string json) (a : string)
    (f : json → M unit) : M unit :=
  match info !! a with
  | Some x => if decide (base.size info = 1) then f x else raise TypeError
  | _ => raise TypeError
  end.

Definition call2 (info : gmap string json) (a b : string)
    (f : json → json → M unit) : M unit :=
  match info !! a, info !! b with
  | Some x, Some y => if decide (base.size info = 2) then f x y else raise TypeError
  | _, _ => raise TypeError
  end.

Definition call3 (info : gmap string json) (a b c : string)
    (f : json → json → json → M unit) : M unit :=
  match info !! a, info !! b, info !! c with
  | Some x, Some y, Some z =>
      if decide (base.size info = 3) then f x y z else raise TypeError
  | _, _, _ => raise TypeError
  end.

(** The methods of [NetGraph] whose name starts with [act_]. *)
Definition known_actions : list string :=
  ["expand"; "collapse"; "pan"; "zoom"; "pos"; "size"].

(** [getattr(self, 'act_' + action)( **info)] *)
Definition dispatch (action : string) (info : gmap string json) : M unit :=
  if decide (action = "expand") then call1 info "uid" act_expand
  else if decide (action = "collapse") then call1 info "uid" act_collapse
  else if decide (action = "pan") then call2 info "x" "y" act_pan
  else if decide (action = "zoom") then call3 info "scale" "x" "y" act_zoom
  else if decide (action = "pos") then call3 info "uid" "x" "y" act_pos
  else if decide (action = "size") then
    call3 info "uid" "width" "height" act_size
  else raise AttributeError.

(** [message], on the value [json.loads(msg)] returned.  Only a dict has
    [get]; ['act_' + action] needs a string. *)
Definition message (msg : json) : M unit :=
  match msg with
  | JObj kv =>
      let info := dict_of kv in
      match info !! "act" with
      | None | Some JNull => print (PrintReceived msg)
      | Some (JStr action) => dispatch action (delete "act" info)
      | Some _ => raise TypeError
      end
  | _ => raise AttributeError
  end.

(** *** [find_config] *)

(** Executing one line of the file.  An assignment evaluates its right-hand
    side first, then its target: the uid is an expression that the
    session's [locals] evaluate to an object, [config[...]] looks the object
    up, and the attribute is set. *)
Definition eval_uid (uid : string) : M obj :=
  match locals m uid with
  | None => raise NameError
  | Some o => mret o
  end.

Definition exec_line (l : cfg_line) : M unit :=
  match l_assign l with
  | SetPos v =>
      v' ← lift (read_back_pair (constants m) v);
      o ← eval_uid (l_uid l);
      assign_pos o v'
  | SetSize v =>
      v' ← lift (read_back_pair (constants m) v);
      o ← eval_uid (l_uid l);
      assign_size o v'
  | SetExpanded b =>
      o ← eval_uid (l_uid l);
      assign_expanded o b
  end.

(** The configuration [exec] leaves behind, started from [Config()]. *)
Definition exec_config (code : list cfg_line)
    : outcome (gmap obj LayoutEntry) :=
  let s0 := init ∅ ∅ in
  match for_each code exec_line s0 with
  | (Ok _, s) => Ok (config s)
  | (Raise e, _) => Raise e
  | (OutOfFuel, _) => OutOfFuel
  end.

(** [find_config]: from the file when the session has a file name, from the
    process-wide table [NetGraph.configs] otherwise. *)
Definition find_config (d : gmap string (list cfg_line))
    (configs : gmap nat (gmap obj LayoutEntry))
    : outcome (gmap obj LayoutEntry) :=
  match filename m with
  | Some f =>
      match d !! (f ++ ".cfg") with
      | None => Raise IOError
      | Some code => exec_config code
      end
  | None => Ok (default ∅ (configs !! model m))
  end.

End NetGraph.

(** ** Auxiliary notions used in the statements *)

(** The state after [k] iterations of the first loop of [get_parents] (fewer
    when the queue runs out before). *)
Fixpoint drain (m : Model) (k : nat) (s : Session) : Session :=
  match k with
  | 0 => s
  | S k' =>
      match networks_to_search s with
      | [] => s
      | n :: rest => drain m k' (search_network m n rest s)
      end
  end.

(** A position with both coordinates in [[0,1)]. *)
Definition in_unit_square (p : json * json) : Prop :=
  match p with
  | (JNum x, JNum y) => (0 <= x ∧ x < 1 ∧ 0 <= y ∧ y < 1)%Q
  | _ => False
  end.

(** ** Tree-shaped hierarchies *)

(** A network together with the subtrees of the networks it holds. *)
Inductive tree : Type := T (root : nat) (kids : list tree).

Definition root_of (t : tree) : nat := match t with T r _ => r end.

(** Every network of the tree, the root first. *)
Fixpoint nets_of (t : tree) : list nat :=
  match t with T r kids => r :: flat_map nets_of kids end.

(** The model has the shape of the tree: the [networks] of each network of
    the tree are the roots of its subtrees, in order. *)
Inductive shaped (m : Model) : tree → Prop :=
  | shaped_T (r : nat) (kids : list tree) :
      networks m r = map root_of kids →
      Forall (shaped m) kids →
      shaped m (T r kids).

(** The queue of [get_parents] holds the roots of a forest of subtrees of
    [t], and the networks searched so far together with those of the forest
    are the networks of [t], each once. *)
Definition searching (m : Model) (t : tree) (s : Session) : Prop :=
  ∃ pending : list tree,
    networks_to_search s = map root_of pending
    ∧ Forall (shaped m) pending
    ∧ (searched s ++ flat_map nets_of pending)%list ≡ₚ nets_of t.

(** A session resolving one uid after another; an exception ends a
    resolution, not the session. *)
Fixpoint resolve_all (m : Model) (fuel : nat) (queries : list string)
    (s : Session) : list (outcome (list string)) * Session :=
  match queries with
  | [] => ([], s)
  | uid :: queries' =>
      let (r, s1) := get_parents m fuel uid s in
      let (rs, s') := resolve_all m fuel queries' s1 in
      (r :: rs, s')
  end.

(** ** Example models *)

Module Demo.

(** A root holding ensemble E, node N and network A; A holds ensemble E2 and
    network B; B holds ensemble E3.  The root owns one connection, from E3
    to N. *)
Definition uid_of (o : obj) : string :=
  match o with
  | Obj Network 0 => "model"
  | Obj Ensemble 1 => "E"
  | Obj Node 2 => "N"
  | Obj Network 3 => "A"
  | Obj Ensemble 4 => "E2"
  | Obj Network 5 => "B"
  | Obj Ensemble 6 => "E3"
  | _ => "other"
  end.

(** A generator that alternates between 1/4 and 5/8. *)
Definition draw (i : nat) : Q := if Nat.even i then 1 # 4 else 5 # 8.

Definition resolve (u : string) : option obj :=
  if decide (u = "model") then Some (net 0)
  else if decide (u = "E") then Some (ens 1)
  else if decide (u = "N") then Some (node 2)
  else if decide (u = "A") then Some (net 3)
  else if decide (u = "E2") then Some (ens 4)
  else if decide (u = "B") then Some (net 5)
  else if decide (u = "E3") then Some (ens 6)
  else None.

Definition nested : Model := {|
  model := 0;
  ensembles := λ n, match n with 0 => [1] | 3 => [4] | 5 => [6] | _ => [] end;
  nodes := λ n, match n with 0 => [2] | _ => [] end;
  networks := λ n, match n with 0 => [3] | 3 => [5] | _ => [] end;
  connections := λ n, match n with 0 => [7] | _ => [] end;
  pre_obj := λ _, ens 6;
  post_obj := λ _, node 2;
  get_uid := uid_of;
  get_label := uid_of;
  filename := Some "demo";
  locals := resolve;
  constants := λ _, None;
  random := draw
|}.

(** The same hierarchy in a session that has no file name. *)
Definition unnamed : Model := {|
  model := 0;
  ensembles := ensembles nested;
  nodes := nodes nested;
  networks := networks nested;
  connections := connections nested;
  pre_obj := pre_obj nested;
  post_obj := post_obj nested;
  get_uid := uid_of;
  get_label := uid_of;
  filename := None;
  locals := resolve;
  constants := λ _, None;
  random := draw
|}.

(** A root holding exactly ensemble E and node N. *)
Definition two_leaves : Model := {|
  model := 0;
  ensembles := λ n, match n with 0 => [1] | _ => [] end;
  nodes := λ n, match n with 0 => [2] | _ => [] end;
  networks := λ _, [];
  connections := λ _, [];
  pre_obj := λ _, ens 1;
  post_obj := λ _, node 2;
  get_uid := uid_of;
  get_label := uid_of;
  filename := Some "demo";
  locals := resolve;
  constants := λ _, None;
  random := draw
|}.

(** Network B is a child of both A and C (uid "other"). *)
Definition shared : Model := {|
  model := 0;
  ensembles := λ n, match n with 5 => [6] | _ => [] end;
  nodes := λ _, [];
  networks := λ n, match n with 0 => [3; 8] | 3 => [5] | 8 => [5] | _ => [] end;
  connections := λ _, [];
  pre_obj := λ _, ens 6;
  post_obj := λ _, ens 6;
  get_uid := uid_of;
  get_label := uid_of;
  filename := Some "demo";
  locals := resolve;
  constants := λ _, None;
  random := draw
|}.

(** Network A lists itself among its own networks. *)
Definition looping : Model := {|
  model := 0;
  ensembles := λ _, [];
  nodes := λ _, [];
  networks := λ n, match n with 0 => [3] | 3 => [3] | _ => [] end;
  connections := λ _, [];
  pre_obj := λ _, ens 6;
  post_obj := λ _, ens 6;
  get_uid := uid_of;
  get_label := uid_of;
  filename := Some "demo";
  locals := resolve;
  constants := λ _, None;
  random := draw
|}.

(** A root holding networks A and B, with one ensemble each. *)
Definition siblings : Model := {|
  model := 0;
  ensembles := λ n, match n with 3 => [4] | 5 => [6] | _ => [] end;
  nodes := λ _, [];
  networks := λ n, match n with 0 => [3; 5] | _ => [] end;
  connections := λ _, [];
  pre_obj := λ _, ens 4;
  post_obj := λ _, ens 6;
  get_uid := uid_of;
  get_label := uid_of;
  filename := Some "demo";
  locals := resolve;
  constants := λ _, None;
  random := draw
|}.

(** The networks of [nested] as a tree. *)
Definition nested_tree : tree := T 0 [T 3 [T 5 []]].

(** The session once the first tick has expanded the root of [nested]. *)
Definition after_first_tick : Session :=
  (update_client nested 8 (init nested ∅ ∅)).2.

End Demo.

(** The position and size [create_object] sends for an object: what the
    store holds, or the defaults it is about to assign. *)
Definition placed (m : Model) (o : obj) (s : Session) : json * json :=
  match pos (entry (config s) o) with
  | Some p => p
  | None => (JNum (uniform 0 1 (random m (draws s))),
             JNum (uniform 0 1 (random m (S (draws s)))))
  end.

Definition sized (o : obj) (s : Session) : json * json :=
  match size (entry (config s) o) with
  | Some z => z
  | None => (JNum (1 # 10), JNum (1 # 10))
  end.

(** Both [pos] and [size] of the object are set. *)
Definition laid_out (o : obj) (s : Session) : Prop :=
  is_Some (pos (entry (config s) o)) ∧ is_Some (size (entry (config s) o)).

(** Two states agree on everything outside the parent index, the uid
    registry and the client. *)
Definition same_layout (s s' : Session) : Prop :=
  config s' = config s ∧ disk s' = disk s
  ∧ to_be_expanded s' = to_be_expanded s
  ∧ draws s' = draws s ∧ stdout s' = stdout s.

(** Among the messages [new] there is a "create object" for this uid, type
    and parent. *)
Definition announces (new : list message_out) (uid type : string)
    (parent : option string) : Prop :=
  ∃ info, CreateObject info ∈ new ∧ o_uid info = uid
          ∧ o_type info = type ∧ o_parent info = parent.

(** The [parent] field [expand_network] sends for the children of a
    network. *)
Definition parent_field (m : Model) (network : obj) : option string :=
  if decide (network = net (model m)) then None
  else Some (get_uid m network).

(** The objects directly under a network, in the order [expand_network]
    creates them, and the [type] it sends for each. *)
Definition children (m : Model) (n : nat) : list obj :=
  (map ens (ensembles m n) ++ map node (nodes m n)
   ++ map net (networks m n))%list.

Definition type_of (o : obj) : string :=
  match cls o with
  | Ensemble => "ens"
  | Node => "node"
  | _ => "net"
  end.

(** What a successful [act_collapse] on network [n] leaves: the flag of [n]
    cleared, the file rewritten, everything else as it was. *)
Definition collapsed (n : nat) (f : string) (s : Session) : Session :=
  let c := <[net n := set_expanded false (entry (config s) (net n))]> (config s) in
  with_disk (<[f ++ ".cfg" := dumps c (uids s)]> (disk s)) (with_config c s).

(** A position or size whose text evaluates to the value itself. *)
Definition reads_back (m : Model) (v : json * json) : Prop :=
  read_back (constants m) v.1 = Ok v.1 ∧ read_back (constants m) v.2 = Ok v.2.

(** An item of the uid registry that [exec] can replay against store [c]:
    unless the object is a connection, the session's [locals] resolve the
    uid to the object, and the store holds a position and a size for the
    object whose text reads back. *)
Definition replayable (m : Model) (c : gmap obj LayoutEntry)
    (it : string * obj) : Prop :=
  cls it.2 ≠ Connection →
  locals m it.1 = Some it.2
  ∧ (∃ p, pos (entry c it.2) = Some p ∧ reads_back m p)
  ∧ (∃ z, size (entry c it.2) = Some z ∧ reads_back m z).

(** What the file keeps of the entry of an object: its position and size,
    and the flag when the object is a network. *)
Definition kept (c : gmap obj LayoutEntry) (o : obj) : LayoutEntry :=
  {| pos := pos (entry c o); size := size (entry c o);
     expanded := match cls o with
                 | Network => expanded (entry c o)
                 | _ => false
                 end |}.

(** ** Well-formed hierarchies *)

(** An object directly under some network of the tree. *)
Definition member (m : Model) (t : tree) (o : obj) : Prop :=
  ∃ n, n ∈ nets_of t ∧ o ∈ children m n.

(** The hierarchy is the tree [t] below the root; the uid of an object tells
    which network holds it, and no object below the root has the root's uid;
    the connections of every network run between objects of the tree. *)
Definition well_formed (m : Model) (t : tree) : Prop :=
  shaped m t
  ∧ root_of t = model m
  ∧ (∀ n n' o o', n ∈ nets_of t → n' ∈ nets_of t →
       o ∈ children m n → o' ∈ children m n' →
       get_uid m o = get_uid m o' → n = n')
  ∧ (∀ n o, n ∈ nets_of t → o ∈ children m n →
       get_uid m o ≠ get_uid m (net (model m)))
  ∧ (∀ n i, n ∈ nets_of t → i ∈ connections m n →
       member m t (pre_obj m i) ∧ member m t (post_obj m i)).

(** The parent index is the one the searched networks give, the queue
    holding the roots of the forest [pending]: the networks searched and
    those of the forest are the networks of [t]; the children of every
    searched network point to it and nothing else is a key; every searched
    network but the root was found in a network searched before it, and
    every queued network but the root in a searched one. *)
Definition indexed_by (m : Model) (t : tree) (pending : list tree)
    (s : Session) : Prop :=
  networks_to_search s = map root_of pending
  ∧ Forall (shaped m) pending
  ∧ (searched s ++ flat_map nets_of pending)%list ≡ₚ nets_of t
  ∧ (∀ n o, n ∈ searched s → o ∈ children m n →
       parents s !! get_uid m o = Some (get_uid m (net n)))
  ∧ (∀ uid p, parents s !! uid = Some p →
       ∃ n o, n ∈ searched s ∧ o ∈ children m n ∧ uid = get_uid m o)
  ∧ (∀ l1 n l2, searched s = (l1 ++ n :: l2)%list →
       n = model m ∨ ∃ n', n' ∈ l1 ∧ n ∈ networks m n')
  ∧ (∀ tr, tr ∈ pending →
       root_of tr = model m
       ∨ ∃ n', n' ∈ searched s ∧ root_of tr ∈ networks m n').

Definition indexed (m : Model) (t : tree) (s : Session) : Prop :=
  ∃ pending : list tree, indexed_by m t pending s.

(** ** Sessions *)

(** What drives a session: synchronization ticks and client messages.  An
    exception ends the call that raised it; the state it left is the state
    the next call finds. *)
Inductive event : Type :=
  | Tick (fuel : nat)
  | Message (msg : json).

Definition step (m : Model) (s : Session) (e : event) : Session :=
  match e with
  | Tick fuel => (update_client m fuel s).2
  | Message msg => (message m msg s).2
  end.

Definition run (m : Model) (events : list event) (s : Session) : Session :=
  foldl (step m) s events.

(** A computation keeps a property of the state, however it ends. *)
Definition preserves {A} (P : Session → Prop) (c : M A) : Prop :=
  ∀ s r s', P s → c s = (r, s') → P s'.

(** ** Notions used in further properties *)

(** Each element of the chain has the next one as its parent, and the last
    one has none. *)
Fixpoint linked (p : gmap string string) (chain : list string) : Prop :=
  match chain with
  | [] => True
  | a :: rest =>
      match rest with
      | [] => p !! a = None
      | b :: _ => p !! a = Some b ∧ linked p rest
      end
  end.

(** The state a successful [save_config] leaves when the store has become
    [c]. *)
Definition saved (f : string) (c : gmap obj LayoutEntry) (s : Session)
    : Session :=
  with_disk (<[f ++ ".cfg" := dumps c (uids s)]> (disk s)) (with_config c s).

(** The configuration file holds what [dumps] gives for the current store
    and registry. *)
Definition in_sync (m : Model) (s : Session) : Prop :=
  ∃ f, filename m = Some f
       ∧ disk s !! (f ++ ".cfg") = Some (dumps (config s) (uids s)).

(** The parameters of the [act_*] methods, [self] apart. *)
Definition handler_params (action : string) : list string :=
  if decide (action = "expand") then ["uid"]
  else if decide (action = "collapse") then ["uid"]
  else if decide (action = "pan") then ["x"; "y"]
  else if decide (action = "zoom") then ["scale"; "x"; "y"]
  else if decide (action = "pos") then ["uid"; "x"; "y"]
  else if decide (action = "size") then ["uid"; "width"; "height"]
  else [].

(** The order of the lines of a file, and the number of lines [dumps] writes
    for an object. *)
Definition line_le (a b : cfg_line) : Prop :=
  String.leb (l_uid a) (l_uid b) = true.

Definition lines_of (o : obj) : nat :=
  match cls o with
  | Ensemble => 2
  | Node => 2
  | Network => 3
  | Connection => 0
  end.

(** An object that [create_object] or [create_connection] can have put into
    the registry: a child of some network, or a connection. *)
Definition registrable (m : Model) (o : obj) : Prop :=
  cls o = Connection ∨ ∃ n, o ∈ children m n.

(** The store [c'] keeps every position and every size that is set in
    [c]. *)
Definition keeps_set (c c' : gmap obj LayoutEntry) : Prop :=
  ∀ o, (∀ p, pos (entry c o) = Some p → pos (entry c' o) = Some p)
       ∧ (∀ z, size (entry c o) = Some z → size (entry c' o) = Some z).

(** The actions whose handlers assign a position or a size, and the events
    that carry one of them. *)
Definition moving_actions : list string := ["pan"; "zoom"; "pos"; "size"].

Definition moves (e : event) : Prop :=
  match e with
  | Message (JObj kv) =>
      ∃ a, dict_of kv !! "act" = Some (JStr a) ∧ a ∈ moving_actions
  | _ => False
  end.

(** Among the messages [new] there is a "create object" for the uid of [o]
    that carries the position and the size the store [c] holds for [o]. *)
Definition told_as_stored (m : Model) (new : list message_out)
    (c : gmap obj LayoutEntry) (o : obj) : Prop :=
  ∃ info, CreateObject info ∈ new ∧ o_uid info = get_uid m o
          ∧ pos (entry c o) = Some (o_pos info)
          ∧ size (entry c o) = Some (o_size info).

(** A computation that needs no fuel and leaves the file system alone, and
    one that moreover always ends in an exception. *)
Definition quiet {A} (c : M A) : Prop :=
  ∀ s r s', c s = (r, s') → r ≠ OutOfFuel ∧ disk s' = disk s.

Definition fails {A} (c : M A) : Prop :=
  ∀ s, ∃ e s', c s = (Raise e, s') ∧ disk s' = disk s.

(** A chain that climbs the tree: every element but the last is the uid of
    an object of the tree, and the element after it is the uid of the
    network that lists this object. *)
Fixpoint ascending (m : Model) (t : tree) (chain : list string) : Prop :=
  match chain with
  | [] => True
  | a :: rest =>
      match rest with
      | [] => True
      | b :: _ =>
          (∃ n o, n ∈ nets_of t ∧ o ∈ children m n
                  ∧ a = get_uid m o ∧ b = get_uid m (net n))
          ∧ ascending m t rest
      end
  end.

(** [mid] is what lies between the uid of [o] and the uid of the root in a
    chain that climbs the tree from [o] to the root, and the root's uid
    occurs nowhere before the end of that chain. *)
Definition rooted_chain (m : Model) (t : tree) (o : obj)
    (mid : list string) : Prop :=
  ascending m t (get_uid m o :: mid ++ [get_uid m (net (model m))])
  ∧ get_uid m (net (model m)) ∉ get_uid m o :: mid.

(** The message [create_connection] writes for connection [i] when the
    chains of its endpoints are their uids followed by [pre_mid] and
    [post_mid]. *)
Definition connection_message (m : Model) (i : nat) (parent : option string)
    (pre_mid post_mid : list string) : message_out :=
  CreateConnection
    {| c_uid := conn_uid i;
       c_pre := get_uid m (pre_obj m i) :: pre_mid;
       c_post := get_uid m (post_obj m i) :: post_mid;
       c_parent := parent |}.

Definition is_create_object (msg : message_out) : Prop :=
  ∃ info, msg = CreateObject info.

(** ** Running the monad *)

Ltac unfold_monad :=
  unfold mbind, M_bind, mret, M_ret, fmap, M_fmap, raise, out_of_fuel,
    get_state, modify in *.

Lemma bind_ok {A B} (c : M A) (k : A → M B) s a s' :
  c s = (Ok a, s') → (c ≫= k) s = k a s'.
Proof. intros H. unfold mbind, M_bind. by rewrite H. Qed.

Lemma bind_raise {A B} (c : M A) (k : A → M B) s e s' :
  c s = (Raise e, s') → (c ≫= k) s = (Raise e, s').
Proof. intros H. unfold mbind, M_bind. by rewrite H. Qed.

Lemma bind_out_of_fuel {A B} (c : M A) (k : A → M B) s s' :
  c s = (OutOfFuel, s') → (c ≫= k) s = (OutOfFuel, s').
Proof. intros H. unfold mbind, M_bind. by rewrite H. Qed.

(** A bind that ends normally went through a normal end of its first part. *)
Lemma bind_ok_inv {A B} (c : M A) (k : A → M B) s b s' :
  (c ≫= k) s = (Ok b, s') →
  ∃ a s1, c s = (Ok a, s1) ∧ k a s1 = (Ok b, s').
Proof.
  unfold mbind, M_bind. destruct (c s) as [[a| e |] s1]; intros H;
    [eauto | discriminate | discriminate].
Qed.

Lemma for_each_app {A} (l1 l2 : list A) (body : A → M unit) s :
  for_each (l1 ++ l2) body s = (for_each l1 body ;; for_each l2 body) s.
Proof.
  revert s. induction l1 as [|x l1 IH]; intros s; simpl.
  - reflexivity.
  - unfold mbind, M_bind. destruct (body x s) as [[[]| e |] s1]; try reflexivity.
    apply IH.
Qed.

(** A property of the state that every iteration keeps is kept by the loop,
    however the loop ends. *)
Lemma for_each_preserves {A} (P : Session → Prop) (l : list A)
    (body : A → M unit) :
  (∀ x s r s', P s → body x s = (r, s') → P s') →
  ∀ s r s', P s → for_each l body s = (r, s') → P s'.
Proof.
  intros Hbody. induction l as [|x l IH]; intros s r s' HP; simpl.
  - intros [= <- <-]. exact HP.
  - unfold mbind, M_bind. destruct (body x s) as [[[]| e |] s1] eqn:E.
    + apply IH. eapply Hbody; eauto.
    + intros [= <- <-]. eapply Hbody; eauto.
    + intros [= <- <-]. eapply Hbody; eauto.
Qed.


(** ** Client actions on an unknown uid or an unknown action *)

Section Actions.
Variable m : Model.



(** C3, as the code has it.  A message whose [act] is a string that names
    none of the [act_*] methods ends with the [AttributeError] of [getattr],
    which leaves [message] as an exception; nothing is printed and the state
    is untouched. *)
Theorem unknown_action_raises (kv : list (string * json)) (action : string)
    (s : Session) :
  dict_of kv !! "act" = Some (JStr action) →
  action ∉ known_actions →
  message m (JObj kv) s = (Raise AttributeError, s).
Proof.
  intros Hact Hunknown. unfold message. rewrite Hact. unfold dispatch.
  repeat case_decide; try reflexivity; subst action;
    exfalso; apply Hunknown; unfold known_actions; set_solver.
Qed.

End Actions.


Lemma unknown_action_raises_witness :
  message Demo.nested (JObj [("act", JStr "explode"); ("uid", JStr "A")])
    Demo.after_first_tick
  = (Raise AttributeError, Demo.after_first_tick).
Proof.
  apply (unknown_action_raises Demo.nested _ "explode").
  - reflexivity.
  - unfold known_actions. intros H.
    repeat (apply elem_of_cons in H as [H|H]; [discriminate H|]).
    by apply elem_of_nil in H.
Defined.


(** C3 as the spec states it fails: on an unknown action [message] does not
    return, and nothing is logged. *)
Lemma unknown_action_not_dropped :
  let r := message Demo.nested
             (JObj [("act", JStr "explode"); ("uid", JStr "A")])
             Demo.after_first_tick in
  r.1 = Raise AttributeError ∧ r.1 ≠ Ok tt
  ∧ stdout r.2 = stdout Demo.after_first_tick.
Proof. vm_compute. repeat split. discriminate. Qed.

(** ** Ancestor chains *)

Section Chains.
Variable m : Model.

Lemma drain_S_cons (k : nat) s n rest :
  networks_to_search s = n :: rest →
  drain m (S k) s = drain m k (search_network m n rest s).
Proof. intros H. simpl. by rewrite H. Qed.

Lemma drain_empty (k : nat) s : networks_to_search s = [] → drain m k s = s.
Proof. intros H. destruct k; simpl; [done | by rewrite H]. Qed.

(** The first loop stops with [IndexError] when it has emptied the queue
    after [k] iterations without meeting [uid]. *)
Lemma index_until_exhausted (k : nat) : ∀ (fuel : nat) uid s,
  (∀ j : nat, (j ≤ k)%nat → parents (drain m j s) !! uid = None) →
  networks_to_search (drain m k s) = [] →
  (k < fuel)%nat →
  index_until m fuel uid s = (Raise IndexError, drain m k s).
Proof.
  induction k as [|k IH]; intros fuel uid s Hnot Hempty Hfuel.
  - destruct fuel as [|fuel]; [lia|].
    pose proof (Hnot 0%nat ltac:(lia)) as H0. simpl in *.
    by rewrite H0, Hempty.
  - destruct fuel as [|fuel]; [lia|].
    pose proof (Hnot 0%nat ltac:(lia)) as H0. simpl in H0.
    simpl index_until. rewrite H0.
    destruct (networks_to_search s) as [|n rest] eqn:Eq.
    + by rewrite drain_empty.
    + rewrite (drain_S_cons _ _ _ _ Eq) in *. apply IH; [|done|lia].
      intros j Hj. specialize (Hnot (S j) ltac:(lia)).
      by rewrite (drain_S_cons _ _ _ _ Eq) in Hnot.
Qed.

(** C2, as the code has it.  When the queue runs empty, after any number [k]
    of iterations, without [uid] having become a key of [parents], the
    resolution does not return a chain: [pop(0)] on the empty queue raises
    [IndexError], which leaves [get_parents]; what was indexed on the way
    stays indexed. *)
Theorem get_parents_exhausted (k fuel : nat) (uid : string) (s : Session) :
  (∀ j : nat, (j ≤ k)%nat → parents (drain m j s) !! uid = None) →
  networks_to_search (drain m k s) = [] →
  (k < fuel)%nat →
  get_parents m fuel uid s = (Raise IndexError, drain m k s).
Proof.
  intros Hnot Hempty Hfuel. unfold get_parents.
  eapply bind_raise, index_until_exhausted; eauto.
Qed.

Lemma index_until_ok (fuel : nat) : ∀ uid s s',
  index_until m fuel uid s = (Ok tt, s') → is_Some (parents s' !! uid).
Proof.
  induction fuel as [|fuel IH]; intros uid s s'; simpl;
    destruct (parents s !! uid) eqn:E.
  - intros [= <-]. by rewrite E.
  - discriminate.
  - intros [= <-]. by rewrite E.
  - destruct (networks_to_search s); [discriminate|]. apply IH.
Qed.

Lemma last_cons_default {A} (x : A) (l : list A) (d d' : A) :
  List.last (x :: l) d = List.last (x :: l) d'.
Proof.
  revert x. induction l as [|y l IH]; intros x; [done|].
  change (List.last (y :: l) d = List.last (y :: l) d'). apply IH.
Qed.

Lemma removelast_cons_snoc {A} (x : A) (l : list A) (y : A) :
  removelast (x :: l ++ [y]) = x :: l.
Proof. rewrite app_comm_cons. apply removelast_last. Qed.

(** A walk that ends stops at a uid that has no parent. *)
Lemma walk_parents_ok (fuel : nat) : ∀ p last l,
  walk_parents fuel p last = Ok l →
  p !! List.last l last = None.
Proof.
  induction fuel as [|fuel IH]; intros p last l; simpl;
    destruct (p !! last) as [up|] eqn:E; try discriminate.
  - by intros [= <-].
  - destruct (walk_parents fuel p up) as [l'| |] eqn:W; try discriminate.
    intros [= <-]. apply IH in W. destruct l' as [|x l']; [done|].
    change (p !! List.last (x :: l') last = None).
    by rewrite (last_cons_default _ _ _ up).
  - by intros [= <-].
Qed.

(** A chain that [get_parents] returns starts with the queried uid, has at
    least one more element, and ends with a uid that has no parent. *)
Lemma get_parents_ok (fuel : nat) uid s chain s' :
  get_parents m fuel uid s = (Ok chain, s') →
  ∃ mid top, chain = uid :: mid ++ [top] ∧ parents s' !! top = None.
Proof.
  unfold get_parents. intros H.
  apply bind_ok_inv in H as ([] & s1 & Hidx & H).
  apply index_until_ok in Hidx as [up Hup].
  unfold_monad.
  destruct (walk_parents fuel (parents s1) uid) as [l| |] eqn:W;
    try discriminate.
  injection H as <- <-. pose proof (walk_parents_ok _ _ _ _ W) as Htop.
  destruct l as [|x l] using rev_ind.
  - simpl in Htop. congruence.
  - exists l, x. split; [done|]. by rewrite List.last_last in Htop.
Qed.

(** In any state, a connection message that [create_connection] writes
    carries, for each endpoint, the chain [get_parents] returned for the
    endpoint's uid without its last element.  That chain starts with the
    endpoint's own uid, which is therefore the first element of the emitted
    chain; the element dropped is the outermost one, a uid with no parent
    in the index. *)
Lemma create_connection_chains (fuel i : nat)
    (parent : option string) (s s' : Session) :
  create_connection m fuel i parent s = (Ok tt, s') →
  ∃ pre_mid pre_top post_mid post_top s0 s1 s2,
    register (conn_uid i) (conn i) s = (Ok tt, s0)
    ∧ get_parents m fuel (get_uid m (pre_obj m i)) s0
      = (Ok (get_uid m (pre_obj m i) :: pre_mid ++ [pre_top]), s1)
    ∧ parents s1 !! pre_top = None
    ∧ get_parents m fuel (get_uid m (post_obj m i)) s1
      = (Ok (get_uid m (post_obj m i) :: post_mid ++ [post_top]), s2)
    ∧ parents s2 !! post_top = None
    ∧ client s' = (client s2 ++ [CreateConnection
        {| c_uid := conn_uid i;
           c_pre := get_uid m (pre_obj m i) :: pre_mid;
           c_post := get_uid m (post_obj m i) :: post_mid;
           c_parent := parent |}])%list.
Proof.
  unfold create_connection. intros H.
  apply bind_ok_inv in H as ([] & s0 & Hreg & H).
  apply bind_ok_inv in H as (pres & s1 & Hpre & H).
  apply bind_ok_inv in H as (posts & s2 & Hpost & H).
  destruct (get_parents_ok _ _ _ _ _ Hpre) as (pre_mid & pre_top & -> & Hpt).
  destruct (get_parents_ok _ _ _ _ _ Hpost) as (post_mid & post_top & -> & Hqt).
  exists pre_mid, pre_top, post_mid, post_top, s0, s1, s2.
  repeat (split; [assumption|]).
  rewrite !removelast_cons_snoc in H.
  unfold write in H. unfold_monad. by injection H as <-.
Qed.

End Chains.

Lemma get_parents_exhausted_witness :
  get_parents Demo.nested 8 "ghost" (init Demo.nested ∅ ∅)
  = (Raise IndexError, drain Demo.nested 3 (init Demo.nested ∅ ∅)).
Proof.
  apply (get_parents_exhausted Demo.nested 3 8 "ghost").
  - intros j Hj.
    destruct j as [|[|[|[|j]]]]; [reflexivity ..|lia].
  - reflexivity.
  - lia.
Defined.

(** C2 as the spec states it fails: the root's own uid is never indexed, and
    asking for its chain once the queue is empty returns no chain at all. *)
Lemma exhausted_queue_is_an_error :
  let r := get_parents Demo.nested 8 "model" Demo.after_first_tick in
  networks_to_search Demo.after_first_tick = []
  ∧ r.1 = Raise IndexError
  ∧ ∀ chain, r.1 ≠ Ok chain.
Proof. vm_compute. repeat split. discriminate. Qed.

(** C1 as the spec states it fails: the chain sent for the connection from
    E3 (inside B inside A) starts with E3's own uid; the full chain ends with
    the root's uid, and that is the element left out. *)
Lemma emitted_chain_contains_endpoint :
  client Demo.after_first_tick !! 3%nat
  = Some (CreateConnection
      {| c_uid := "conn_7"; c_pre := ["E3"; "B"; "A"]; c_post := ["N"];
         c_parent := None |})
  ∧ get_uid Demo.nested (pre_obj Demo.nested 7) = "E3"
  ∧ (get_parents Demo.nested 8 "E3" Demo.after_first_tick).1
    = Ok ["E3"; "B"; "A"; "model"].
Proof. repeat split; reflexivity. Qed.

(** ** Expansion *)

Lemma entry_insert_eq (c : gmap obj LayoutEntry) o e :
  entry (<[o := e]> c) o = e.
Proof. unfold entry. by rewrite lookup_insert_eq. Qed.

Lemma entry_insert_ne (c : gmap obj LayoutEntry) o o' e :
  o ≠ o' → entry (<[o := e]> c) o' = entry c o'.
Proof. intros H. unfold entry. by rewrite lookup_insert_ne. Qed.

Section Expansion.
Variable m : Model.

(** [create_object] on an ensemble, a node or a network always returns; it
    fills in what is unset and leaves what is set. *)
Lemma create_object_ok (o : obj) (type : string) (parent : option string)
    (s : Session) :
  cls o ≠ Connection →
  (type = "net" → cls o = Network) →
  ∃ s', create_object m o type parent s = (Ok tt, s')
    ∧ config s' =
        match pos (entry (config s) o), size (entry (config s) o) with
        | Some _, Some _ => config s
        | _, _ => <[o := {| pos := Some (placed m o s);
                            size := Some (sized o s);
                            expanded := expanded (entry (config s) o) |}]>
                    (config s)
        end
    ∧ draws s' = match pos (entry (config s) o) with
                 | Some _ => draws s
                 | None => S (S (draws s))
                 end
    ∧ uids s' = <[get_uid m o := o]> (uids s)
    ∧ client s' = (client s ++ [CreateObject
        {| o_uid := get_uid m o; o_label := get_label m o;
           o_pos := placed m o s; o_type := type; o_size := sized o s;
           o_parent := parent;
           o_expanded := if decide (type = "net")
                         then Some (expanded (entry (config s) o))
                         else None |}])%list
    ∧ to_be_expanded s' = to_be_expanded s
    ∧ parents s' = parents s
    ∧ networks_to_search s' = networks_to_search s
    ∧ searched s' = searched s
    ∧ disk s' = disk s
    ∧ stdout s' = stdout s.
Proof.
  intros Hcls Hnet. unfold create_object, placed, sized.
  destruct o as [k i]. simpl in *.
  assert (Hread : (if decide (type = "net")
                   then Some <$> read_expanded (Obj k i)
                   else mret None)
                  = λ s0 : Session,
                      (Ok (if decide (type = "net")
                           then Some (expanded (entry (config s0) (Obj k i)))
                           else None), s0)).
  { destruct (decide (type = "net")) as [Ht|Ht]; [|reflexivity].
    rewrite (Hnet Ht). reflexivity. }
  rewrite Hread. clear Hread.
  unfold read_pos, read_size, assign_pos, assign_size,
    config_item, update_entry, next_random, register, write.
  destruct k; try congruence; unfold_monad; simpl;
    (destruct (pos (entry (config s) _)) eqn:Ep;
     destruct (size (entry (config s) _)) eqn:Ez; simpl;
     rewrite ?entry_insert_eq; simpl; rewrite ?Ep, ?Ez; simpl;
     rewrite ?entry_insert_eq, ?insert_insert_eq; simpl;
     eexists; (split; [reflexivity|]); simpl; repeat split;
     unfold set_pos, set_size; simpl; rewrite ?Ep, ?Ez; reflexivity).
Qed.

(** Whatever [create_object] does, it never unsets a position or a size. *)
Lemma create_object_laid_out (o o' : obj) type parent s s' :
  cls o ≠ Connection → (type = "net" → cls o = Network) →
  create_object m o type parent s = (Ok tt, s') →
  laid_out o s' ∧ (laid_out o' s → laid_out o' s').
Proof.
  intros Hcls Hnet Hrun.
  destruct (create_object_ok o type parent s Hcls Hnet)
    as (s1 & Hrun' & Hcfg & _).
  rewrite Hrun in Hrun'. injection Hrun' as <-.
  unfold laid_out. rewrite Hcfg.
  destruct (pos (entry (config s) o)) as [p|] eqn:Ep;
    destruct (size (entry (config s) o)) as [z|] eqn:Ez;
    (split; [rewrite ?entry_insert_eq, ?Ep, ?Ez; simpl; eauto|]);
    try done;
    (destruct (decide (o = o')) as [<-|Hne];
      [rewrite entry_insert_eq; simpl; eauto
      |rewrite entry_insert_ne by done; done]).
Qed.

Lemma create_object_expanded (o o' : obj) type parent s s' :
  cls o ≠ Connection → (type = "net" → cls o = Network) →
  create_object m o type parent s = (Ok tt, s') →
  expanded (entry (config s') o') = expanded (entry (config s) o').
Proof.
  intros Hcls Hnet Hrun.
  destruct (create_object_ok o type parent s Hcls Hnet)
    as (s1 & Hrun' & Hcfg & _).
  rewrite Hrun in Hrun'. injection Hrun' as <-. rewrite Hcfg.
  destruct (pos (entry (config s) o)), (size (entry (config s) o));
    try done;
    (destruct (decide (o = o')) as [<-|Hne];
       [by rewrite entry_insert_eq | by rewrite entry_insert_ne]).
Qed.

Lemma create_object_again (o : obj) type parent s s' :
  cls o ≠ Connection → (type = "net" → cls o = Network) →
  laid_out o s →
  create_object m o type parent s = (Ok tt, s') →
  config s' = config s ∧ draws s' = draws s.
Proof.
  intros Hcls Hnet [[p Hp] [z Hz]] Hrun.
  destruct (create_object_ok o type parent s Hcls Hnet)
    as (s1 & Hrun' & Hcfg & Hdraws & _).
  rewrite Hrun in Hrun'. injection Hrun' as <-.
  by rewrite Hcfg, Hdraws, Hp, Hz.
Qed.

(** One of the three object loops of [expand_network]: it always runs to its
    end, announces every object of the list, lays each of them out, and
    touches neither the expanded flags nor anything outside the store, the
    registry and the client. *)
Lemma object_loop (mk : nat → obj) (type : string) (parent : option string)
    (l : list nat) :
  (∀ i, cls (mk i) ≠ Connection) →
  (type = "net" → ∀ i, cls (mk i) = Network) →
  ∀ s, ∃ s' new,
    for_each l (λ i, create_object m (mk i) type parent) s = (Ok tt, s')
    ∧ client s' = (client s ++ new)%list
    ∧ (∀ i, i ∈ l → announces new (get_uid m (mk i)) type parent)
    ∧ (∀ i, i ∈ l → laid_out (mk i) s')
    ∧ (∀ o, laid_out o s → laid_out o s')
    ∧ (∀ o, expanded (entry (config s') o) = expanded (entry (config s) o))
    ∧ ((∀ i, i ∈ l → laid_out (mk i) s) →
       config s' = config s ∧ draws s' = draws s)
    ∧ disk s' = disk s
    ∧ to_be_expanded s' = to_be_expanded s
    ∧ parents s' = parents s
    ∧ networks_to_search s' = networks_to_search s
    ∧ searched s' = searched s
    ∧ stdout s' = stdout s.
Proof.
  intros Hcls Hnet. induction l as [|i l IH]; intros s.
  - exists s, []. simpl. rewrite app_nil_r.
    split; [done|]. split; [done|].
    split; [intros j Hj; by apply elem_of_nil in Hj|].
    split; [intros j Hj; by apply elem_of_nil in Hj|].
    split; [done|]. split; [done|]. split; [done|]. by repeat split.
  - assert (Hnet' : type = "net" → cls (mk i) = Network) by auto.
    destruct (create_object_ok (mk i) type parent s (Hcls i) Hnet')
      as (s1 & Hrun & _ & _ & _ & Hcl & Hq & Hp & Hn & Hs & Hd & Ho).
    destruct (IH s1) as (s' & new & Hrest & Hcl' & Hann & Hlaid & Hmono
                         & Hexp & Hsame & Hd' & Hq' & Hp' & Hn' & Hs' & Ho').
    pose proof (λ o', create_object_laid_out (mk i) o' type parent s s1
                  (Hcls i) Hnet' Hrun) as Hlo.
    eexists s', (_ :: new). simpl for_each.
    rewrite (bind_ok _ _ _ _ _ Hrun).
    split; [exact Hrest|]. split; [by rewrite Hcl', Hcl, <- app_assoc|].
    split.
    { intros j [->|Hj]%elem_of_cons.
      - eexists. split; [apply list_elem_of_here|done].
      - destruct (Hann j Hj) as (info & Hin & Hinfo).
        exists info. split; [by apply list_elem_of_further|done]. }
    split.
    { intros j [->|Hj]%elem_of_cons; [|by auto].
      destruct (Hlo (mk i)) as [H1 _]. exact (Hmono _ H1). }
    split; [intros o Ho1; destruct (Hlo o) as [_ H2]; auto|].
    split.
    { intros o. rewrite Hexp.
      by apply (create_object_expanded (mk i) o type parent s s1). }
    split.
    { intros Hall.
      destruct (create_object_again (mk i) type parent s s1 (Hcls i) Hnet'
                  (Hall i (list_elem_of_here _ _)) Hrun) as [Hc1 Hd1].
      destruct Hsame as [Hc2 Hd2].
      - intros j Hj. unfold laid_out. rewrite Hc1.
        apply Hall. by apply list_elem_of_further.
      - split; congruence. }
    repeat split; congruence.
Qed.

(** The three object loops of [expand_network] taken together: they always
    run to their end. *)
Lemma expand_network_objects (fuel n : nat) (s : Session) :
  ∃ s' new,
    expand_network m fuel (net n) s
    = (for_each (connections m n)
         (λ i, create_connection m fuel i (parent_field m (net n))) ;;
       assign_expanded (net n) true) s'
    ∧ client s' = (client s ++ new)%list
    ∧ (∀ o, o ∈ children m n →
         announces new (get_uid m o) (type_of o) (parent_field m (net n)))
    ∧ (∀ o, o ∈ children m n → laid_out o s')
    ∧ (∀ o, laid_out o s → laid_out o s')
    ∧ (∀ o, expanded (entry (config s') o) = expanded (entry (config s) o))
    ∧ ((∀ o, o ∈ children m n → laid_out o s) →
       config s' = config s ∧ draws s' = draws s)
    ∧ disk s' = disk s
    ∧ to_be_expanded s' = to_be_expanded s
    ∧ parents s' = parents s
    ∧ networks_to_search s' = networks_to_search s
    ∧ searched s' = searched s
    ∧ stdout s' = stdout s.
Proof.
  unfold expand_network, children. fold (parent_field m (net n)).
  set (parent := parent_field m (net n)). simpl.
  destruct (object_loop ens "ens" parent (ensembles m n)
              ltac:(done) ltac:(done) s)
    as (s1 & new1 & R1 & C1 & A1 & L1 & M1 & E1 & S1 & D1 & Q1 & P1 & N1
        & H1 & O1).
  destruct (object_loop node "node" parent (nodes m n)
              ltac:(done) ltac:(done) s1)
    as (s2 & new2 & R2 & C2 & A2 & L2 & M2 & E2 & S2 & D2 & Q2 & P2 & N2
        & H2 & O2).
  destruct (object_loop net "net" parent (networks m n)
              ltac:(done) ltac:(done) s2)
    as (s3 & new3 & R3 & C3 & A3 & L3 & M3 & E3 & S3 & D3 & Q3 & P3 & N3
        & H3 & O3).
  exists s3, (new1 ++ new2 ++ new3)%list.
  split.
  { rewrite (bind_ok _ _ _ _ _ R1), (bind_ok _ _ _ _ _ R2).
    by rewrite (bind_ok _ _ _ _ _ R3). }
  split; [by rewrite C3, C2, C1, <- !app_assoc|].
  assert (Hann : ∀ (new new' : list message_out) u t p,
            announces new u t p ∨ announces new' u t p →
            announces (new ++ new') u t p).
  { intros ????? [(info & Hin & ?)|(info & Hin & ?)]; exists info;
      (split; [apply elem_of_app; auto|done]). }
  split.
  { intros o [(i & -> & Hi)%list_elem_of_fmap
             |[(i & -> & Hi)%list_elem_of_fmap
              |(i & -> & Hi)%list_elem_of_fmap]%elem_of_app]%elem_of_app.
    - apply Hann. left. by apply A1.
    - apply Hann. right. apply Hann. left. by apply A2.
    - apply Hann. right. apply Hann. right. by apply A3. }
  split.
  { intros o [(i & -> & Hi)%list_elem_of_fmap
             |[(i & -> & Hi)%list_elem_of_fmap
              |(i & -> & Hi)%list_elem_of_fmap]%elem_of_app]%elem_of_app;
      auto. }
  split; [auto|].
  split; [intros o; by rewrite E3, E2, E1|].
  split.
  { intros Hall.
    destruct S1 as [Hc1 Hd1].
    { intros i Hi. apply Hall, elem_of_app. left.
      apply list_elem_of_fmap. eauto. }
    destruct S2 as [Hc2 Hd2].
    { intros i Hi. apply M1, Hall, elem_of_app. right. apply elem_of_app.
      left. apply list_elem_of_fmap. eauto. }
    destruct S3 as [Hc3 Hd3].
    { intros i Hi. apply M2, M1, Hall, elem_of_app. right. apply elem_of_app.
      right. apply list_elem_of_fmap. eauto. }
    split; congruence. }
  repeat split; congruence.
Qed.

Lemma update_client_cons (fuel : nat) (s : Session) network rest :
  to_be_expanded s = network :: rest →
  update_client m fuel s
  = (expand_network m fuel network ;;
     if decide (network = net (model m)) then send_pan_and_zoom m
     else mret tt) (with_to_be_expanded rest s).
Proof.
  intros H. unfold update_client. unfold_monad. by rewrite H.
Qed.

Lemma entry_empty (o : obj) : entry ∅ o = default_entry.
Proof. unfold entry. by rewrite lookup_empty. Qed.

(** C9.  A root that holds exactly one ensemble E and one node N, no layout
    entry yet, a generator that draws from [[0,1)]: the first tick returns
    and writes exactly four messages, the creation of E, the creation of N,
    the pan [(0,0)] and the zoom [1.0]; E and N carry size [(0.1,0.1)] and
    positions inside the unit square. *)
Theorem first_expansion_two_leaves (E N fuel : nat)
    (d : gmap string (list cfg_line)) :
  ensembles m (model m) = [E] →
  nodes m (model m) = [N] →
  networks m (model m) = [] →
  connections m (model m) = [] →
  (∀ i, (0 <= random m i ∧ random m i < 1)%Q) →
  ∃ pe pn s',
    update_client m fuel (init m ∅ d) = (Ok tt, s')
    ∧ client s' =
        [CreateObject
           {| o_uid := get_uid m (ens E); o_label := get_label m (ens E);
              o_pos := pe; o_type := "ens";
              o_size := (JNum (1 # 10), JNum (1 # 10));
              o_parent := None; o_expanded := None |};
         CreateObject
           {| o_uid := get_uid m (node N); o_label := get_label m (node N);
              o_pos := pn; o_type := "node";
              o_size := (JNum (1 # 10), JNum (1 # 10));
              o_parent := None; o_expanded := None |};
         Pan (JNum 0, JNum 0);
         Zoom (JNum 1)]
    ∧ in_unit_square pe ∧ in_unit_square pn.
Proof.
  intros HE HN Hnets Hconns Hrand.
  exists (JNum (uniform 0 1 (random m 0)), JNum (uniform 0 1 (random m 1))),
         (JNum (uniform 0 1 (random m 2)), JNum (uniform 0 1 (random m 3))).
  assert (Hsq : ∀ i j, in_unit_square
            (JNum (uniform 0 1 (random m i)), JNum (uniform 0 1 (random m j)))).
  { intros i j. unfold in_unit_square, uniform.
    destruct (Hrand i), (Hrand j). repeat split; lra. }
  rewrite (update_client_cons fuel _ (net (model m)) []) by reflexivity.
  set (s0 := with_to_be_expanded [] (init m ∅ d)).
  destruct (create_object_ok (ens E) "ens" None s0 ltac:(done) ltac:(done))
    as (s1 & R1 & C1 & D1 & _ & W1 & _).
  unfold placed, sized in C1, W1. simpl in C1, D1, W1.
  rewrite entry_empty in C1, D1, W1. simpl in C1, D1, W1.
  destruct (create_object_ok (node N) "node" None s1 ltac:(done) ltac:(done))
    as (s2 & R2 & C2 & D2 & _ & W2 & _).
  unfold placed, sized in C2, W2. rewrite C1, D1 in C2, W2.
  rewrite entry_insert_ne, entry_empty in C2, W2 by done.
  simpl in C2, W2. rewrite W1 in W2. simpl in W2.
  assert (Hexp : expand_network m fuel (net (model m)) s0
                 = (Ok tt, with_config
                      (<[net (model m) := set_expanded true default_entry]>
                         (config s2)) s2)).
  { unfold expand_network. simpl. rewrite HE, HN, Hnets, Hconns.
    rewrite decide_True by done. simpl for_each.
    rewrite (bind_ok _ _ _ _ _ (bind_ok _ _ _ _ _ R1)).
    rewrite (bind_ok _ _ _ _ _ (bind_ok _ _ _ _ _ R2)).
    unfold assign_expanded, config_item, update_entry. unfold_monad. simpl.
    by rewrite C2, !entry_insert_ne, entry_empty. }
  rewrite (bind_ok _ _ _ _ _ Hexp), decide_True by done.
  unfold send_pan_and_zoom, read_pos, read_size, config_item, write.
  unfold_monad. simpl. rewrite entry_insert_eq. simpl.
  eexists. split; [reflexivity|]. simpl. rewrite W2.
  split; [reflexivity|]. split; apply Hsq.
Qed.

(** *** The connection loop *)

Lemma same_layout_refl s : same_layout s s.
Proof. by repeat split. Qed.

Lemma same_layout_trans s1 s2 s3 :
  same_layout s1 s2 → same_layout s2 s3 → same_layout s1 s3.
Proof.
  intros (?&?&?&?&?) (?&?&?&?&?). repeat split; congruence.
Qed.

Lemma index_until_frame (fuel : nat) : ∀ uid s r s',
  index_until m fuel uid s = (r, s') →
  same_layout s s' ∧ uids s' = uids s ∧ client s' = client s.
Proof.
  induction fuel as [|fuel IH]; intros uid s r s'; simpl;
    destruct (parents s !! uid).
  - intros [= <- <-]. split; [apply same_layout_refl|done].
  - intros [= <- <-]. split; [apply same_layout_refl|done].
  - intros [= <- <-]. split; [apply same_layout_refl|done].
  - destruct (networks_to_search s) as [|n rest].
    + intros [= <- <-]. split; [apply same_layout_refl|done].
    + intros H. apply IH in H as (Hl & Hu & Hc).
      split; [|done]. eapply same_layout_trans; [|exact Hl]. by repeat split.
Qed.

Lemma get_parents_frame (fuel : nat) uid s r s' :
  get_parents m fuel uid s = (r, s') →
  same_layout s s' ∧ uids s' = uids s ∧ client s' = client s.
Proof.
  unfold get_parents. unfold mbind at 1, M_bind at 1.
  destruct (index_until m fuel uid s) as [[[]| e |] s1] eqn:E;
    pose proof (index_until_frame _ _ _ _ _ E) as Hf.
  - unfold_monad.
    destruct (walk_parents fuel (parents s1) uid); by intros [= <- <-].
  - by intros [= <- <-].
  - by intros [= <- <-].
Qed.

Lemma create_connection_frame (fuel i : nat) parent s r s' :
  create_connection m fuel i parent s = (r, s') →
  same_layout s s' ∧ ∃ new, client s' = (client s ++ new)%list.
Proof.
  unfold create_connection. unfold mbind at 1, M_bind at 1.
  unfold register at 1. unfold modify at 1. cbv beta iota.
  set (s0 := with_uids _ s).
  assert (H0 : same_layout s s0 ∧ client s0 = client s) by by repeat split.
  destruct H0 as [H0 C0]. rewrite <- C0. clearbody s0.
  unfold mbind at 1, M_bind at 1.
  destruct (get_parents m fuel _ s0) as [[pres| e |] s1] eqn:E1;
    pose proof (get_parents_frame _ _ _ _ _ E1) as (H1 & _ & C1).
  2,3: intros [= <- <-]; split;
       [by eapply same_layout_trans|exists []; by rewrite C1, app_nil_r].
  unfold mbind at 1, M_bind at 1.
  destruct (get_parents m fuel _ s1) as [[posts| e |] s2] eqn:E2;
    pose proof (get_parents_frame _ _ _ _ _ E2) as (H2 & _ & C2).
  2,3: intros [= <- <-]; split;
       [eapply same_layout_trans; [|exact H2]; by eapply same_layout_trans
       |exists []; by rewrite C2, C1, app_nil_r].
  unfold write. unfold_monad. intros [= <- <-]. split.
  - eapply same_layout_trans; [|by repeat split].
    eapply same_layout_trans; [|exact H2]. by eapply same_layout_trans.
  - eexists. simpl. by rewrite C2, C1.
Qed.

Lemma connection_loop_frame (fuel : nat) parent (l : list nat) s r s' :
  for_each l (λ i, create_connection m fuel i parent) s = (r, s') →
  same_layout s s' ∧ ∃ new, client s' = (client s ++ new)%list.
Proof.
  apply (for_each_preserves
           (λ s', same_layout s s' ∧ ∃ new, client s' = (client s ++ new)%list)).
  - intros i s1 r1 s2 [Hl [new Hc]] Hrun.
    apply create_connection_frame in Hrun as [Hl' [new' Hc']].
    split; [by eapply same_layout_trans|].
    exists (new ++ new')%list. by rewrite Hc', Hc, app_assoc.
  - split; [apply same_layout_refl|]. exists []. by rewrite app_nil_r.
Qed.

(** How a call of [expand_network] on a network ends: the object loops run
    to [s1], the connection loop to [s2], and either the connection loop
    ended normally and the flag is set, or the call ends as the connection
    loop did. *)
Lemma expand_network_result (fuel n : nat) s r s' :
  expand_network m fuel (net n) s = (r, s') →
  ∃ s1 s2 new1 new2,
    client s1 = (client s ++ new1)%list
    ∧ (∀ o, o ∈ children m n →
         announces new1 (get_uid m o) (type_of o) (parent_field m (net n)))
    ∧ (∀ o, o ∈ children m n → laid_out o s1)
    ∧ (∀ o, laid_out o s → laid_out o s1)
    ∧ (∀ o, expanded (entry (config s1) o) = expanded (entry (config s) o))
    ∧ ((∀ o, o ∈ children m n → laid_out o s) →
       config s1 = config s ∧ draws s1 = draws s)
    ∧ disk s1 = disk s ∧ to_be_expanded s1 = to_be_expanded s
    ∧ stdout s1 = stdout s
    ∧ same_layout s1 s2
    ∧ client s2 = (client s1 ++ new2)%list
    ∧ ((r = Ok tt
        ∧ s' = with_config
                 (<[net n := set_expanded true (entry (config s2) (net n))]>
                    (config s2)) s2)
       ∨ (r ≠ Ok tt ∧ s' = s2)).
Proof.
  destruct (expand_network_objects fuel n s)
    as (s1 & new1 & -> & C1 & A1 & L1 & M1 & E1 & S1 & D1 & Q1 & _ & _ & _
        & O1).
  unfold mbind, M_bind.
  destruct (for_each _ _ s1) as [[[]| e |] s2] eqn:E;
    pose proof (connection_loop_frame _ _ _ _ _ _ E) as [Hl [new2 C2]];
    intros Hr; exists s1, s2, new1, new2;
    (do 11 (split; [assumption|])).
  - left. unfold assign_expanded, config_item, update_entry in Hr.
    unfold_monad. simpl in Hr. by injection Hr as <- <-.
  - right. by injection Hr as <- <-.
  - right. by injection Hr as <- <-.
Qed.

Lemma send_pan_and_zoom_ok (s : Session) :
  ∃ p z, send_pan_and_zoom m s
         = (Ok tt, with_client (client s ++ [Pan p; Zoom z]) s).
Proof.
  unfold send_pan_and_zoom, read_pos, read_size, config_item, write.
  unfold_monad. simpl. do 2 eexists. unfold with_client. simpl.
  by rewrite <- app_assoc.
Qed.

End Expansion.

Lemma first_expansion_two_leaves_witness :
  ∃ pe pn s',
    update_client Demo.two_leaves 8 (init Demo.two_leaves ∅ ∅) = (Ok tt, s')
    ∧ client s' =
        [CreateObject
           {| o_uid := "E"; o_label := "E"; o_pos := pe; o_type := "ens";
              o_size := (JNum (1 # 10), JNum (1 # 10));
              o_parent := None; o_expanded := None |};
         CreateObject
           {| o_uid := "N"; o_label := "N"; o_pos := pn; o_type := "node";
              o_size := (JNum (1 # 10), JNum (1 # 10));
              o_parent := None; o_expanded := None |};
         Pan (JNum 0, JNum 0);
         Zoom (JNum 1)]
    ∧ in_unit_square pe ∧ in_unit_square pn.
Proof.
  apply (first_expansion_two_leaves Demo.two_leaves 1 2 8 ∅);
    try reflexivity.
  intros i. simpl. unfold Demo.draw.
  destruct (Nat.even i); split; vm_compute; congruence.
Defined.


(** ** The work queue of [get_parents] *)

Section Queue.
Variable m : Model.

Lemma searching_init (t : tree) c d :
  shaped m t → root_of t = model m → searching m t (init m c d).
Proof.
  intros Hshape Hroot. exists [t]. simpl. rewrite Hroot, app_nil_r.
  split; [done|]. split; [by constructor|done].
Qed.

(** One iteration replaces the tree at the head of the forest by its
    subtrees, at the back. *)
Lemma search_network_pending (pending : list tree) (s : Session) n rest :
  networks_to_search s = map root_of pending →
  Forall (shaped m) pending →
  networks_to_search s = n :: rest →
  ∃ kids pending',
    pending = T n kids :: pending'
    ∧ networks_to_search (search_network m n rest s)
      = map root_of (pending' ++ kids)
    ∧ Forall (shaped m) (pending' ++ kids)
    ∧ (searched (search_network m n rest s)
       ++ flat_map nets_of (pending' ++ kids))%list
      ≡ₚ (searched s ++ flat_map nets_of pending)%list.
Proof.
  intros Hq Hshape Hcons. rewrite Hcons in Hq.
  destruct pending as [|[r kids] pending']; [discriminate|].
  simpl in Hq. injection Hq as -> ->.
  apply Forall_cons in Hshape as [Hhead Htail].
  inversion Hhead as [r' kids' Hnets Hkids]; subst.
  exists kids, pending'. split; [done|]. simpl.
  split; [by rewrite Hnets, map_app|].
  split; [by apply Forall_app|].
  rewrite flat_map_app.
  rewrite <- (app_assoc (searched s) [r]). simpl.
  apply Permutation_app_head. constructor.
  apply Permutation_app_comm.
Qed.

Lemma search_network_searching (t : tree) (s : Session) n rest :
  searching m t s → networks_to_search s = n :: rest →
  searching m t (search_network m n rest s).
Proof.
  intros (pending & Hq & Hshape & Hperm) Hcons.
  destruct (search_network_pending pending s n rest Hq Hshape Hcons)
    as (kids & pending' & _ & Hq' & Hshape' & Hperm').
  exists (pending' ++ kids)%list. split; [done|]. split; [done|].
  by rewrite Hperm'.
Qed.

Lemma index_until_searching (t : tree) (fuel : nat) : ∀ uid s r s',
  searching m t s → index_until m fuel uid s = (r, s') → searching m t s'.
Proof.
  induction fuel as [|fuel IH]; intros uid s r s' Hs; simpl;
    destruct (parents s !! uid); try by intros [= <- <-].
  destruct (networks_to_search s) as [|n rest] eqn:Hq;
    [by intros [= <- <-]|].
  apply IH. by apply search_network_searching.
Qed.

Lemma get_parents_searching (t : tree) (fuel : nat) uid s r s' :
  searching m t s → get_parents m fuel uid s = (r, s') → searching m t s'.
Proof.
  intros Hs. unfold get_parents. unfold mbind at 1, M_bind at 1.
  destruct (index_until m fuel uid s) as [[[]| e |] s1] eqn:E;
    pose proof (index_until_searching t _ _ _ _ _ Hs E) as Hs1.
  - unfold_monad.
    destruct (walk_parents fuel (parents s1) uid); by intros [= <- <-].
  - by intros [= <- <-].
  - by intros [= <- <-].
Qed.

Lemma resolve_all_searching (t : tree) (fuel : nat) (queries : list string) :
  ∀ s, searching m t s → searching m t (resolve_all m fuel queries s).2.
Proof.
  induction queries as [|uid queries IH]; intros s Hs; simpl; [done|].
  destruct (get_parents m fuel uid s) as [r s1] eqn:E.
  specialize (IH s1 (get_parents_searching t _ _ _ _ _ Hs E)).
  by destruct (resolve_all m fuel queries s1).
Qed.

(** With more fuel than the forest has networks, the first loop ends. *)
Lemma index_until_ends (fuel : nat) : ∀ uid s (pending : list tree),
  networks_to_search s = map root_of pending →
  Forall (shaped m) pending →
  (length (flat_map nets_of pending) < fuel)%nat →
  (index_until m fuel uid s).1 ≠ OutOfFuel.
Proof.
  induction fuel as [|fuel IH]; intros uid s pending Hq Hshape Hfuel; [lia|].
  simpl. destruct (parents s !! uid); [done|].
  destruct (networks_to_search s) as [|n rest] eqn:Hcons; [done|].
  rewrite <- Hcons in Hq.
  destruct (search_network_pending pending s n rest Hq Hshape Hcons)
    as (kids & pending' & -> & Hq' & Hshape' & _).
  apply (IH uid _ (pending' ++ kids)%list Hq' Hshape').
  simpl in Hfuel. rewrite flat_map_app, !length_app in *. lia.
Qed.

(** C4, as the code has it.  On a hierarchy whose networks form a tree, each
    network listed once, whatever uids a session resolves and however each
    resolution ends: no network has been taken from the queue twice, every
    network taken is a network of the tree, and the first loop of any further
    resolution ends within as many iterations as the tree has networks. *)
Theorem tree_indexing_never_repeats (t : tree) (fuel : nat)
    (queries : list string) (c : gmap obj LayoutEntry)
    (d : gmap string (list cfg_line)) :
  shaped m t →
  root_of t = model m →
  NoDup (nets_of t) →
  let s' := (resolve_all m fuel queries (init m c d)).2 in
  NoDup (searched s')
  ∧ (∀ n, n ∈ searched s' → n ∈ nets_of t)
  ∧ (∀ uid fuel', (length (nets_of t) < fuel')%nat →
       (index_until m fuel' uid s').1 ≠ OutOfFuel).
Proof.
  intros Hshape Hroot Hnodup s'.
  destruct (resolve_all_searching t fuel queries _
              (searching_init t c d Hshape Hroot))
    as (pending & Hq & Hpending & Hperm).
  fold s' in Hq, Hperm.
  rewrite <- Hperm in Hnodup. split; [by apply NoDup_app in Hnodup as [? _]|].
  split.
  - intros n Hn. rewrite <- Hperm. apply elem_of_app. by left.
  - intros uid fuel' Hfuel. apply (index_until_ends fuel' uid s' pending Hq Hpending).
    apply Permutation_length in Hperm. rewrite length_app in Hperm. lia.
Qed.

End Queue.

Lemma tree_indexing_never_repeats_witness :
  let s' := (resolve_all Demo.nested 8 ["E3"; "ghost"; "N"]
               (init Demo.nested ∅ ∅)).2 in
  NoDup (searched s')
  ∧ (∀ n, n ∈ searched s' → n ∈ nets_of Demo.nested_tree)
  ∧ (∀ uid fuel', (length (nets_of Demo.nested_tree) < fuel')%nat →
       (index_until Demo.nested fuel' uid s').1 ≠ OutOfFuel).
Proof.
  apply (tree_indexing_never_repeats Demo.nested Demo.nested_tree 8
           ["E3"; "ghost"; "N"] ∅ ∅).
  - repeat (constructor; try reflexivity).
  - reflexivity.
  - apply (bool_decide_eq_true_1 _). vm_compute. reflexivity.
Defined.

(** C4 as the spec states it fails.  In the hierarchy [Demo.shared], where
    network B is listed by both A and C, the resolution of a uid that no
    network lists takes B from the queue twice; in [Demo.looping], where
    network A lists itself, the first loop of such a resolution never ends,
    whatever the fuel. *)
Lemma shared_or_looping_networks_repeat :
  searched (get_parents Demo.shared 8 "ghost" (init Demo.shared ∅ ∅)).2
  = [0; 3; 8; 5; 5]
  ∧ ∀ fuel, (get_parents Demo.looping fuel "ghost" (init Demo.looping ∅ ∅)).1
            = OutOfFuel.
Proof.
  split; [by vm_compute|].
  assert (Hloop : ∀ fuel s,
            networks_to_search s = [3] → parents s !! "ghost" = None →
            (index_until Demo.looping fuel "ghost" s).1 = OutOfFuel).
  { induction fuel as [|fuel IH]; intros s Hq Hp; simpl; rewrite Hp; [done|].
    rewrite Hq. apply IH; [reflexivity|]. simpl.
    unfold index_children. simpl. by rewrite lookup_insert_ne. }
  intros fuel. unfold get_parents. unfold mbind at 1, M_bind at 1.
  assert (H : (index_until Demo.looping fuel "ghost"
                 (init Demo.looping ∅ ∅)).1 = OutOfFuel).
  { destruct fuel as [|fuel]; [reflexivity|]. simpl.
    apply Hloop; [reflexivity|]. simpl. unfold index_children. simpl.
    by rewrite lookup_insert_ne. }
  destruct (index_until Demo.looping fuel "ghost" (init Demo.looping ∅ ∅))
    as [r s1]. simpl in H. by subst r.
Qed.

(** ** Resolution on a well-formed hierarchy *)

Section WellFormed.
Variable m : Model.
Variable t : tree.
Hypothesis Hwf : well_formed m t.

Lemma foldl_index_lookup (f : nat → obj) (v : string) (l : list nat) :
  ∀ (p : gmap string string) (u : string),
    foldl (λ p i, <[get_uid m (f i) := v]> p) p l !! u
    = if decide (u ∈ (λ i, get_uid m (f i)) <$> l) then Some v else p !! u.
Proof.
  induction l as [|i l IH]; intros p u.
  - simpl foldl. case_decide as H; [by apply elem_of_nil in H|done].
  - simpl foldl. rewrite IH. rewrite fmap_cons.
    destruct (decide (u = get_uid m (f i))) as [->|Hne].
    + rewrite lookup_insert_eq.
      rewrite (decide_True (P := _ ∈ _ :: _)) by apply list_elem_of_here.
      by case_decide.
    + rewrite lookup_insert_ne by done.
      destruct (decide (u ∈ (λ i, get_uid m (f i)) <$> l)) as [Hin|Hin].
      * rewrite decide_True; [done|]. by apply list_elem_of_further.
      * rewrite decide_False; [done|]. by intros [?|?]%elem_of_cons.
Qed.

Lemma index_children_lookup (n : nat) (p : gmap string string) (u : string) :
  index_children m n p !! u
  = if decide (u ∈ get_uid m <$> children m n)
    then Some (get_uid m (net n)) else p !! u.
Proof.
  unfold index_children, children. rewrite !foldl_index_lookup.
  rewrite !fmap_app, <- !list_fmap_compose.
  repeat case_decide; try done; exfalso;
    repeat match goal with
           | H : _ ∈ (_ ++ _)%list |- _ => apply elem_of_app in H as [H|H]
           | H : ¬ _ ∈ (_ ++ _)%list |- _ =>
               apply not_elem_of_app in H as [? ?]
           end; done.
Qed.

Lemma indexed_init c d : indexed m t (init m c d).
Proof.
  destruct Hwf as (Hshape & Hroot & _).
  exists [t]. unfold indexed_by. simpl. rewrite Hroot, app_nil_r.
  split; [done|]. split; [by constructor|]. split; [done|].
  split; [by intros n o ?%elem_of_nil|].
  split; [intros uid p Hp; by rewrite lookup_empty in Hp|].
  split; [by intros [] ??|].
  intros tr ->%list_elem_of_singleton. by left.
Qed.

(** The invariant looks at the parent index, the queue and the history
    only. *)
Lemma indexed_by_ext pending s s' :
  parents s' = parents s →
  networks_to_search s' = networks_to_search s →
  searched s' = searched s →
  indexed_by m t pending s → indexed_by m t pending s'.
Proof. unfold indexed_by. by intros -> -> ->. Qed.

Lemma indexed_ext s s' :
  parents s' = parents s →
  networks_to_search s' = networks_to_search s →
  searched s' = searched s →
  indexed m t s → indexed m t s'.
Proof. intros ??? [pending H]. exists pending. by eapply indexed_by_ext. Qed.

Lemma searched_in_tree pending s n :
  indexed_by m t pending s → n ∈ searched s → n ∈ nets_of t.
Proof.
  intros (_ & _ & Hperm & _) Hn. rewrite <- Hperm. apply elem_of_app. auto.
Qed.

(** One iteration of the first loop keeps the invariant, the head of the
    forest giving way to its subtrees. *)
Lemma search_network_indexed pending s n rest :
  indexed_by m t pending s →
  networks_to_search s = n :: rest →
  ∃ kids pending',
    pending = T n kids :: pending'
    ∧ indexed_by m t (pending' ++ kids) (search_network m n rest s).
Proof.
  intros (Hq & Hshape & Hperm & Hkeys & Hdom & Hord & Hpend) Hcons.
  destruct (search_network_pending m pending s n rest Hq Hshape Hcons)
    as (kids & pending' & -> & Hq' & Hshape' & Hperm').
  exists kids, pending'. split; [done|].
  assert (Hn : n ∈ nets_of t).
  { rewrite <- Hperm. apply elem_of_app. right. simpl. apply list_elem_of_here. }
  apply Forall_cons in Hshape as [Hhead _].
  inversion Hhead as [r' kids' Hnets Hkids]; subst.
  split; [exact Hq'|]. split; [exact Hshape'|].
  split; [by rewrite Hperm'|]. simpl.
  split.
  { intros n' o [Hn'| ->%list_elem_of_singleton]%elem_of_app Ho;
      rewrite index_children_lookup; case_decide as Hin; try done.
    - apply list_elem_of_fmap in Hin as (o' & Huid & Ho').
      destruct Hwf as (_ & _ & Hparent & _).
      assert (Hn't : n' ∈ nets_of t).
      { rewrite <- Hperm. apply elem_of_app. auto. }
      by rewrite (Hparent n' n o o' Hn't Hn Ho Ho' Huid).
    - by apply Hkeys.
    - exfalso. apply Hin, list_elem_of_fmap. eauto. }
  split.
  { intros uid p. rewrite index_children_lookup.
    case_decide as Hin.
    - intros _. apply list_elem_of_fmap in Hin as (o & -> & Ho).
      exists n, o. split; [|done]. apply elem_of_app. right.
      apply list_elem_of_here.
    - intros Hp. destruct (Hdom uid p Hp) as (n' & o & Hn' & Ho & ->).
      exists n', o. split; [|done]. apply elem_of_app. auto. }
  split.
  { intros l1 n' l2 Heq.
    destruct l2 as [|x l2 _] using rev_ind.
    - apply (app_inj_tail (searched s) l1 n n') in Heq as [<- <-].
      destruct (Hpend (T n kids)) as [Hroot|(n'' & Hn'' & Hin)];
        [apply list_elem_of_here|by left|right; eauto].
    - rewrite app_comm_cons, app_assoc in Heq.
      apply app_inj_tail in Heq as [Heq _].
      by apply (Hord l1 n' l2). }
  intros tr [Htr|Htr]%elem_of_app.
  - destruct (Hpend tr) as [?|(n' & Hn' & Hin)];
      [by apply list_elem_of_further|by left|].
    right. exists n'. split; [|done]. apply elem_of_app. auto.
  - right. exists n. split.
    + apply elem_of_app. right. apply list_elem_of_here.
    + rewrite Hnets. apply list_elem_of_fmap. eauto.
Qed.

(** The first loop finds every object of the tree. *)
Lemma index_until_total (fuel : nat) : ∀ s pending o,
  indexed_by m t pending s →
  member m t o →
  (length (flat_map nets_of pending) < fuel)%nat →
  ∃ s', index_until m fuel (get_uid m o) s = (Ok tt, s') ∧ indexed m t s'.
Proof.
  induction fuel as [|fuel IH]; intros s pending o Hinv Hmem Hfuel; [lia|].
  simpl. destruct (parents s !! get_uid m o) eqn:Hp.
  { exists s. split; [done|]. by exists pending. }
  destruct Hmem as (n_o & Hn_o & Ho).
  assert (Hpending : n_o ∈ flat_map nets_of pending).
  { destruct Hinv as (_ & _ & Hperm & Hkeys & _).
    rewrite <- Hperm in Hn_o. apply elem_of_app in Hn_o as [Hs|]; [|done].
    rewrite (Hkeys n_o o Hs Ho) in Hp. discriminate. }
  destruct (networks_to_search s) as [|n rest] eqn:Hcons.
  { destruct Hinv as (Hq & _). rewrite Hcons in Hq.
    destruct pending; [by apply elem_of_nil in Hpending|discriminate]. }
  destruct (search_network_indexed pending s n rest Hinv Hcons)
    as (kids & pending' & -> & Hinv').
  apply (IH _ (pending' ++ kids)%list o Hinv'); [by exists n_o|].
  simpl in Hfuel. rewrite flat_map_app, !length_app in *. lia.
Qed.

(** The second loop, started at a searched network, climbs to the root. *)
Lemma walk_parents_total pending s :
  indexed_by m t pending s →
  ∀ (i : nat) n (fuel : nat),
    searched s !! i = Some n → (i ≤ fuel)%nat →
    ∃ l, walk_parents fuel (parents s) (get_uid m (net n)) = Ok l.
Proof.
  intros Hinv. pose proof Hinv as (_ & _ & _ & Hkeys & Hdom & Hord & _).
  induction i as [i IH] using lt_wf_ind. intros n fuel Hi Hfuel.
  pose proof (take_drop_middle _ _ _ Hi) as Hsplit. symmetry in Hsplit.
  destruct (Hord _ _ _ Hsplit) as [->|(n' & Hn' & Hin)].
  - assert (Hnone : parents s !! get_uid m (net (model m)) = None).
    { destruct (parents s !! _) as [p|] eqn:Hp; [|done].
      destruct (Hdom _ _ Hp) as (n' & o & Hn' & Ho & Huid).
      destruct Hwf as (_ & _ & _ & Hroot & _).
      by destruct (Hroot n' o (searched_in_tree _ _ _ Hinv Hn') Ho). }
    exists []. destruct fuel; simpl; by rewrite Hnone.
  - apply list_elem_of_lookup in Hn' as [j Hj].
    pose proof (lookup_lt_Some _ _ _ Hj) as Hjlt.
    rewrite length_take in Hjlt.
    rewrite lookup_take_lt in Hj by lia.
    assert (Hparent : parents s !! get_uid m (net n)
                      = Some (get_uid m (net n'))).
    { apply Hkeys; [by eapply list_elem_of_lookup_2|].
      unfold children. rewrite !elem_of_app. right. right.
      apply list_elem_of_fmap. eauto. }
    destruct fuel as [|fuel]; [lia|].
    destruct (IH j ltac:(lia) n' fuel Hj ltac:(lia)) as [l Hl].
    exists (get_uid m (net n') :: l). simpl. by rewrite Hparent, Hl.
Qed.

(** [get_parents] returns a chain for every object of the tree. *)
Lemma get_parents_total (fuel : nat) s o :
  indexed m t s →
  member m t o →
  (length (nets_of t) < fuel)%nat →
  ∃ chain s', get_parents m fuel (get_uid m o) s = (Ok chain, s')
              ∧ indexed m t s'.
Proof.
  intros [pending Hinv] Hmem Hfuel.
  assert (Hlen : ∀ pending' s', indexed_by m t pending' s' →
            (length (searched s') + length (flat_map nets_of pending')
             = length (nets_of t))%nat).
  { intros pending' s' (_ & _ & Hperm & _).
    apply Permutation_length in Hperm. by rewrite length_app in Hperm. }
  destruct (index_until_total fuel s pending o Hinv Hmem)
    as (s' & Hrun & [pending' Hinv']).
  { specialize (Hlen _ _ Hinv). lia. }
  unfold get_parents. rewrite (bind_ok _ _ _ _ _ Hrun). unfold_monad.
  destruct (index_until_ok m _ _ _ _ Hrun) as [v Hv].
  pose proof Hinv' as (_ & _ & _ & Hkeys & Hdom & _).
  destruct (Hdom _ _ Hv) as (n & o' & Hn & Ho' & Huid).
  rewrite Huid, (Hkeys n o' Hn Ho') in Hv. injection Hv as <-.
  apply list_elem_of_lookup in Hn as [i Hi].
  pose proof (lookup_lt_Some _ _ _ Hi) as Hilt.
  specialize (Hlen _ _ Hinv').
  destruct fuel as [|fuel]; [lia|].
  destruct (walk_parents_total pending' s' Hinv' i n fuel Hi ltac:(lia))
    as [l Hl].
  simpl. rewrite Huid, (Hkeys n o' (list_elem_of_lookup_2 _ _ _ Hi) Ho'), Hl.
  eexists _, s'. split; [done|]. by exists pending'.
Qed.

Lemma create_connection_total (fuel i : nat) parent s :
  indexed m t s →
  member m t (pre_obj m i) → member m t (post_obj m i) →
  (length (nets_of t) < fuel)%nat →
  ∃ s', create_connection m fuel i parent s = (Ok tt, s') ∧ indexed m t s'.
Proof.
  intros Hinv Hpre Hpost Hfuel. unfold create_connection.
  unfold mbind at 1, M_bind at 1. unfold register at 1, modify at 1.
  cbv beta iota.
  set (s0 := with_uids _ s).
  assert (Hinv0 : indexed m t s0) by by apply (indexed_ext s s0).
  clearbody s0.
  destruct (get_parents_total fuel s0 _ Hinv0 Hpre Hfuel)
    as (pres & s1 & R1 & Hinv1).
  rewrite (bind_ok _ _ _ _ _ R1).
  destruct (get_parents_total fuel s1 _ Hinv1 Hpost Hfuel)
    as (posts & s2 & R2 & Hinv2).
  rewrite (bind_ok _ _ _ _ _ R2).
  unfold write. unfold_monad. eexists. split; [reflexivity|].
  by apply (indexed_ext s2).
Qed.

Lemma connection_loop_total (fuel : nat) parent (l : list nat) : ∀ s,
  indexed m t s →
  (∀ i, i ∈ l → member m t (pre_obj m i) ∧ member m t (post_obj m i)) →
  (length (nets_of t) < fuel)%nat →
  ∃ s', for_each l (λ i, create_connection m fuel i parent) s = (Ok tt, s')
        ∧ indexed m t s'.
Proof.
  induction l as [|i l IH]; intros s Hinv Hends Hfuel; simpl.
  - by exists s.
  - destruct (Hends i (list_elem_of_here _ _)) as [Hpre Hpost].
    destruct (create_connection_total fuel i parent s Hinv Hpre Hpost Hfuel)
      as (s1 & R1 & Hinv1).
    rewrite (bind_ok _ _ _ _ _ R1). apply IH; [done| |done].
    intros j Hj. apply Hends. by apply list_elem_of_further.
Qed.

(** On a well-formed hierarchy the expansion of a network of the tree
    returns. *)
Lemma expand_network_total (fuel n : nat) s :
  indexed m t s → n ∈ nets_of t →
  (length (nets_of t) < fuel)%nat →
  ∃ s', expand_network m fuel (net n) s = (Ok tt, s') ∧ indexed m t s'.
Proof.
  intros Hinv Hn Hfuel.
  destruct (expand_network_objects m fuel n s)
    as (s1 & new & -> & _ & _ & _ & _ & _ & _ & _ & _ & Hp & Hq & Hs & _).
  assert (Hinv1 : indexed m t s1) by by apply (indexed_ext s s1).
  destruct Hwf as (_ & _ & _ & _ & Hends).
  destruct (connection_loop_total fuel (parent_field m (net n))
              (connections m n) s1 Hinv1 (λ i, Hends n i Hn) Hfuel)
    as (s2 & R2 & Hinv2).
  rewrite (bind_ok _ _ _ _ _ R2).
  unfold assign_expanded, config_item, update_entry. unfold_monad. simpl.
  eexists. split; [reflexivity|]. by apply (indexed_ext s2).
Qed.

Lemma update_client_total (fuel n : nat) rest s :
  indexed m t s → n ∈ nets_of t →
  (length (nets_of t) < fuel)%nat →
  to_be_expanded s = net n :: rest →
  ∃ s', update_client m fuel s = (Ok tt, s') ∧ indexed m t s'.
Proof.
  intros Hinv Hn Hfuel Hq. rewrite (update_client_cons m fuel s _ _ Hq).
  destruct (expand_network_total fuel n (with_to_be_expanded rest s))
    as (s1 & R1 & Hinv1); [by apply (indexed_ext s)|done|done|].
  rewrite (bind_ok _ _ _ _ _ R1).
  destruct (decide (net n = net (model m))).
  - destruct (send_pan_and_zoom_ok m s1) as (p & z & ->).
    eexists. split; [reflexivity|]. by apply (indexed_ext s1).
  - by exists s1.
Qed.

End WellFormed.

(** The example hierarchy is well formed, and its initial session satisfies
    the invariant. *)
Lemma nested_well_formed : well_formed Demo.nested Demo.nested_tree.
Proof.
  assert (Hnets : ∀ n, n ∈ nets_of Demo.nested_tree → n = 0 ∨ n = 3 ∨ n = 5).
  { intros n H. simpl in H. rewrite !elem_of_cons in H.
    destruct H as [?|[?|[?|H]]]; auto. by apply elem_of_nil in H. }
  assert (Hkids : ∀ n o, n ∈ nets_of Demo.nested_tree →
            o ∈ children Demo.nested n →
            (n = 0 ∧ (o = ens 1 ∨ o = node 2 ∨ o = net 3))
            ∨ (n = 3 ∧ (o = ens 4 ∨ o = net 5))
            ∨ (n = 5 ∧ o = ens 6)).
  { intros n o Hn Ho.
    destruct (Hnets n Hn) as [->|[->| ->]]; vm_compute children in Ho;
      rewrite !elem_of_cons in Ho; rewrite elem_of_nil in Ho; intuition. }
  split; [repeat (constructor; try reflexivity)|].
  split; [reflexivity|].
  split.
  { intros n n' o o' Hn Hn' Ho Ho' Huid.
    destruct (Hkids n o Hn Ho) as [[-> Hc]|[[-> Hc]|[-> Hc]]];
      destruct (Hkids n' o' Hn' Ho') as [[-> Hc']|[[-> Hc']|[-> Hc']]];
      try reflexivity; exfalso;
      intuition (subst; discriminate Huid). }
  split.
  { intros n o Hn Ho Huid.
    destruct (Hkids n o Hn Ho) as [[-> Hc]|[[-> Hc]|[-> Hc]]];
      intuition (subst; discriminate Huid). }
  intros n i Hn Hi.
  destruct (Hnets n Hn) as [->|[->| ->]]; simpl in Hi;
    try by apply elem_of_nil in Hi.
  split.
  - exists 5. split; [simpl; rewrite !elem_of_cons; auto|].
    vm_compute children. apply list_elem_of_here.
  - exists 0. split; [apply list_elem_of_here|].
    vm_compute children. rewrite !elem_of_cons. auto.
Qed.

Lemma nested_first_tick_returns :
  ∃ s', update_client Demo.nested 8 (init Demo.nested ∅ ∅) = (Ok tt, s')
        ∧ indexed Demo.nested Demo.nested_tree s'.
Proof.
  apply (update_client_total Demo.nested Demo.nested_tree nested_well_formed
           8 0 []).
  - apply indexed_init, nested_well_formed.
  - apply list_elem_of_here.
  - simpl. lia.
  - reflexivity.
Qed.

(** ** What a whole session keeps *)

Lemma preserves_bind {A B} P (c : M A) (k : A → M B) :
  preserves P c → (∀ a, preserves P (k a)) → preserves P (c ≫= k).
Proof.
  intros Hc Hk s r s' HP. unfold mbind, M_bind.
  destruct (c s) as [[a| e |] s1] eqn:E.
  - apply (Hk a). by eapply Hc.
  - intros [= <- <-]. by eapply Hc.
  - intros [= <- <-]. by eapply Hc.
Qed.

Lemma preserves_ret {A} P (a : A) : preserves P (mret a).
Proof. by intros s r s' HP [= <- <-]. Qed.

Lemma preserves_raise {A} P e : preserves P (raise (A := A) e).
Proof. by intros s r s' HP [= <- <-]. Qed.

Lemma preserves_get_state P : preserves P get_state.
Proof. by intros s r s' HP [= <- <-]. Qed.

Lemma preserves_modify P f :
  (∀ s, P s → P (f s)) → preserves P (modify f).
Proof. intros Hf s r s' HP [= <- <-]. auto. Qed.

Lemma preserves_for_each {A} P (l : list A) (body : A → M unit) :
  (∀ x, preserves P (body x)) → preserves P (for_each l body).
Proof.
  intros Hbody s r s' HP Hrun.
  by apply (for_each_preserves P l body (λ x s r s' HP, Hbody x s r s' HP)
              s r s').
Qed.

Section Session.
Variable m : Model.
Variable o : obj.

(** Once an object has a position and a size, nothing in a session takes
    them away. *)
Lemma laid_out_update (o' : obj) (f : LayoutEntry → LayoutEntry) :
  (∀ e, is_Some (pos e) → is_Some (pos (f e))) →
  (∀ e, is_Some (size e) → is_Some (size (f e))) →
  preserves (laid_out o) (update_entry o' f).
Proof.
  intros Hp Hz. apply preserves_modify. intros s [Hpos Hsize].
  unfold laid_out. simpl. destruct (decide (o' = o)) as [->|Hne].
  - rewrite entry_insert_eq. auto.
  - by rewrite entry_insert_ne.
Qed.

Lemma laid_out_assign_pos o' v : preserves (laid_out o) (assign_pos o' v).
Proof.
  unfold assign_pos, config_item. apply preserves_bind.
  - destruct (cls o'); first [apply preserves_ret | apply preserves_raise].
  - intros _. destruct v; [|apply preserves_raise].
    apply laid_out_update; simpl; eauto.
Qed.

Lemma laid_out_assign_size o' v : preserves (laid_out o) (assign_size o' v).
Proof.
  unfold assign_size, config_item. apply preserves_bind.
  - destruct (cls o'); first [apply preserves_ret | apply preserves_raise].
  - intros _. destruct v; [|apply preserves_raise].
    apply laid_out_update; simpl; eauto.
Qed.

Lemma laid_out_assign_expanded o' b :
  preserves (laid_out o) (assign_expanded o' b).
Proof.
  unfold assign_expanded, config_item. apply preserves_bind.
  - destruct (cls o'); first [apply preserves_ret | apply preserves_raise].
  - intros _. destruct (cls o'); try apply preserves_raise.
    apply laid_out_update; simpl; eauto.
Qed.

Lemma laid_out_save_config : preserves (laid_out o) (save_config m).
Proof.
  unfold save_config. destruct (filename m); [|apply preserves_raise].
  by apply preserves_modify.
Qed.

Lemma laid_out_lookup_uid uid : preserves (laid_out o) (lookup_uid uid).
Proof.
  unfold lookup_uid. destruct uid; try apply preserves_raise.
  apply preserves_bind; [apply preserves_get_state|].
  intros s0. destruct (uids s0 !! s);
    [apply preserves_ret|apply preserves_raise].
Qed.

Lemma laid_out_message msg : preserves (laid_out o) (message m msg).
Proof.
  assert (Hact : ∀ (c : M unit), preserves (laid_out o) c →
            preserves (laid_out o) (c ;; save_config m)).
  { intros c Hc. apply preserves_bind; [done|].
    intros _. apply laid_out_save_config. }
  assert (He : ∀ uid, preserves (laid_out o) (act_expand m uid)).
  { intros uid. unfold act_expand.
    apply preserves_bind; [apply laid_out_lookup_uid|]. intros net.
    apply preserves_bind; [by apply preserves_modify|]. intros _.
    apply Hact, laid_out_assign_expanded. }
  assert (Hc : ∀ uid, preserves (laid_out o) (act_collapse m uid)).
  { intros uid. unfold act_collapse.
    apply preserves_bind; [apply laid_out_lookup_uid|]. intros net.
    apply Hact, laid_out_assign_expanded. }
  assert (Hpan : ∀ x y, preserves (laid_out o) (act_pan m x y)).
  { intros x y. unfold act_pan, print.
    apply preserves_bind; [by apply preserves_modify|]. intros _.
    apply Hact, laid_out_assign_pos. }
  assert (Hzoom : ∀ z x y, preserves (laid_out o) (act_zoom m z x y)).
  { intros z x y. unfold act_zoom, print.
    apply preserves_bind; [by apply preserves_modify|]. intros _.
    apply preserves_bind; [apply laid_out_assign_size|]. intros _.
    apply Hact, laid_out_assign_pos. }
  assert (Hpos : ∀ uid x y, preserves (laid_out o) (act_pos m uid x y)).
  { intros uid x y. unfold act_pos.
    apply preserves_bind; [apply laid_out_lookup_uid|]. intros o'.
    apply Hact, laid_out_assign_pos. }
  assert (Hsize : ∀ uid w h, preserves (laid_out o) (act_size m uid w h)).
  { intros uid w h. unfold act_size.
    apply preserves_bind; [apply laid_out_lookup_uid|]. intros o'.
    apply Hact, laid_out_assign_size. }
  unfold message. destruct msg; try apply preserves_raise.
  destruct (dict_of kv !! "act") as [[]|];
    try apply preserves_raise; try (by apply preserves_modify).
  unfold dispatch, call1, call2, call3.
  repeat case_decide; try apply preserves_raise;
    repeat (case_match; try apply preserves_raise); eauto.
Qed.

Lemma laid_out_update_client fuel : preserves (laid_out o) (update_client m fuel).
Proof.
  intros s r s' Hlaid. unfold update_client. unfold_monad.
  destruct (to_be_expanded s) as [|network rest] eqn:Hq;
    [by intros [= <- <-]|].
  set (s0 := with_to_be_expanded rest s).
  assert (H0 : laid_out o s0) by done. clearbody s0.
  destruct network as [k n].
  destruct (decide (k = Network)) as [->|Hk].
  2: { unfold expand_network. destruct k; try done; by intros [= <- <-]. }
  change (Obj Network n) with (net n).
  destruct (expand_network m fuel (net n) s0) as [r1 s1] eqn:E.
  apply expand_network_result in E
    as (sa & sb & new1 & new2 & _ & _ & _ & Hmono & _ & _ & _ & _ & _
        & (Hcb & _) & _ & Hend).
  assert (Hb : laid_out o sb).
  { specialize (Hmono o H0). unfold laid_out in *. by rewrite Hcb. }
  assert (H1 : laid_out o s1).
  { destruct Hend as [[_ ->]|[_ ->]]; [|done].
    unfold laid_out in *. simpl. destruct (decide (net n = o)) as [<-|Hne].
    - by rewrite entry_insert_eq.
    - by rewrite entry_insert_ne. }
  destruct r1 as [[]| e |]; try by intros [= <- <-].
  destruct (decide (net n = net (model m))); [|by intros [= <- <-]].
  destruct (send_pan_and_zoom_ok m s1) as (p & z & ->).
  by intros [= <- <-].
Qed.

Lemma laid_out_run (events : list event) : ∀ s,
  laid_out o s → laid_out o (run m events s).
Proof.
  induction events as [|e events IH]; intros s Hs; [done|].
  apply IH. destruct e as [fuel|msg]; simpl.
  - destruct (update_client m fuel s) as [r s'] eqn:E.
    by apply (laid_out_update_client fuel s r s').
  - destruct (message m msg s) as [r s'] eqn:E.
    by apply (laid_out_message msg s r s').
Qed.

End Session.

(** ** Ticks and client actions *)

Section Steps.
Variable m : Model.


(** Expanding a network whose children all have a position and a size
    draws no random number and changes no entry, except that it sets the
    [expanded] flag of the network when it ends normally. *)
Lemma expand_network_again (fuel n : nat) (s : Session) (r : outcome unit)
    (s' : Session) :
  (∀ o, o ∈ children m n → laid_out o s) →
  expand_network m fuel (net n) s = (r, s') →
  draws s' = draws s
  ∧ (config s' = config s
     ∨ config s' = <[net n := set_expanded true (entry (config s) (net n))]>
                     (config s)).
Proof.
  intros Hlaid Hrun.
  apply expand_network_result in Hrun
    as (sa & sb & new1 & new2 & _ & _ & _ & _ & _ & Hsame & _ & _ & _
        & (Hcb & _ & _ & Hdb & _) & _ & Hend).
  destruct (Hsame Hlaid) as [Hca Hda].
  destruct Hend as [[_ ->]|[_ ->]]; simpl.
  - split; [congruence|]. right. by rewrite Hcb, Hca.
  - split; [congruence|]. left. congruence.
Qed.

(** C8.  Expanding network [n] twice in a row: the second expansion leaves
    the whole store as the first left it, so every child keeps its position
    and size, and draws no random number; and the first expansion changes the
    [expanded] flag of no object other than [n] itself.  The same holds when
    ticks and client messages come between the two: the later expansion
    draws no random number and changes no position, no size and no flag but
    that of [n].  On a well-formed hierarchy the second expansion of a
    network of the tree ends normally. *)
Theorem expansion_idempotent (fuel fuel' n : nat) (s s1 s2 : Session)
    (r : outcome unit) :
  expand_network m fuel (net n) s = (Ok tt, s1) →
  expand_network m fuel' (net n) s1 = (r, s2) →
  config s2 = config s1
  ∧ draws s2 = draws s1
  ∧ (∀ o, o ∈ children m n → laid_out o s1)
  ∧ (∀ o, o ≠ net n →
       expanded (entry (config s1) o) = expanded (entry (config s) o))
  ∧ (∀ events fuel'' r' s',
       expand_network m fuel'' (net n) (run m events s1) = (r', s') →
       draws s' = draws (run m events s1)
       ∧ ∀ o, pos (entry (config s') o)
              = pos (entry (config (run m events s1)) o)
            ∧ size (entry (config s') o)
              = size (entry (config (run m events s1)) o)
            ∧ (o ≠ net n →
               expanded (entry (config s') o)
               = expanded (entry (config (run m events s1)) o)))
  ∧ (∀ t, well_formed m t → indexed m t s → n ∈ nets_of t →
       (length (nets_of t) < fuel)%nat → (length (nets_of t) < fuel')%nat →
       r = Ok tt).
Proof.
  intros H1 H2.
  assert (Htotal : ∀ t, well_formed m t → indexed m t s → n ∈ nets_of t →
            (length (nets_of t) < fuel)%nat →
            (length (nets_of t) < fuel')%nat → r = Ok tt).
  { intros t Hwf Hinv Hn Hfuel Hfuel'.
    destruct (expand_network_total m t Hwf fuel n s Hinv Hn Hfuel)
      as (s1' & R1 & Hinv1).
    assert (s1' = s1) as -> by congruence.
    destruct (expand_network_total m t Hwf fuel' n s1 Hinv1 Hn Hfuel')
      as (s2' & R2 & _). congruence. }
  apply expand_network_result in H1
    as (sa & sb & new1 & new2 & _ & _ & La & _ & Ea & _ & _ & _ & _
        & (Hcb & _) & _ & [[_ ->]|[Hr _]]); [|done].
  set (s1 := with_config _ sb) in *.
  assert (Hc1 : config s1
                = <[net n := set_expanded true (entry (config sb) (net n))]>
                    (config sb)) by reflexivity.
  clearbody s1.
  assert (Hlaid : ∀ o, o ∈ children m n → laid_out o s1).
  { intros o Ho. specialize (La o Ho). unfold laid_out in *. rewrite Hc1.
    destruct (decide (net n = o)) as [<-|Hne].
    - rewrite entry_insert_eq. simpl. by rewrite Hcb.
    - rewrite entry_insert_ne by done. by rewrite Hcb. }
  assert (Hflags : ∀ o, o ≠ net n →
            expanded (entry (config s1) o) = expanded (entry (config s) o)).
  { intros o Ho. rewrite Hc1, entry_insert_ne by done. by rewrite Hcb. }
  destruct (expand_network_again fuel' n s1 r s2 Hlaid H2) as [Hd2 Hc2].
  split.
  { destruct Hc2 as [->| ->]; [done|].
    by rewrite Hc1, entry_insert_eq, insert_insert_eq. }
  split; [done|]. split; [done|]. split; [done|]. split; [|done].
  intros events fuel'' r' s' Hrun.
  assert (Hlaid' : ∀ o, o ∈ children m n → laid_out o (run m events s1))
    by (intros o Ho; by apply laid_out_run, Hlaid).
  destruct (expand_network_again fuel'' n _ r' s' Hlaid' Hrun) as [Hd Hc].
  split; [done|]. intros o.
  destruct Hc as [->| ->]; [done|].
  destruct (decide (net n = o)) as [<-|Hne].
  - rewrite entry_insert_eq. by repeat split.
  - by rewrite entry_insert_ne.
Qed.

(** A tick that finds network [n] at the head of the queue announces every
    child of [n] and, when it ends normally, leaves [n] marked expanded; on
    a well-formed hierarchy it ends normally. *)
Lemma tick_expands_head (fuel n : nat) (rest : list obj) (s : Session)
    (r : outcome unit) (s' : Session) :
  to_be_expanded s = net n :: rest →
  update_client m fuel s = (r, s') →
  ∃ new, client s' = (client s ++ new)%list
    ∧ (∀ o, o ∈ children m n →
         announces new (get_uid m o) (type_of o) (parent_field m (net n)))
    ∧ (r = Ok tt → expanded (entry (config s') (net n)) = true)
    ∧ (∀ t, well_formed m t → indexed m t s → n ∈ nets_of t →
         (length (nets_of t) < fuel)%nat → r = Ok tt).
Proof.
  intros Hq Hrun.
  assert (Htotal : ∀ t, well_formed m t → indexed m t s → n ∈ nets_of t →
            (length (nets_of t) < fuel)%nat → r = Ok tt).
  { intros t Hwf Hinv Hn Hfuel.
    destruct (update_client_total m t Hwf fuel n rest s Hinv Hn Hfuel Hq)
      as (s'' & Hrun' & _). congruence. }
  cut (∃ new, client s' = (client s ++ new)%list
         ∧ (∀ o, o ∈ children m n →
              announces new (get_uid m o) (type_of o) (parent_field m (net n)))
         ∧ (r = Ok tt → expanded (entry (config s') (net n)) = true)).
  { intros (new & ? & ? & ?). exists new. auto. }
  clear Htotal. revert Hrun.
  rewrite (update_client_cons m fuel _ (net n) rest Hq).
  unfold mbind, M_bind.
  destruct (expand_network m fuel (net n) _) as [r1 s4] eqn:E.
  apply expand_network_result in E
    as (sa & sb & new1 & new2 & Ca & Ann & _ & _ & _ & _ & _ & _ & _
        & _ & Cb & Hend).
  simpl in Ca.
  assert (Hann : ∀ new', ∀ o, o ∈ children m n →
            announces ((new1 ++ new2) ++ new') (get_uid m o) (type_of o)
              (parent_field m (net n))).
  { intros new' o Ho. destruct (Ann o Ho) as (info & Hin & Hinfo).
    exists info. split; [|done]. rewrite !elem_of_app. auto. }
  destruct Hend as [[-> ->]|[Hr ->]].
  - destruct (decide (net n = net (model m))).
    + destruct (send_pan_and_zoom_ok m (with_config
          (<[net n := set_expanded true (entry (config sb) (net n))]>
             (config sb)) sb)) as (p & z & ->).
      intros [= <- <-]. exists ((new1 ++ new2) ++ [Pan p; Zoom z])%list.
      split; [simpl; by rewrite Cb, Ca, <- !app_assoc|].
      split; [apply Hann|]. intros _. simpl. by rewrite entry_insert_eq.
    + intros [= <- <-]. exists ((new1 ++ new2) ++ [])%list.
      split; [simpl; by rewrite Cb, Ca, app_nil_r, <- !app_assoc|].
      split; [apply Hann|]. intros _. simpl. by rewrite entry_insert_eq.
  - destruct r1 as [[]| e |]; [done| |]; intros [= <- <-];
      exists ((new1 ++ new2) ++ [])%list;
      (split; [by rewrite Cb, Ca, app_nil_r, <- !app_assoc|]);
      (split; [apply Hann|done]).
Qed.

(** C10, as the code has it.  In a session that has a file name, [expand]
    then [collapse] on the uid of a registered network [n] both return;
    [collapse] changes nothing but the [expanded] flag of [n] and the file
    it rewrites, so [n] stays where [expand] put it, at the back of the
    queue: behind what was queued before, at the head when the queue was
    empty.  Whatever happens in between, the tick that finds [n] at the head
    of the queue announces every child of [n] and, if it ends normally,
    leaves the flag of [n] set again; on a well-formed hierarchy it does end
    normally. *)
Theorem collapse_keeps_container_queued (u f : string) (n fuel : nat)
    (s : Session) :
  uids s !! u = Some (net n) →
  filename m = Some f →
  ∃ s1,
    act_expand m (JStr u) s = (Ok tt, s1)
    ∧ act_collapse m (JStr u) s1 = (Ok tt, collapsed n f s1)
    ∧ expanded (entry (config (collapsed n f s1)) (net n)) = false
    ∧ to_be_expanded (collapsed n f s1) = (to_be_expanded s ++ [net n])%list
    ∧ client (collapsed n f s1) = client s
    ∧ (∀ events s2 rest r s3,
         s2 = run m events (collapsed n f s1) →
         to_be_expanded s2 = net n :: rest →
         update_client m fuel s2 = (r, s3) →
         ∃ new, client s3 = (client s2 ++ new)%list
           ∧ (∀ o, o ∈ children m n →
                announces new (get_uid m o) (type_of o)
                  (parent_field m (net n)))
           ∧ (r = Ok tt → expanded (entry (config s3) (net n)) = true)
           ∧ (∀ t, well_formed m t → indexed m t s2 → n ∈ nets_of t →
                (length (nets_of t) < fuel)%nat → r = Ok tt)).
Proof.
  intros Hu Hf.
  assert (Hlook : ∀ sx, uids sx = uids s →
            lookup_uid (JStr u) sx = (Ok (net n), sx)).
  { intros sx Hx. unfold lookup_uid. unfold_monad. by rewrite Hx, Hu. }
  eexists. split.
  { unfold act_expand.
    pose proof (Hlook s eq_refl) as X. rewrite (bind_ok _ _ _ _ _ X).
    unfold assign_expanded, config_item, update_entry, save_config.
    rewrite Hf. unfold_monad. simpl. reflexivity. }
  split.
  { unfold act_collapse.
    match goal with |- _ ?sx = _ => pose proof (Hlook sx eq_refl) as X end.
    rewrite (bind_ok _ _ _ _ _ X).
    unfold assign_expanded, config_item, update_entry, save_config.
    rewrite Hf. unfold_monad. simpl. reflexivity. }
  split; [unfold collapsed; simpl; by rewrite entry_insert_eq|].
  split; [reflexivity|]. split; [reflexivity|].
  intros events s2 rest r s3 _ Hq Hrun.
  exact (tick_expands_head fuel n rest s2 r s3 Hq Hrun).
Qed.

End Steps.



Lemma expansion_idempotent_witness :
  let s := init Demo.nested ∅ ∅ in
  let s1 := (expand_network Demo.nested 8 (net 0) s).2 in
  let s2 := (expand_network Demo.nested 8 (net 0) s1).2 in
  config s2 = config s1 ∧ draws s2 = draws s1.
Proof.
  intros s s1 s2.
  destruct (expansion_idempotent Demo.nested 8 8 0 s s1 s2 (Ok tt))
    as (Hc & Hd & _); [by vm_compute | by vm_compute |].
  by split.
Defined.

Lemma collapse_keeps_container_queued_witness :
  ∃ s1,
    act_expand Demo.nested (JStr "A") Demo.after_first_tick = (Ok tt, s1)
    ∧ act_collapse Demo.nested (JStr "A") s1 = (Ok tt, collapsed 3 "demo" s1)
    ∧ to_be_expanded (collapsed 3 "demo" s1) = [net 3]
    ∧ ∀ r s3,
        update_client Demo.nested 8 (collapsed 3 "demo" s1) = (r, s3) →
        r = Ok tt → expanded (entry (config s3) (net 3)) = true.
Proof.
  assert (Hu : uids Demo.after_first_tick !! "A" = Some (net 3))
    by (vm_compute; reflexivity).
  assert (Hq : to_be_expanded Demo.after_first_tick = [])
    by (vm_compute; reflexivity).
  destruct (collapse_keeps_container_queued Demo.nested "A" "demo" 3 8
              Demo.after_first_tick Hu eq_refl)
    as (s1 & H1 & H2 & _ & H4 & _ & H6).
  rewrite Hq in H4.
  exists s1. split; [exact H1|]. split; [exact H2|]. split; [exact H4|].
  intros r s3 Hrun Hr.
  destruct (H6 [] _ [] r s3 eq_refl H4 Hrun) as (new & _ & _ & Hflag & _).
  auto.
Defined.

(** C10 as the spec states it fails.  With A and B both registered, [expand]
    A, [expand] B, [collapse] B, then one tick: the tick expands A; B is
    still collapsed and still queued, and none of its children has been
    announced.  And in a session without a file name [collapse] clears the
    flag and then ends with the [TypeError] of [save_config]. *)
Lemma collapsed_container_waits_its_turn :
  let act a u := JObj [("act", JStr a); ("uid", JStr u)] in
  let s0 := (update_client Demo.siblings 8 (init Demo.siblings ∅ ∅)).2 in
  let s1 := (message Demo.siblings (act "expand" "A") s0).2 in
  let s2 := (message Demo.siblings (act "expand" "B") s1).2 in
  let s3 := (message Demo.siblings (act "collapse" "B") s2).2 in
  let r4 := update_client Demo.siblings 8 s3 in
  (to_be_expanded s3 = [net 3; net 5]
   ∧ r4.1 = Ok tt
   ∧ expanded (entry (config r4.2) (net 5)) = false
   ∧ to_be_expanded r4.2 = [net 5]
   ∧ length (client r4.2) = S (length (client s0))
   ∧ (o_uid <$> (match last (client r4.2) with
                 | Some (CreateObject info) => Some info
                 | _ => None
                 end)) = Some "E2")
  ∧ (let t0 := (update_client Demo.unnamed 8 (init Demo.unnamed ∅ ∅)).2 in
     (message Demo.unnamed (act "collapse" "A") t0).1 = Raise TypeError).
Proof. repeat split; vm_compute; reflexivity. Qed.

(** ** Saving and reloading the layout store *)

Section RoundTrip.
Variable m : Model.
Variable c : gmap obj LayoutEntry.

Lemma finite_read_back (names : string → option json) :
  ∀ v, finite v = true → read_back names v = Ok v.
Proof.
  fix IH 1. intros v. destruct v as [ |b|q|neg| |s|l|kv]; simpl;
    try done.
  - intros Hl.
    assert (H : foldr (λ x acc,
                     match read_back names x, acc with
                     | Ok x', Ok l' => Ok (x' :: l')
                     | Ok _, r => r
                     | Raise e, _ => Raise e
                     | OutOfFuel, _ => OutOfFuel
                     end) (Ok []) l = Ok l).
    { induction l as [|x l IHl]; [done|]. simpl in *.
      apply andb_prop in Hl as [Hx Hl].
      by rewrite (IH x Hx), (IHl Hl). }
    by rewrite H.
  - intros Hl.
    assert (H : foldr (λ p acc,
                     match read_back names p.2, acc with
                     | Ok x', Ok kv' => Ok ((p.1, x') :: kv')
                     | Ok _, r => r
                     | Raise e, _ => Raise e
                     | OutOfFuel, _ => OutOfFuel
                     end) (Ok []) kv = Ok kv).
    { induction kv as [|[k x] kv IHl]; [done|]. simpl in *.
      apply andb_prop in Hl as [Hx Hl].
      by rewrite (IH x Hx), (IHl Hl). }
    by rewrite H.
Qed.

(** A position or size that holds no [inf] and no [nan] reads back, whatever
    the script binds. *)
Lemma finite_reads_back (p : json * json) :
  finite p.1 = true → finite p.2 = true → reads_back m p.
Proof. intros H1 H2. split; by apply finite_read_back. Qed.

Lemma read_back_pair_ok (p : json * json) :
  reads_back m p → read_back_pair (constants m) (Some p) = Ok (Some p).
Proof. destruct p as [x y]. intros [Hx Hy]. simpl in *. by rewrite Hx, Hy. Qed.

Lemma exec_pos_line (uid : string) (o : obj) (p : json * json) (s : Session) :
  locals m uid = Some o → cls o ≠ Connection → reads_back m p →
  exec_line m (Line uid (SetPos (Some p))) s
  = (Ok tt, with_config (<[o := set_pos (Some p) (entry (config s) o)]>
                           (config s)) s).
Proof.
  intros Hres Hcls Hr. unfold exec_line. cbn [l_assign l_uid].
  unfold lift, eval_uid. rewrite Hres. unfold mbind at 1, M_bind at 1.
  rewrite (read_back_pair_ok p Hr).
  unfold assign_pos, config_item, update_entry. unfold_monad.
  by destruct o as [[] i].
Qed.

Lemma exec_size_line (uid : string) (o : obj) (z : json * json) (s : Session) :
  locals m uid = Some o → cls o ≠ Connection → reads_back m z →
  exec_line m (Line uid (SetSize (Some z))) s
  = (Ok tt, with_config (<[o := set_size (Some z) (entry (config s) o)]>
                           (config s)) s).
Proof.
  intros Hres Hcls Hr. unfold exec_line. cbn [l_assign l_uid].
  unfold lift, eval_uid. rewrite Hres. unfold mbind at 1, M_bind at 1.
  rewrite (read_back_pair_ok z Hr).
  unfold assign_size, config_item, update_entry. unfold_monad.
  by destruct o as [[] i].
Qed.

Lemma exec_expanded_line (uid : string) (i : nat) (b : bool) (s : Session) :
  locals m uid = Some (net i) →
  exec_line m (Line uid (SetExpanded b)) s
  = (Ok tt, with_config (<[net i := set_expanded b (entry (config s) (net i))]>
                           (config s)) s).
Proof.
  intros Hres. unfold exec_line. cbn [l_assign l_uid].
  unfold eval_uid. rewrite Hres. reflexivity.
Qed.

(** Executing the lines [dumps] writes for one item puts what the file
    keeps of the item's entry into the configuration. *)
Lemma exec_item (it : string * obj) (s : Session) :
  replayable m c it →
  (∀ e, config s !! it.2 = Some e → e = kept c it.2) →
  ∃ s', for_each (dumps_item c it) (exec_line m) s = (Ok tt, s')
    ∧ config s' = if decide (cls it.2 = Connection) then config s
                  else <[it.2 := kept c it.2]> (config s).
Proof.
  destruct it as [uid [k i]]. unfold replayable. cbn [fst snd cls].
  intros Hit Hinv.
  destruct (decide (k = Connection)) as [->|Hk]; [by exists s|].
  destruct (Hit Hk) as (Hres & (p & Hp & Hrp) & (z & Hz & Hrz)).
  assert (Hx : entry (config s) (Obj k i) = default_entry
               ∨ entry (config s) (Obj k i) = kept c (Obj k i)).
  { unfold entry at 1 2. destruct (config s !! Obj k i) as [e|] eqn:E;
      [right|by left]. simpl. by apply Hinv. }
  assert (Hcls : cls (Obj k i) ≠ Connection) by done.
  unfold dumps_item.
  destruct k; try done; cbn [cls for_each]; rewrite Hp, Hz;
    rewrite (bind_ok _ _ _ _ _ (exec_pos_line uid _ p s Hres Hcls Hrp));
    rewrite (bind_ok _ _ _ _ _ (exec_size_line uid _ z _ Hres Hcls Hrz));
    rewrite ?(bind_ok _ _ _ _ _ (exec_expanded_line uid i _ _ Hres));
    eexists; (split; [reflexivity|]); cbn [config with_config];
    rewrite ?entry_insert_eq, ?insert_insert_eq; f_equal;
    unfold kept; cbn [cls]; rewrite Hp, Hz;
    destruct Hx as [-> | ->]; reflexivity.
Qed.

Lemma exec_items (l : list (string * obj)) : ∀ s,
  Forall (replayable m c) l →
  (∀ o e, config s !! o = Some e → e = kept c o) →
  ∃ s', for_each (flat_map (dumps_item c) l) (exec_line m) s = (Ok tt, s')
    ∧ (∀ o e, config s' !! o = Some e → e = kept c o)
    ∧ (∀ o, is_Some (config s' !! o)
            ↔ is_Some (config s !! o)
              ∨ ∃ uid, (uid, o) ∈ l ∧ cls o ≠ Connection).
Proof.
  induction l as [|it l IH]; intros s Hall Hinv.
  - exists s. simpl. split; [done|]. split; [done|].
    intros o. split; [by left|]. intros [H|(uid & Hin & _)]; [done|].
    by apply elem_of_nil in Hin.
  - apply Forall_cons in Hall as [Hit Hall].
    destruct (exec_item it s Hit (Hinv it.2)) as (s1 & R1 & C1).
    assert (Hinv1 : ∀ o e, config s1 !! o = Some e → e = kept c o).
    { intros o e. rewrite C1. case_decide; [apply Hinv|].
      destruct (decide (it.2 = o)) as [<-|Hne].
      - rewrite lookup_insert_eq. by intros [= <-].
      - rewrite lookup_insert_ne by done. apply Hinv. }
    destruct (IH s1 Hall Hinv1) as (s' & R & Hinv' & Hdom).
    exists s'. simpl. rewrite for_each_app, (bind_ok _ _ _ _ _ R1).
    split; [done|]. split; [done|].
    intros o. rewrite Hdom, C1. destruct it as [uid0 o0]. cbn [fst snd].
    destruct (decide (cls o0 = Connection)) as [Hc|Hc].
    + split.
      * intros [H|(uid & Hin & Hcls)]; [by left|].
        right. exists uid. split; [by apply list_elem_of_further|done].
      * intros [H|(uid & Hin & Hcls)]; [by left|].
        apply elem_of_cons in Hin as [[= -> ->]|Hin]; [done|].
        right. eauto.
    + destruct (decide (o0 = o)) as [<-|Hne].
      * rewrite lookup_insert_eq. split.
        -- intros _. right. exists uid0.
           split; [apply list_elem_of_here|done].
        -- intros _. left. eauto.
      * rewrite lookup_insert_ne by done. split.
        -- intros [H|(uid & Hin & Hcls)]; [by left|].
           right. exists uid. split; [by apply list_elem_of_further|done].
        -- intros [H|(uid & Hin & Hcls)]; [by left|].
           apply elem_of_cons in Hin as [[= -> ->]|Hin]; [done|].
           right. eauto.
Qed.

(** X22.  What [save_config] writes can be read back.  When the session's
    [locals] resolve every registered uid to its object, and every
    registered ensemble, node and network has a position and a size whose
    text evaluates to the value itself, then executing what [dumps] wrote
    returns a store: it holds, for every registered ensemble, node and
    network, the position and size of the original store, and the flag of a
    network; and it holds nothing else.  [find_config] on the file returns
    this store. *)
Theorem registered_entries_roundtrip (u : gmap string obj) :
  (∀ uid o, u !! uid = Some o → replayable m c (uid, o)) →
  ∃ c', exec_config m (dumps c u) = Ok c'
    ∧ (∀ uid o, u !! uid = Some o → cls o ≠ Connection →
         c' !! o = Some (kept c o))
    ∧ (∀ o, is_Some (c' !! o) →
         cls o ≠ Connection ∧ ∃ uid, u !! uid = Some o)
    ∧ ∀ f d configs, filename m = Some f →
        find_config m (<[f ++ ".cfg" := dumps c u]> d) configs = Ok c'.
Proof.
  intros Hreg.
  assert (Hin : ∀ uid o, (uid, o) ∈ sorted_items u ↔ u !! uid = Some o).
  { intros uid o. unfold sorted_items. rewrite merge_sort_Permutation.
    apply elem_of_map_to_list. }
  destruct (exec_items (sorted_items u) (init m ∅ ∅))
    as (s' & R & Hinv & Hdom).
  { apply Forall_forall. intros [uid o] Hit. by apply Hreg, Hin. }
  { intros o e. simpl. by rewrite lookup_empty. }
  assert (Hexec : exec_config m (dumps c u) = Ok (config s')).
  { unfold exec_config, dumps. by rewrite R. }
  exists (config s'). split; [exact Hexec|]. split; [|split].
  - intros uid o Hu Hcls.
    assert (Hsome : is_Some (config s' !! o)).
    { apply Hdom. right. exists uid. split; [by apply Hin|done]. }
    destruct Hsome as [e He]. by rewrite He, (Hinv o e He).
  - intros o Ho. apply Hdom in Ho as [Ho|(uid & Hit & Hcls)].
    + simpl in Ho. rewrite lookup_empty in Ho. by destruct Ho.
    + split; [done|]. exists uid. by apply Hin.
  - intros f d configs Hf. unfold find_config.
    by rewrite Hf, lookup_insert_eq.
Qed.

Lemma for_each_ok_inv {A} (body : A → M unit) (l : list A) : ∀ s s',
  for_each l body s = (Ok tt, s') →
  ∀ x, x ∈ l → ∃ s1 s2, body x s1 = (Ok tt, s2).
Proof.
  induction l as [|a l IH]; intros s s' Hrun x Hx;
    [by apply elem_of_nil in Hx|].
  simpl in Hrun. apply bind_ok_inv in Hrun as ([] & s1 & Ha & Hrest).
  apply elem_of_cons in Hx as [->|Hx]; [by exists s, s1|].
  by apply (IH s1 s').
Qed.

(** X23.  A position that holds an infinite float makes the file
    unreadable.  [%s] writes the float as the name [inf]; unless the
    session's script binds that name, [exec] stops at the line with a
    [NameError] (or earlier, at another line), so reading back what [dumps]
    wrote for a registry that holds the object never returns a store. *)
Theorem infinite_position_breaks_reload (u : gmap string obj) (uid : string)
    (o : obj) (negative : bool) (y : json) :
  constants m "inf" = None →
  u !! uid = Some o →
  cls o ≠ Connection →
  pos (entry c o) = Some (JInf negative, y) →
  (∀ s, exec_line m (Line uid (SetPos (Some (JInf negative, y)))) s
        = (Raise NameError, s))
  ∧ ∀ c', exec_config m (dumps c u) ≠ Ok c'.
Proof.
  intros Hinf Hu Hcls Hpos.
  assert (Hline : ∀ s, exec_line m (Line uid (SetPos (Some (JInf negative, y)))) s
                       = (Raise NameError, s)).
  { intros s. unfold exec_line, lift, lookup_name. simpl.
    unfold lookup_name. rewrite Hinf. by destruct negative. }
  split; [exact Hline|].
  intros c' Hexec. unfold exec_config in Hexec.
  destruct (for_each (dumps c u) (exec_line m) (init m ∅ ∅))
    as [[[]| e |] s'] eqn:R; try discriminate.
  destruct (for_each_ok_inv _ _ _ _ R
              (Line uid (SetPos (Some (JInf negative, y)))))
    as (s1 & s2 & Hok).
  - unfold dumps. apply list_elem_of_In, in_flat_map. exists (uid, o).
    split.
    + apply list_elem_of_In. unfold sorted_items.
      rewrite merge_sort_Permutation. by apply elem_of_map_to_list.
    + apply list_elem_of_In. simpl. rewrite Hpos.
      destruct (cls o); try done; apply list_elem_of_here.
  - rewrite Hline in Hok. discriminate.
Qed.

End RoundTrip.

Lemma registered_entries_roundtrip_witness :
  ∃ c', find_config Demo.nested
          (<["demo.cfg" := dumps (config Demo.after_first_tick)
                             (uids Demo.after_first_tick)]> ∅) ∅ = Ok c'
        ∧ c' !! ens 1 = Some (kept (config Demo.after_first_tick) (ens 1)).
Proof.
  destruct (registered_entries_roundtrip Demo.nested
              (config Demo.after_first_tick) (uids Demo.after_first_tick))
    as (c' & _ & Hkeep & _ & Hfile).
  - intros uid o H. apply elem_of_map_to_list in H.
    replace (map_to_list (uids Demo.after_first_tick))
      with [("conn_7", conn 7); ("E", ens 1); ("A", net 3); ("N", node 2)]
      in H by (vm_compute; reflexivity).
    repeat (apply elem_of_cons in H as [H|H];
            [injection H as -> ->; intros Hcls; try done;
             (split; [reflexivity|]);
             split; eexists; (split; [vm_compute; reflexivity|]);
             split; reflexivity|]).
    exfalso. by apply elem_of_nil in H.
  - exists c'. split.
    + apply (Hfile "demo" ∅ ∅). reflexivity.
    + apply (Hkeep "E"); [vm_compute; reflexivity|done].
Defined.

Lemma infinite_position_breaks_reload_witness :
  let s := (act_pos Demo.nested (JStr "E") (JInf false) (JNum 4)
              Demo.after_first_tick).2 in
  pos (entry (config s) (ens 1)) = Some (JInf false, JNum 4)
  ∧ exec_line Demo.nested (Line "E" (SetPos (Some (JInf false, JNum 4))))
      (init Demo.nested ∅ ∅)
    = (Raise NameError, init Demo.nested ∅ ∅).
Proof.
  intros s.
  assert (Hpos : pos (entry (config s) (ens 1)) = Some (JInf false, JNum 4))
    by (vm_compute; reflexivity).
  split; [exact Hpos|].
  destruct (infinite_position_breaks_reload Demo.nested (config s) (uids s)
              "E" (ens 1) false (JNum 4)) as [Hline _].
  - reflexivity.
  - vm_compute. reflexivity.
  - done.
  - exact Hpos.
  - apply Hline.
Defined.

(** C7, at the failing input.  After the first tick, a [pan] to (3, 4)
    stores the position in the root's entry and calls [save_config]; the
    root has no uid in the registry, so [dumps] writes no line for it.  The
    store [find_config] reads back from that file has lost the root's
    entry: it differs from the store that was saved, and a session started
    from it reports the pan (0, 0) where the session that saved would report
    (3, 4). *)
Lemma reloaded_store_lacks_root :
  let s := (act_pan Demo.nested (JNum 3) (JNum 4) Demo.after_first_tick).2 in
  ∃ c', find_config Demo.nested (disk s) ∅ = Ok c'
        ∧ config s !! net 0
          = Some {| pos := Some (JNum 3, JNum 4); size := None;
                    expanded := true |}
        ∧ c' !! net 0 = None
        ∧ c' ≠ config s
        ∧ (send_pan_and_zoom Demo.nested (init Demo.nested (config s) ∅)).2
          = with_client [Pan (JNum 3, JNum 4); Zoom (JNum 1)]
              (init Demo.nested (config s) ∅)
        ∧ (send_pan_and_zoom Demo.nested (init Demo.nested c' ∅)).2
          = with_client [Pan (JNum 0, JNum 0); Zoom (JNum 1)]
              (init Demo.nested c' ∅).
Proof.
  eexists. split; [vm_compute; reflexivity|].
  split; [vm_compute; reflexivity|].
  split; [vm_compute; reflexivity|].
  split.
  { intros H. apply (f_equal (λ c, c !! net 0)) in H. vm_compute in H.
    discriminate H. }
  split; vm_compute; reflexivity.
Qed.

(** ** Further properties of [get_parents] *)

Section MoreChains.
Variable m : Model.

Lemma walk_parents_linked (fuel : nat) : ∀ p last l,
  walk_parents fuel p last = Ok l → linked p (last :: l).
Proof.
  induction fuel as [|fuel IH]; intros p last l; simpl;
    destruct (p !! last) as [up|] eqn:E; try discriminate.
  - by intros [= <-].
  - destruct (walk_parents fuel p up) as [l'| |] eqn:W; try discriminate.
    intros [= <-]. split; [done|]. by apply IH.
  - by intros [= <-].
Qed.

(** X1.  A chain that [get_parents] returns is a path in the parent index
    it leaves: every element has the next one as its parent, and the last
    one has no parent. *)
Theorem get_parents_chain_linked (fuel : nat) (uid : string)
    (s s' : Session) (chain : list string) :
  get_parents m fuel uid s = (Ok chain, s') → linked (parents s') chain.
Proof.
  unfold get_parents. intros H.
  apply bind_ok_inv in H as ([] & s1 & _ & H). unfold_monad.
  destruct (walk_parents fuel (parents s1) uid) as [l| |] eqn:W;
    try discriminate.
  injection H as <- <-. by apply (walk_parents_linked fuel).
Qed.

(** X2.  The parent index memoizes: asking again for a uid whose chain was
    returned gives the same chain and leaves the state, the queue included,
    as it is. *)
Theorem get_parents_memoized (fuel : nat) (uid : string) (s s' : Session)
    (chain : list string) :
  get_parents m fuel uid s = (Ok chain, s') →
  get_parents m fuel uid s' = (Ok chain, s').
Proof.
  unfold get_parents. intros H.
  apply bind_ok_inv in H as ([] & s1 & Hidx & H). unfold_monad.
  destruct (walk_parents fuel (parents s1) uid) as [l| |] eqn:W;
    try discriminate.
  injection H as <- <-.
  destruct (index_until_ok m _ _ _ _ Hidx) as [up Hup].
  assert (Hnow : index_until m fuel uid s1 = (Ok tt, s1)).
  { destruct fuel; simpl; by rewrite Hup. }
  by rewrite Hnow, W.
Qed.

End MoreChains.

Lemma get_parents_chain_linked_witness :
  linked (parents (get_parents Demo.nested 8 "E3" (init Demo.nested ∅ ∅)).2)
    ["E3"; "B"; "A"; "model"].
Proof.
  apply (get_parents_chain_linked Demo.nested 8 "E3" (init Demo.nested ∅ ∅)).
  vm_compute. reflexivity.
Defined.

Lemma get_parents_memoized_witness :
  let s' := (get_parents Demo.nested 8 "E3" (init Demo.nested ∅ ∅)).2 in
  get_parents Demo.nested 8 "E3" s' = (Ok ["E3"; "B"; "A"; "model"], s').
Proof.
  intros s'.
  apply (get_parents_memoized Demo.nested 8 "E3" (init Demo.nested ∅ ∅)).
  vm_compute. reflexivity.
Defined.

(** ** Chains on a well-formed hierarchy *)

Section RootedChains.
Variable m : Model.
Variable t : tree.
Hypothesis Hwf : well_formed m t.

Lemma root_has_no_parent pending s :
  indexed_by m t pending s →
  parents s !! get_uid m (net (model m)) = None.
Proof.
  intros Hinv. pose proof Hinv as (_ & _ & _ & _ & Hdom & _).
  destruct (parents s !! _) as [p|] eqn:Hp; [|done].
  destruct (Hdom _ _ Hp) as (n' & o & Hn' & Ho & Huid).
  destruct Hwf as (_ & _ & _ & Hroot & _).
  by destruct (Hroot n' o (searched_in_tree m t _ _ _ Hinv Hn') Ho).
Qed.

(** The second loop, started at a searched network, ends at the root. *)
Lemma walk_parents_to_root pending s :
  indexed_by m t pending s →
  ∀ (i : nat) n (fuel : nat),
    searched s !! i = Some n → (i ≤ fuel)%nat →
    ∃ l, walk_parents fuel (parents s) (get_uid m (net n)) = Ok l
         ∧ List.last l (get_uid m (net n)) = get_uid m (net (model m)).
Proof.
  intros Hinv. pose proof Hinv as (_ & _ & _ & Hkeys & _ & Hord & _).
  induction i as [i IH] using lt_wf_ind. intros n fuel Hi Hfuel.
  pose proof (take_drop_middle _ _ _ Hi) as Hsplit. symmetry in Hsplit.
  destruct (Hord _ _ _ Hsplit) as [->|(n' & Hn' & Hin)].
  - exists []. split; [|done].
    pose proof (root_has_no_parent pending s Hinv) as Hnone.
    destruct fuel; simpl; by rewrite Hnone.
  - apply list_elem_of_lookup in Hn' as [j Hj].
    pose proof (lookup_lt_Some _ _ _ Hj) as Hjlt.
    rewrite length_take in Hjlt.
    rewrite lookup_take_lt in Hj by lia.
    assert (Hparent : parents s !! get_uid m (net n)
                      = Some (get_uid m (net n'))).
    { apply Hkeys; [by eapply list_elem_of_lookup_2|].
      unfold children. rewrite !elem_of_app. right. right.
      apply list_elem_of_fmap. eauto. }
    destruct fuel as [|fuel]; [lia|].
    destruct (IH j ltac:(lia) n' fuel Hj ltac:(lia)) as (l & Hl & Hlast).
    exists (get_uid m (net n') :: l). simpl walk_parents.
    rewrite Hparent, Hl. split; [done|].
    destruct l as [|x l]; [done|].
    change (List.last (x :: l) (get_uid m (net n)) = get_uid m (net (model m))).
    by rewrite (last_cons_default _ _ _ (get_uid m (net n'))).
Qed.

(** X3.  On a well-formed hierarchy, with fuel for as many iterations as
    the tree has networks, [get_parents] returns for every object of the
    tree a chain that starts with the object's uid and ends with the root's
    uid; for an object directly under the root the chain is just these
    two. *)
Theorem get_parents_reaches_root (fuel : nat) (s : Session) (o : obj) :
  indexed m t s →
  member m t o →
  (length (nets_of t) < fuel)%nat →
  ∃ mid s',
    get_parents m fuel (get_uid m o) s
    = (Ok (get_uid m o :: mid ++ [get_uid m (net (model m))]), s')
    ∧ indexed m t s'
    ∧ (o ∈ children m (model m) → mid = []).
Proof.
  intros [pending Hinv] Hmem Hfuel.
  assert (Hlen : ∀ pending' s', indexed_by m t pending' s' →
            (length (searched s') + length (flat_map nets_of pending')
             = length (nets_of t))%nat).
  { intros pending' s' (_ & _ & Hperm & _).
    apply Permutation_length in Hperm. by rewrite length_app in Hperm. }
  destruct (index_until_total m t Hwf fuel s pending o Hinv Hmem)
    as (s' & Hrun & [pending' Hinv']).
  { specialize (Hlen _ _ Hinv). lia. }
  unfold get_parents. rewrite (bind_ok _ _ _ _ _ Hrun). unfold_monad.
  destruct (index_until_ok m _ _ _ _ Hrun) as [v Hv].
  pose proof Hinv' as (_ & _ & _ & Hkeys & Hdom & _).
  destruct (Hdom _ _ Hv) as (n & o' & Hn & Ho' & Huid).
  assert (Hparent : parents s' !! get_uid m o = Some (get_uid m (net n))).
  { rewrite Huid. by apply Hkeys. }
  pose proof Hn as Hn0.
  apply list_elem_of_lookup in Hn as [i Hi].
  pose proof (lookup_lt_Some _ _ _ Hi) as Hilt.
  specialize (Hlen _ _ Hinv').
  destruct fuel as [|fuel]; [lia|].
  destruct (walk_parents_to_root pending' s' Hinv' i n fuel Hi ltac:(lia))
    as (l & Hl & Hlast).
  simpl. rewrite Hparent, Hl.
  assert (Hsplit : ∃ mid, get_uid m (net n) :: l
                          = (mid ++ [get_uid m (net (model m))])%list).
  { destruct l as [|x l _] using rev_ind.
    - exists []. simpl in *. by rewrite Hlast.
    - exists (get_uid m (net n) :: l). rewrite List.last_last in Hlast.
      by rewrite Hlast. }
  destruct Hsplit as [mid Hmid]. rewrite Hmid.
  exists mid, s'. split; [done|]. split; [by exists pending'|].
  intros Hchild.
  assert (n = model m) as ->.
  { destruct Hwf as (_ & Hroot & Hparents & _).
    destruct Hmem as (n_o & Hn_o & Ho).
    apply (Hparents n (model m) o' o); [ |  | done | done | done].
    - by apply (searched_in_tree m t pending' s').
    - rewrite <- Hroot. destruct t. apply list_elem_of_here. }
  pose proof (root_has_no_parent pending' s' Hinv') as Hnone.
  assert (l = []) as ->.
  { destruct fuel; simpl in Hl; rewrite Hnone in Hl; by injection Hl. }
  destruct mid as [|x [|y mid]]; [done| |]; simpl in Hmid.
  - discriminate.
  - injection Hmid as _ Hmid. by destruct mid.
Qed.

End RootedChains.

Lemma get_parents_reaches_root_witness :
  ∃ mid s',
    get_parents Demo.nested 8 "E3" (init Demo.nested ∅ ∅)
    = (Ok ("E3" :: mid ++ ["model"]), s').
Proof.
  destruct (get_parents_reaches_root Demo.nested Demo.nested_tree
              nested_well_formed 8 (init Demo.nested ∅ ∅) (ens 6))
    as (mid & s' & H & _).
  - apply indexed_init, nested_well_formed.
  - exists 5. split; [simpl; rewrite !elem_of_cons; auto|].
    vm_compute children. apply list_elem_of_here.
  - simpl. lia.
  - by exists mid, s'.
Defined.

(** ** What client messages and ticks leave alone *)

Section Frames.
Variable m : Model.

(** A property of the state that survives the four kinds of update the
    handlers make (the store, the queue, standard output, the file system)
    survives every message. *)
Lemma message_preserves (P : Session → Prop) :
  (∀ s c, P s → P (with_config c s)) →
  (∀ s q, P s → P (with_to_be_expanded q s)) →
  (∀ s o, P s → P (with_stdout o s)) →
  (∀ s d, P s → P (with_disk d s)) →
  ∀ msg, preserves P (message m msg).
Proof.
  intros Hcfg Hq Hout Hdisk.
  assert (Hitem : ∀ o, preserves P (config_item o)).
  { intros o. unfold config_item.
    destruct (cls o); first [apply preserves_ret | apply preserves_raise]. }
  assert (Hupd : ∀ o f, preserves P (update_entry o f)).
  { intros o f. apply preserves_modify. auto. }
  assert (Hap : ∀ o v, preserves P (assign_pos o v)).
  { intros o v. unfold assign_pos. apply preserves_bind; [done|].
    intros _. destruct v; [done|apply preserves_raise]. }
  assert (Has : ∀ o v, preserves P (assign_size o v)).
  { intros o v. unfold assign_size. apply preserves_bind; [done|].
    intros _. destruct v; [done|apply preserves_raise]. }
  assert (Hae : ∀ o b, preserves P (assign_expanded o b)).
  { intros o b. unfold assign_expanded. apply preserves_bind; [done|].
    intros _. destruct (cls o); first [done | apply preserves_raise]. }
  assert (Hsave : preserves P (save_config m)).
  { unfold save_config. destruct (filename m); [|apply preserves_raise].
    apply preserves_modify. auto. }
  assert (Hlook : ∀ uid, preserves P (lookup_uid uid)).
  { intros uid. unfold lookup_uid. destruct uid; try apply preserves_raise.
    apply preserves_bind; [apply preserves_get_state|].
    intros s0. destruct (uids s0 !! s);
      [apply preserves_ret|apply preserves_raise]. }
  assert (Hact : ∀ (c : M unit), preserves P c →
            preserves P (c ;; save_config m)).
  { intros c Hc. by apply preserves_bind. }
  assert (Hprint : ∀ p, preserves P (print p)).
  { intros p. apply preserves_modify. auto. }
  assert (He : ∀ uid, preserves P (act_expand m uid)).
  { intros uid. unfold act_expand. apply preserves_bind; [done|].
    intros net. apply preserves_bind; [apply preserves_modify; auto|].
    intros _. by apply Hact. }
  assert (Hc : ∀ uid, preserves P (act_collapse m uid)).
  { intros uid. unfold act_collapse. apply preserves_bind; [done|].
    intros net. by apply Hact. }
  assert (Hpan : ∀ x y, preserves P (act_pan m x y)).
  { intros x y. unfold act_pan. apply preserves_bind; [done|].
    intros _. by apply Hact. }
  assert (Hzoom : ∀ z x y, preserves P (act_zoom m z x y)).
  { intros z x y. unfold act_zoom. apply preserves_bind; [done|].
    intros _. apply preserves_bind; [done|]. intros _. by apply Hact. }
  assert (Hpos : ∀ uid x y, preserves P (act_pos m uid x y)).
  { intros uid x y. unfold act_pos. apply preserves_bind; [done|].
    intros o'. by apply Hact. }
  assert (Hsize : ∀ uid w h, preserves P (act_size m uid w h)).
  { intros uid w h. unfold act_size. apply preserves_bind; [done|].
    intros o'. by apply Hact. }
  intros msg. unfold message. destruct msg; try apply preserves_raise.
  destruct (dict_of kv !! "act") as [[]|];
    try apply preserves_raise; try done.
  unfold dispatch, call1, call2, call3.
  repeat case_decide; try apply preserves_raise;
    repeat (case_match; try apply preserves_raise); eauto.
Qed.

(** X4.  A client message, whatever it holds and however its handling ends,
    writes nothing to the client and touches neither the uid registry, the
    parent index and its queue, nor the random generator. *)
Theorem message_writes_no_reply (msg : json) (s : Session)
    (r : outcome unit) (s' : Session) :
  message m msg s = (r, s') →
  client s' = client s
  ∧ uids s' = uids s
  ∧ parents s' = parents s
  ∧ networks_to_search s' = networks_to_search s
  ∧ searched s' = searched s
  ∧ draws s' = draws s.
Proof.
  intros Hrun.
  apply (message_preserves
           (λ s', client s' = client s ∧ uids s' = uids s
                  ∧ parents s' = parents s
                  ∧ networks_to_search s' = networks_to_search s
                  ∧ searched s' = searched s ∧ draws s' = draws s)
           ltac:(done) ltac:(done) ltac:(done) ltac:(done) msg s r s');
    [cbv beta; by repeat split | exact Hrun].
Qed.

End Frames.

Lemma message_writes_no_reply_witness :
  let r := message Demo.nested
             (JObj [("act", JStr "collapse"); ("uid", JStr "A")])
             Demo.after_first_tick in
  client r.2 = client Demo.after_first_tick
  ∧ uids r.2 = uids Demo.after_first_tick.
Proof.
  intros r.
  destruct (message_writes_no_reply Demo.nested
              (JObj [("act", JStr "collapse"); ("uid", JStr "A")])
              Demo.after_first_tick r.1 r.2) as (Hc & Hu & _).
  - apply surjective_pairing.
  - by split.
Defined.

(** ** What a tick keeps *)

Lemma for_each_preserves_elem {A} (P : Session → Prop) (l : list A)
    (body : A → M unit) :
  (∀ x, x ∈ l → preserves P (body x)) → preserves P (for_each l body).
Proof.
  induction l as [|x l IH]; intros Hbody; simpl.
  - apply preserves_ret.
  - apply preserves_bind.
    + apply Hbody, list_elem_of_here.
    + intros _. apply IH. intros y Hy. by apply Hbody, list_elem_of_further.
Qed.

Section TickFrames.
Variable m : Model.

(** A property of the state that survives what a tick does to the state
    (writing the store, drawing random numbers, writing to the client,
    popping the queue, searching for a uid, registering a child of a network
    or a connection) survives every tick. *)
Lemma update_client_preserves (P : Session → Prop) :
  (∀ s c, P s → P (with_config c s)) →
  (∀ s n, P s → P (with_draws n s)) →
  (∀ s c, P s → P (with_client c s)) →
  (∀ s q, P s → P (with_to_be_expanded q s)) →
  (∀ fuel uid, preserves P (index_until m fuel uid)) →
  (∀ s o, registrable m o → P s →
     P (with_uids (<[get_uid m o := o]> (uids s)) s)) →
  (∀ s i, P s → P (with_uids (<[conn_uid i := conn i]> (uids s)) s)) →
  ∀ fuel, preserves P (update_client m fuel).
Proof.
  intros Hcfg Hdraws Hclient Hq Hidx Hobj Hconn fuel.
  assert (Hitem : ∀ o, preserves P (config_item o)).
  { intros o. unfold config_item.
    destruct (cls o); first [apply preserves_ret | apply preserves_raise]. }
  assert (Hupd : ∀ o f, preserves P (update_entry o f)).
  { intros o f. apply preserves_modify. auto. }
  assert (Hap : ∀ o v, preserves P (assign_pos o v)).
  { intros o v. unfold assign_pos. apply preserves_bind; [done|].
    intros _. destruct v; [done|apply preserves_raise]. }
  assert (Has : ∀ o v, preserves P (assign_size o v)).
  { intros o v. unfold assign_size. apply preserves_bind; [done|].
    intros _. destruct v; [done|apply preserves_raise]. }
  assert (Hae : ∀ o b, preserves P (assign_expanded o b)).
  { intros o b. unfold assign_expanded. apply preserves_bind; [done|].
    intros _. destruct (cls o); first [done | apply preserves_raise]. }
  assert (Hrp : ∀ o, preserves P (read_pos o)).
  { intros o. unfold read_pos. apply preserves_bind; [done|]. intros _.
    apply preserves_bind; [apply preserves_get_state|].
    intros ?. apply preserves_ret. }
  assert (Hrs : ∀ o, preserves P (read_size o)).
  { intros o. unfold read_size. apply preserves_bind; [done|]. intros _.
    apply preserves_bind; [apply preserves_get_state|].
    intros ?. apply preserves_ret. }
  assert (Hre : ∀ o, preserves P (read_expanded o)).
  { intros o. unfold read_expanded. apply preserves_bind; [done|]. intros _.
    destruct (cls o); try apply preserves_raise.
    apply preserves_bind; [apply preserves_get_state|].
    intros ?. apply preserves_ret. }
  assert (Hrand : preserves P (next_random m)).
  { unfold next_random. apply preserves_bind; [apply preserves_get_state|].
    intros s0. apply preserves_bind; [apply preserves_modify; auto|].
    intros _. apply preserves_ret. }
  assert (Hwrite : ∀ msg, preserves P (write msg)).
  { intros msg. apply preserves_modify. auto. }
  assert (Hcreate : ∀ o type parent, registrable m o →
            preserves P (create_object m o type parent)).
  { intros o type parent Ho. unfold create_object.
    apply preserves_bind; [done|]. intros p.
    apply preserves_bind.
    { destruct p; [apply preserves_ret|].
      apply preserves_bind; [done|]. intros r1.
      apply preserves_bind; [done|]. intros r2.
      apply preserves_bind; [done|]. intros _. apply preserves_ret. }
    intros pos. apply preserves_bind; [done|]. intros z.
    apply preserves_bind.
    { destruct z; [apply preserves_ret|].
      apply preserves_bind; [done|]. intros _. apply preserves_ret. }
    intros size. apply preserves_bind.
    { apply preserves_modify. auto. }
    intros _. apply preserves_bind; [|done].
    case_decide; [|apply preserves_ret].
    apply preserves_bind; [done|]. intros ?. apply preserves_ret. }
  assert (Hget : ∀ uid, preserves P (get_parents m fuel uid)).
  { intros uid. unfold get_parents. apply preserves_bind; [done|].
    intros _. apply preserves_bind; [apply preserves_get_state|].
    intros s0. destruct (walk_parents fuel (parents s0) uid);
      first [apply preserves_ret | apply preserves_raise
            | by intros ???? [= <- <-]]. }
  assert (Hcc : ∀ i parent, preserves P (create_connection m fuel i parent)).
  { intros i parent. unfold create_connection.
    apply preserves_bind; [apply preserves_modify; auto|]. intros _.
    apply preserves_bind; [done|]. intros ?.
    apply preserves_bind; [done|]. intros ?. done. }
  assert (Hpz : preserves P (send_pan_and_zoom m)).
  { unfold send_pan_and_zoom.
    apply preserves_bind; [done|]. intros ?.
    apply preserves_bind; [done|]. intros ?.
    apply preserves_bind; [done|]. intros _. done. }
  assert (Hexp : ∀ network, preserves P (expand_network m fuel network)).
  { intros [k n]. unfold expand_network. simpl.
    destruct k; try apply preserves_raise.
    assert (Hchild : ∀ o, o ∈ children m n → registrable m o)
      by (intros o Ho; right; eauto).
    apply preserves_bind.
    { apply for_each_preserves_elem. intros i Hi. apply Hcreate, Hchild.
      unfold children. rewrite !elem_of_app. left.
      apply list_elem_of_fmap. eauto. }
    intros _. apply preserves_bind.
    { apply for_each_preserves_elem. intros i Hi. apply Hcreate, Hchild.
      unfold children. rewrite !elem_of_app. right. left.
      apply list_elem_of_fmap. eauto. }
    intros _. apply preserves_bind.
    { apply for_each_preserves_elem. intros i Hi. apply Hcreate, Hchild.
      unfold children. rewrite !elem_of_app. right. right.
      apply list_elem_of_fmap. eauto. }
    intros _. apply preserves_bind; [|done].
    apply preserves_for_each. done. }
  unfold update_client. apply preserves_bind; [apply preserves_get_state|].
  intros s0. destruct (to_be_expanded s0) as [|network rest];
    [apply preserves_ret|].
  apply preserves_bind; [apply preserves_modify; auto|]. intros _.
  apply preserves_bind; [done|]. intros _.
  case_decide; [done|apply preserves_ret].
Qed.

Lemma run_preserves (P : Session → Prop) :
  (∀ fuel, preserves P (update_client m fuel)) →
  (∀ msg, preserves P (message m msg)) →
  ∀ events s, P s → P (run m events s).
Proof.
  intros Htick Hmsg events.
  induction events as [|e events IH]; intros s Hs; [done|].
  apply IH. destruct e as [fuel|msg]; simpl.
  - destruct (update_client m fuel s) as [r s'] eqn:E.
    by apply (Htick fuel s r s').
  - destruct (message m msg s) as [r s'] eqn:E.
    by apply (Hmsg msg s r s').
Qed.

End TickFrames.

(** ** Invariants of a whole session *)

Section SessionInvariants.
Variable m : Model.

(** X5.  Nothing in a session removes a uid from the registry: a uid that
    is registered stays registered through every tick and every message,
    however each of them ends. *)
Theorem registry_only_grows (events : list event) (s : Session)
    (u : string) :
  is_Some (uids s !! u) → is_Some (uids (run m events s) !! u).
Proof.
  assert (Hins : ∀ (reg : gmap string obj) k v,
            is_Some (reg !! u) → is_Some (<[k := v]> reg !! u)).
  { intros reg k v H. destruct (decide (k = u)) as [->|Hne].
    - rewrite lookup_insert_eq. eauto.
    - by rewrite lookup_insert_ne. }
  apply (run_preserves m (λ s, is_Some (uids s !! u))).
  - apply update_client_preserves; try done.
    + intros fuel uid s0 r s' H0 Hrun.
      apply index_until_frame in Hrun as (_ & -> & _). done.
    + intros s0 o _. apply Hins.
    + intros s0 i. apply Hins.
  - intros msg. by apply message_preserves.
Qed.

Lemma registered_registrable (events : list event)
    (c : gmap obj LayoutEntry) (d : gmap string (list cfg_line))
    (u : string) (o : obj) :
  uids (run m events (init m c d)) !! u = Some o → registrable m o.
Proof.
  revert u o.
  apply (run_preserves m (λ s, ∀ u o, uids s !! u = Some o → registrable m o)).
  - apply update_client_preserves; try done.
    + intros fuel uid s0 r s' H0 Hrun.
      apply index_until_frame in Hrun as (_ & -> & _). done.
    + intros s0 o Ho H0 u o'. simpl.
      destruct (decide (get_uid m o = u)) as [->|Hne].
      * rewrite lookup_insert_eq. by intros [= <-].
      * rewrite lookup_insert_ne by done. apply H0.
    + intros s0 i H0 u o'. simpl.
      destruct (decide (conn_uid i = u)) as [->|Hne].
      * rewrite lookup_insert_eq. intros [= <-]. by left.
      * rewrite lookup_insert_ne by done. apply H0.
  - intros msg. by apply message_preserves.
  - intros u o. simpl. by rewrite lookup_empty.
Qed.

(** X6.  Only children of networks and connections are ever registered:
    every object the registry of a session holds was put there by the
    expansion of the network that lists it, or is a connection. *)
Theorem registry_holds_children (events : list event)
    (c : gmap obj LayoutEntry) (d : gmap string (list cfg_line))
    (u : string) (o : obj) :
  uids (run m events (init m c d)) !! u = Some o → registrable m o.
Proof. apply registered_registrable. Qed.

End SessionInvariants.

Lemma registry_only_grows_witness :
  is_Some (uids (run Demo.nested
                   [Message (JObj [("act", JStr "expand"); ("uid", JStr "A")]);
                    Tick 8]
                   Demo.after_first_tick) !! "E").
Proof.
  apply (registry_only_grows Demo.nested _ Demo.after_first_tick "E").
  vm_compute. eauto.
Defined.

Lemma registry_holds_children_witness :
  registrable Demo.nested (net 3).
Proof.
  apply (registry_holds_children Demo.nested [Tick 8] ∅ ∅ "A" (net 3)).
  vm_compute. reflexivity.
Defined.

(** ** The parent index over a whole session *)

Section IndexInvariants.
Variable m : Model.
Variable t : tree.

(** X7.  On a hierarchy whose networks form a tree, each listed once, no
    session of ticks and client messages, whatever they are and however
    they end, takes a network from the search queue twice or searches a
    network outside the tree. *)
Theorem tree_session_never_repeats (events : list event)
    (c : gmap obj LayoutEntry) (d : gmap string (list cfg_line)) :
  shaped m t →
  root_of t = model m →
  NoDup (nets_of t) →
  NoDup (searched (run m events (init m c d)))
  ∧ ∀ n, n ∈ searched (run m events (init m c d)) → n ∈ nets_of t.
Proof.
  intros Hshape Hroot Hnodup.
  assert (Hext : ∀ s s', parents s' = parents s →
            networks_to_search s' = networks_to_search s →
            searched s' = searched s → searching m t s → searching m t s').
  { intros s s' _ Hq Hs (pending & H1 & H2 & H3). exists pending.
    by rewrite Hq, Hs. }
  assert (Hinv : searching m t (run m events (init m c d))).
  { apply (run_preserves m (searching m t)).
    - apply update_client_preserves;
        try (intros; by eapply Hext; [..|eassumption]).
      intros fuel uid s r s' H0 Hrun.
      by apply (index_until_searching m t fuel uid s r s').
    - intros msg. apply message_preserves;
        intros; by eapply Hext; [..|eassumption].
    - by apply searching_init. }
  destruct Hinv as (pending & _ & _ & Hperm).
  rewrite <- Hperm in Hnodup. split; [by apply NoDup_app in Hnodup as [? _]|].
  intros n Hn. rewrite <- Hperm. apply elem_of_app. by left.
Qed.

Hypothesis Hwf : well_formed m t.

Lemma index_until_indexed (fuel : nat) : ∀ uid s r s',
  indexed m t s → index_until m fuel uid s = (r, s') → indexed m t s'.
Proof.
  induction fuel as [|fuel IH]; intros uid s r s' Hs; simpl;
    destruct (parents s !! uid); try by intros [= <- <-].
  destruct (networks_to_search s) as [|n rest] eqn:Hq;
    [by intros [= <- <-]|].
  apply IH. destruct Hs as [pending Hs].
  destruct (search_network_indexed m t Hwf pending s n rest Hs Hq)
    as (kids & pending' & _ & Hs').
  by exists (pending' ++ kids)%list.
Qed.

Lemma indexed_run (events : list event) c d :
  indexed m t (run m events (init m c d)).
Proof.
  apply (run_preserves m (indexed m t)).
  - apply update_client_preserves;
      try (intros; by eapply (indexed_ext m t); [..|eassumption]).
    intros fuel uid s r s' H0 Hrun.
    by apply (index_until_indexed fuel uid s r s').
  - intros msg. apply message_preserves;
      intros; by eapply (indexed_ext m t); [..|eassumption].
  - by apply indexed_init.
Qed.

(** X8.  On a well-formed hierarchy the parent index of a session never
    holds a wrong entry: whatever ticks and messages came before, a uid that
    has a parent in the index is the uid of an object of the tree, and its
    parent is the uid of the network that lists the object. *)
Theorem parent_index_is_correct (events : list event)
    (c : gmap obj LayoutEntry) (d : gmap string (list cfg_line))
    (uid p : string) :
  parents (run m events (init m c d)) !! uid = Some p →
  ∃ n o, n ∈ nets_of t ∧ o ∈ children m n
         ∧ uid = get_uid m o ∧ p = get_uid m (net n).
Proof.
  intros Hp. destruct (indexed_run events c d) as [pending Hinv].
  pose proof Hinv as (_ & _ & _ & Hkeys & Hdom & _).
  destruct (Hdom uid p Hp) as (n & o & Hn & Ho & ->).
  exists n, o. split; [by eapply searched_in_tree|]. split; [done|].
  split; [done|]. rewrite (Hkeys n o Hn Ho) in Hp. by injection Hp.
Qed.

End IndexInvariants.

Lemma tree_session_never_repeats_witness :
  NoDup (searched (run Demo.nested
                     [Tick 8;
                      Message (JObj [("act", JStr "expand"); ("uid", JStr "A")]);
                      Tick 8]
                     (init Demo.nested ∅ ∅))).
Proof.
  apply (tree_session_never_repeats Demo.nested Demo.nested_tree).
  - repeat (constructor; try reflexivity).
  - reflexivity.
  - apply (bool_decide_eq_true_1 _). vm_compute. reflexivity.
Defined.

Lemma parent_index_is_correct_witness :
  ∃ n o, n ∈ nets_of Demo.nested_tree ∧ o ∈ children Demo.nested n
         ∧ "E3" = get_uid Demo.nested o
         ∧ "B" = get_uid Demo.nested (net n).
Proof.
  apply (parent_index_is_correct Demo.nested Demo.nested_tree
           nested_well_formed [Tick 8] ∅ ∅ "E3" "B").
  vm_compute. reflexivity.
Defined.

(** ** The chains of a connection on a well-formed hierarchy *)

Lemma linked_parents (p : gmap string string) (top : string) :
  ∀ l, linked p (l ++ [top]) → ∀ x, x ∈ l → is_Some (p !! x).
Proof.
  induction l as [|a l IH]; intros Hl x Hx; [by apply elem_of_nil in Hx|].
  simpl in Hl. destruct (l ++ [top])%list as [|b rest] eqn:E.
  { by destruct l. }
  destruct Hl as [Ha Hrest].
  apply elem_of_cons in Hx as [->|Hx]; [by rewrite Ha|].
  by apply IH.
Qed.

Lemma linked_last_link (p : gmap string string) (top : string) :
  ∀ l a, linked p (a :: l ++ [top]) →
         ∃ b, b ∈ a :: l ∧ p !! b = Some top.
Proof.
  induction l as [|x l IH]; intros a Hl.
  - simpl in Hl. destruct Hl as [Ha _]. exists a.
    split; [apply list_elem_of_here|done].
  - destruct Hl as [_ Hrest].
    destruct (IH x Hrest) as (b & Hb & Hp).
    exists b. split; [by apply list_elem_of_further|done].
Qed.

Section ConnectionChains.
Variable m : Model.
Variable t : tree.
Hypothesis Hwf : well_formed m t.

Lemma get_parents_linked (fuel : nat) (uid : string) s chain s' :
  get_parents m fuel uid s = (Ok chain, s') → linked (parents s') chain.
Proof.
  unfold get_parents. intros H.
  apply bind_ok_inv in H as ([] & s1 & _ & H). unfold_monad.
  destruct (walk_parents fuel (parents s1) uid) as [l| |] eqn:W;
    try discriminate.
  injection H as <- <-. by apply (walk_parents_linked fuel).
Qed.

(** In an index built from the tree, a path of the index climbs the tree. *)
Lemma linked_ascending pending s :
  indexed_by m t pending s →
  ∀ chain, linked (parents s) chain → ascending m t chain.
Proof.
  intros Hinv. pose proof Hinv as (_ & _ & _ & Hkeys & Hdom & _).
  induction chain as [|a chain IH]; [done|].
  destruct chain as [|b chain]; [done|].
  intros [Ha Hrest]. split; [|by apply IH].
  destruct (Hdom _ _ Ha) as (n & o & Hn & Ho & ->).
  exists n, o. split; [by eapply searched_in_tree|]. split; [done|].
  split; [done|]. rewrite (Hkeys n o Hn Ho) in Ha. by injection Ha.
Qed.

(** A key's parent that has no parent itself is the root's uid. *)
Lemma top_is_root pending s a top :
  indexed_by m t pending s →
  parents s !! a = Some top → parents s !! top = None →
  top = get_uid m (net (model m)).
Proof.
  intros Hinv Ha Htop.
  pose proof Hinv as (_ & _ & _ & Hkeys & Hdom & Hord & _).
  destruct (Hdom _ _ Ha) as (n & o & Hn & Ho & ->).
  rewrite (Hkeys n o Hn Ho) in Ha. injection Ha as <-.
  apply list_elem_of_split in Hn as (l1 & l2 & Hsplit).
  destruct (Hord _ _ _ Hsplit) as [->|(n' & Hn' & Hin)]; [done|].
  assert (Hs : n' ∈ searched s).
  { rewrite Hsplit. apply elem_of_app. by left. }
  assert (Hc : net n ∈ children m n').
  { unfold children. rewrite !elem_of_app. right. right.
    apply list_elem_of_fmap. eauto. }
  rewrite (Hkeys n' (net n) Hs Hc) in Htop. discriminate.
Qed.

(** [get_parents] on an object of the tree: the chain climbs the tree from
    the object's uid to the root's uid, which occurs only at its end. *)
Lemma get_parents_rooted (fuel : nat) s o :
  indexed m t s → member m t o → (length (nets_of t) < fuel)%nat →
  ∃ mid s',
    get_parents m fuel (get_uid m o) s
    = (Ok (get_uid m o :: mid ++ [get_uid m (net (model m))]), s')
    ∧ indexed m t s'
    ∧ rooted_chain m t o mid.
Proof.
  intros Hinv Hmem Hfuel.
  destruct (get_parents_total m t Hwf fuel s o Hinv Hmem Hfuel)
    as (chain & s' & Hrun & [pending Hinv']).
  pose proof (get_parents_linked _ _ _ _ _ Hrun) as Hlinked.
  destruct (get_parents_ok m _ _ _ _ _ Hrun) as (mid & top & -> & Htop).
  destruct (linked_last_link _ _ _ _ Hlinked) as (b & Hb & Hbtop).
  assert (top = get_uid m (net (model m))) as ->
    by by eapply top_is_root.
  exists mid, s'. split; [done|]. split; [by exists pending|].
  split; [by eapply linked_ascending|].
  intros Hin.
  change (get_uid m o :: mid ++ [get_uid m (net (model m))])%list
    with ((get_uid m o :: mid) ++ [get_uid m (net (model m))])%list
    in Hlinked.
  destruct (linked_parents _ _ _ Hlinked _ Hin) as [p Hp]. congruence.
Qed.

Lemma create_connection_rooted (fuel i : nat) parent s :
  indexed m t s →
  member m t (pre_obj m i) → member m t (post_obj m i) →
  (length (nets_of t) < fuel)%nat →
  ∃ pre_mid post_mid s',
    create_connection m fuel i parent s = (Ok tt, s')
    ∧ client s' = (client s
                   ++ [connection_message m i parent pre_mid post_mid])%list
    ∧ indexed m t s'
    ∧ rooted_chain m t (pre_obj m i) pre_mid
    ∧ rooted_chain m t (post_obj m i) post_mid.
Proof.
  intros Hinv Hpre Hpost Hfuel. unfold create_connection.
  unfold mbind at 1, M_bind at 1. unfold register at 1, modify at 1.
  cbv beta iota.
  set (s0 := with_uids _ s).
  assert (Hinv0 : indexed m t s0) by by apply (indexed_ext m t s s0).
  assert (C0 : client s0 = client s) by done.
  clearbody s0.
  destruct (get_parents_rooted fuel s0 _ Hinv0 Hpre Hfuel)
    as (pre_mid & s1 & R1 & Hinv1 & Hc1).
  rewrite (bind_ok _ _ _ _ _ R1).
  destruct (get_parents_rooted fuel s1 _ Hinv1 Hpost Hfuel)
    as (post_mid & s2 & R2 & Hinv2 & Hc2).
  rewrite (bind_ok _ _ _ _ _ R2).
  apply get_parents_frame in R1 as (_ & _ & C1).
  apply get_parents_frame in R2 as (_ & _ & C2).
  rewrite !removelast_cons_snoc.
  unfold write. unfold_monad.
  exists pre_mid, post_mid. eexists. split; [reflexivity|].
  split; [simpl; by rewrite C2, C1, C0|].
  split; [by apply (indexed_ext m t s2)|done].
Qed.

Lemma connection_loop_rooted (fuel : nat) parent (l : list nat) : ∀ s,
  indexed m t s →
  (∀ i, i ∈ l → member m t (pre_obj m i) ∧ member m t (post_obj m i)) →
  (length (nets_of t) < fuel)%nat →
  ∃ conns s',
    for_each l (λ i, create_connection m fuel i parent) s = (Ok tt, s')
    ∧ client s' = (client s ++ conns)%list
    ∧ indexed m t s'
    ∧ config s' = config s
    ∧ Forall2 (λ i msg, ∃ pre_mid post_mid,
                 msg = connection_message m i parent pre_mid post_mid
                 ∧ rooted_chain m t (pre_obj m i) pre_mid
                 ∧ rooted_chain m t (post_obj m i) post_mid) l conns.
Proof.
  induction l as [|i l IH]; intros s Hinv Hends Hfuel; simpl.
  - exists [], s. rewrite app_nil_r. by repeat split.
  - destruct (Hends i (list_elem_of_here _ _)) as [Hpre Hpost].
    destruct (create_connection_rooted fuel i parent s Hinv Hpre Hpost Hfuel)
      as (pre_mid & post_mid & s1 & R1 & C1 & Hinv1 & Hc1 & Hc2).
    destruct (IH s1 Hinv1) as (conns & s' & R & C & Hinv' & Hcfg & Hall);
      [|done|].
    { intros j Hj. apply Hends. by apply list_elem_of_further. }
    pose proof (create_connection_frame m _ _ _ _ _ _ R1) as [(Hcfg1 & _) _].
    exists (connection_message m i parent pre_mid post_mid :: conns), s'.
    rewrite (bind_ok _ _ _ _ _ R1).
    split; [done|]. split; [by rewrite C, C1, <- app_assoc|].
    split; [done|]. split; [congruence|].
    constructor; [|done]. by exists pre_mid, post_mid.
Qed.

Lemma object_loop_only (mk : nat → obj) (type : string)
    (parent : option string) (l : list nat) :
  (∀ i, cls (mk i) ≠ Connection) →
  (type = "net" → ∀ i, cls (mk i) = Network) →
  ∀ s, ∃ s' objs,
    for_each l (λ i, create_object m (mk i) type parent) s = (Ok tt, s')
    ∧ client s' = (client s ++ objs)%list
    ∧ Forall is_create_object objs
    ∧ parents s' = parents s
    ∧ networks_to_search s' = networks_to_search s
    ∧ searched s' = searched s.
Proof.
  intros Hcls Hnet. induction l as [|i l IH]; intros s.
  - exists s, []. simpl. rewrite app_nil_r. by repeat split.
  - assert (Hnet' : type = "net" → cls (mk i) = Network) by auto.
    destruct (create_object_ok m (mk i) type parent s (Hcls i) Hnet')
      as (s1 & Hrun & _ & _ & _ & Hcl & _ & Hp & Hn & Hs & _).
    destruct (IH s1) as (s' & objs & Hrest & Hcl' & Hall & Hp' & Hn' & Hs').
    eexists s', (_ :: objs). simpl for_each.
    rewrite (bind_ok _ _ _ _ _ Hrun).
    split; [exact Hrest|]. split; [by rewrite Hcl', Hcl, <- app_assoc|].
    split; [constructor; [by eexists|done]|].
    repeat split; congruence.
Qed.

(** C1, as the code has it.  On a well-formed hierarchy, in a state whose
    parent index was built by the session, with fuel for as many iterations
    as the tree has networks, the expansion of a network of the tree
    returns, and after the "create object" messages of the children it has
    written exactly one "create connection" message for each connection of
    the network, in their order.  The [pre] chain of that message is the
    uid of the connection's [pre] endpoint itself followed by the uids of
    the networks that hold it, from the nearest one outward.  With the
    root's uid appended it is the full chain that climbs from the endpoint
    to the root: the root's uid is the element [[:-1]] left out, and it
    occurs nowhere in the chain that is sent.  The same holds for [post]. *)
Theorem connection_chains_keep_endpoint (fuel n : nat) (s : Session) :
  indexed m t s →
  n ∈ nets_of t →
  (length (nets_of t) < fuel)%nat →
  ∃ objs conns s',
    expand_network m fuel (net n) s = (Ok tt, s')
    ∧ client s' = (client s ++ objs ++ conns)%list
    ∧ Forall is_create_object objs
    ∧ Forall2 (λ i msg, ∃ pre_mid post_mid,
                 msg = connection_message m i (parent_field m (net n))
                         pre_mid post_mid
                 ∧ rooted_chain m t (pre_obj m i) pre_mid
                 ∧ rooted_chain m t (post_obj m i) post_mid)
        (connections m n) conns.
Proof.
  intros Hinv Hn Hfuel.
  unfold expand_network. fold (parent_field m (net n)).
  set (parent := parent_field m (net n)). simpl.
  destruct (object_loop_only ens "ens" parent (ensembles m n)
              ltac:(done) ltac:(done) s)
    as (s1 & new1 & R1 & C1 & A1 & P1 & N1 & H1).
  destruct (object_loop_only node "node" parent (nodes m n)
              ltac:(done) ltac:(done) s1)
    as (s2 & new2 & R2 & C2 & A2 & P2 & N2 & H2).
  destruct (object_loop_only net "net" parent (networks m n)
              ltac:(done) ltac:(done) s2)
    as (s3 & new3 & R3 & C3 & A3 & P3 & N3 & H3).
  rewrite (bind_ok _ _ _ _ _ R1), (bind_ok _ _ _ _ _ R2).
  rewrite (bind_ok _ _ _ _ _ R3).
  assert (Hinv3 : indexed m t s3).
  { apply (indexed_ext m t s); [congruence..|done]. }
  pose proof Hwf as (_ & _ & _ & _ & Hends).
  destruct (connection_loop_rooted fuel parent (connections m n) s3 Hinv3
              (λ i, Hends n i Hn) Hfuel)
    as (conns & s4 & R4 & C4 & _ & _ & Hall).
  rewrite (bind_ok _ _ _ _ _ R4).
  unfold assign_expanded, config_item, update_entry. unfold_monad. simpl.
  exists (new1 ++ new2 ++ new3)%list, conns. eexists.
  split; [reflexivity|]. simpl.
  split; [by rewrite C4, C3, C2, C1, <- !app_assoc|].
  split; [by repeat apply Forall_app_2|done].
Qed.

End ConnectionChains.

Lemma connection_chains_keep_endpoint_witness :
  ∃ objs conns s',
    expand_network Demo.nested 8 (net 0) (init Demo.nested ∅ ∅) = (Ok tt, s')
    ∧ client s' = (objs ++ conns)%list
    ∧ length conns = 1%nat.
Proof.
  destruct (connection_chains_keep_endpoint Demo.nested Demo.nested_tree
              nested_well_formed 8 0 (init Demo.nested ∅ ∅))
    as (objs & conns & s' & R & C & _ & Hall).
  - apply indexed_init, nested_well_formed.
  - simpl. apply list_elem_of_here.
  - simpl. lia.
  - exists objs, conns, s'. split; [exact R|]. split; [exact C|].
    apply Forall2_length in Hall. simpl in Hall. symmetry. exact Hall.
Defined.

(** ** Moving, resizing, panning and zooming *)

Section Layout.
Variable m : Model.

Lemma lookup_uid_ok (u : string) (o : obj) (s : Session) :
  uids s !! u = Some o → lookup_uid (JStr u) s = (Ok o, s).
Proof. intros H. unfold lookup_uid. unfold_monad. by rewrite H. Qed.

Lemma act_pos_ok (u f : string) (o : obj) (x y : json) (s : Session) :
  uids s !! u = Some o → cls o ≠ Connection → filename m = Some f →
  act_pos m (JStr u) x y s
  = (Ok tt, saved f (<[o := set_pos (Some (x, y)) (entry (config s) o)]>
                       (config s)) s).
Proof.
  intros Hu Hcls Hf. unfold act_pos.
  rewrite (bind_ok _ _ _ _ _ (lookup_uid_ok u o s Hu)).
  unfold assign_pos, config_item, update_entry, save_config. rewrite Hf.
  unfold_monad. by destruct o as [[] i].
Qed.

Lemma act_size_ok (u f : string) (o : obj) (w h : json) (s : Session) :
  uids s !! u = Some o → cls o ≠ Connection → filename m = Some f →
  act_size m (JStr u) w h s
  = (Ok tt, saved f (<[o := set_size (Some (w, h)) (entry (config s) o)]>
                       (config s)) s).
Proof.
  intros Hu Hcls Hf. unfold act_size.
  rewrite (bind_ok _ _ _ _ _ (lookup_uid_ok u o s Hu)).
  unfold assign_size, config_item, update_entry, save_config. rewrite Hf.
  unfold_monad. by destruct o as [[] i].
Qed.

Lemma saved_saved (f : string) (c c' : gmap obj LayoutEntry) (s : Session) :
  saved f c' (saved f c s) = saved f c' s.
Proof. unfold saved. simpl. by rewrite insert_insert_eq. Qed.

(** X9.  Moving one registered object and resizing another (or the same
    one) can be done in either order: both orders end normally in the same
    state, the file included. *)
Theorem act_pos_size_commute (u1 u2 f : string) (o1 o2 : obj)
    (x y w h : json) (s : Session) :
  uids s !! u1 = Some o1 → cls o1 ≠ Connection →
  uids s !! u2 = Some o2 → cls o2 ≠ Connection →
  filename m = Some f →
  ∃ s', (act_pos m (JStr u1) x y ;; act_size m (JStr u2) w h) s = (Ok tt, s')
        ∧ (act_size m (JStr u2) w h ;; act_pos m (JStr u1) x y) s
          = (Ok tt, s')
        ∧ pos (entry (config s') o1) = Some (x, y)
        ∧ size (entry (config s') o2) = Some (w, h).
Proof.
  intros Hu1 Hc1 Hu2 Hc2 Hf.
  rewrite (bind_ok _ _ _ _ _ (act_pos_ok u1 f o1 x y s Hu1 Hc1 Hf)).
  rewrite (bind_ok _ _ _ _ _ (act_size_ok u2 f o2 w h s Hu2 Hc2 Hf)).
  rewrite (act_size_ok u2 f o2 w h (saved f _ s) Hu2 Hc2 Hf).
  rewrite (act_pos_ok u1 f o1 x y (saved f _ s) Hu1 Hc1 Hf).
  rewrite !saved_saved. simpl.
  assert (Heq : <[o2 := set_size (Some (w, h))
                   (entry (<[o1 := set_pos (Some (x, y)) (entry (config s) o1)]>
                             (config s)) o2)]>
                  (<[o1 := set_pos (Some (x, y)) (entry (config s) o1)]>
                     (config s))
                = <[o1 := set_pos (Some (x, y))
                     (entry (<[o2 := set_size (Some (w, h))
                                 (entry (config s) o2)]> (config s)) o1)]>
                    (<[o2 := set_size (Some (w, h)) (entry (config s) o2)]>
                       (config s))).
  { destruct (decide (o1 = o2)) as [<-|Hne].
    - by rewrite !entry_insert_eq, !insert_insert_eq.
    - rewrite !entry_insert_ne by done. by apply insert_insert_ne. }
  eexists. split; [reflexivity|]. split; [by rewrite Heq|]. simpl.
  split.
  - rewrite Heq, entry_insert_eq. done.
  - rewrite entry_insert_eq. done.
Qed.

(** X10.  A successful [pos] changes the position of the object named and
    nothing else in the store: the object's size and flag and every other
    entry are as before; and a second [pos] on the same uid overrides the
    first. *)
Theorem act_pos_sets_only_position (u f : string) (o : obj)
    (x y x' y' : json) (s : Session) :
  uids s !! u = Some o → cls o ≠ Connection → filename m = Some f →
  ∃ s1, act_pos m (JStr u) x y s = (Ok tt, s1)
    ∧ entry (config s1) o = set_pos (Some (x, y)) (entry (config s) o)
    ∧ (∀ o', o' ≠ o → config s1 !! o' = config s !! o')
    ∧ to_be_expanded s1 = to_be_expanded s
    ∧ (act_pos m (JStr u) x y ;; act_pos m (JStr u) x' y') s
      = act_pos m (JStr u) x' y' s.
Proof.
  intros Hu Hc Hf. eexists. split; [by apply act_pos_ok|].
  split; [simpl; by rewrite entry_insert_eq|].
  split; [intros o' Hne; simpl; by rewrite lookup_insert_ne|].
  split; [done|].
  rewrite (bind_ok _ _ _ _ _ (act_pos_ok u f o x y s Hu Hc Hf)).
  rewrite (act_pos_ok u f o x' y' (saved f _ s) Hu Hc Hf).
  rewrite (act_pos_ok u f o x' y' s Hu Hc Hf), saved_saved. simpl.
  by rewrite entry_insert_eq, insert_insert_eq.
Qed.

(** X11.  Whatever [zoom] and [pan] leave, the next report of the viewport
    carries it: after [zoom(scale, x, y)] the pan sent is [(x, y)] and the
    zoom sent is [scale]; after [pan(x, y)] the pan sent is [(x, y)] and the
    zoom is what it was.  This holds even when the action itself ends with
    the error of [save_config]. *)
Theorem viewport_is_reported (scale x y : json) (s : Session) :
  (let s1 := (act_zoom m scale x y s).2 in
   send_pan_and_zoom m s1
   = (Ok tt, with_client (client s1 ++ [Pan (x, y); Zoom scale]) s1))
  ∧ (let s1 := (act_pan m x y s).2 in
     ∃ z, send_pan_and_zoom m s = (Ok tt, with_client
                                     (client s ++ [Pan
                                        (default (JNum 0, JNum 0)
                                           (pos (entry (config s)
                                                   (net (model m)))));
                                        Zoom z]) s)
          ∧ send_pan_and_zoom m s1
            = (Ok tt, with_client (client s1 ++ [Pan (x, y); Zoom z]) s1)).
Proof.
  unfold act_zoom, act_pan, print, assign_size, assign_pos, config_item,
    update_entry, save_config, send_pan_and_zoom, read_pos, read_size, write.
  unfold_monad. simpl.
  split.
  - destruct (filename m); simpl; rewrite !entry_insert_eq; simpl;
      unfold with_client; simpl; by rewrite <- app_assoc.
  - eexists. split.
    + unfold with_client. simpl. rewrite <- app_assoc. simpl.
      destruct (pos (entry (config s) (net (model m)))); reflexivity.
    + destruct (filename m); simpl; rewrite !entry_insert_eq; simpl;
        unfold with_client; simpl; by rewrite <- app_assoc.
Qed.

End Layout.

Lemma act_pos_size_commute_witness :
  ∃ s', (act_pos Demo.nested (JStr "E") (JNum 3) (JNum 4) ;;
         act_size Demo.nested (JStr "A") (JNum 1) (JNum 2))
          Demo.after_first_tick = (Ok tt, s')
        ∧ (act_size Demo.nested (JStr "A") (JNum 1) (JNum 2) ;;
           act_pos Demo.nested (JStr "E") (JNum 3) (JNum 4))
            Demo.after_first_tick = (Ok tt, s').
Proof.
  destruct (act_pos_size_commute Demo.nested "E" "A" "demo" (ens 1) (net 3)
              (JNum 3) (JNum 4) (JNum 1) (JNum 2) Demo.after_first_tick)
    as (s' & H1 & H2 & _);
    [by vm_compute | done | by vm_compute | done | done |].
  exists s'. split; [exact H1|exact H2].
Defined.

Lemma act_pos_sets_only_position_witness :
  ∃ s1, act_pos Demo.nested (JStr "E") (JNum 3) (JNum 4) Demo.after_first_tick
        = (Ok tt, s1)
        ∧ to_be_expanded s1 = to_be_expanded Demo.after_first_tick.
Proof.
  destruct (act_pos_sets_only_position Demo.nested "E" "demo" (ens 1)
              (JNum 3) (JNum 4) (JNum 5) (JNum 6) Demo.after_first_tick)
    as (s1 & H1 & _ & _ & H4 & _); [by vm_compute | done | done |].
  exists s1. split; [exact H1|exact H4].
Defined.

(** ** The configuration file *)

Section File.
Variable m : Model.

Lemma save_config_in_sync (s s' : Session) :
  save_config m s = (Ok tt, s') → in_sync m s'.
Proof.
  unfold save_config, in_sync. destruct (filename m) as [f|]; [|done].
  unfold_monad. intros [= <-]. exists f. split; [done|].
  simpl. by rewrite lookup_insert_eq.
Qed.

(** X12.  Every client action that ends normally leaves the configuration
    file in step with the store: the file holds exactly what [dumps] gives
    for the store and registry the action left. *)
Theorem successful_action_saves (kv : list (string * json))
    (action : string) (s s' : Session) :
  dict_of kv !! "act" = Some (JStr action) →
  message m (JObj kv) s = (Ok tt, s') →
  in_sync m s'.
Proof.
  intros Hact. unfold message. rewrite Hact.
  unfold dispatch, call1, call2, call3.
  repeat case_decide; try discriminate;
    repeat (case_match; try discriminate);
    unfold act_expand, act_collapse, act_pan, act_zoom, act_pos, act_size;
    intros Hrun;
    repeat (apply bind_ok_inv in Hrun as (? & ? & _ & Hrun));
    by apply save_config_in_sync in Hrun.
Qed.

Lemma dumps_item_ext (c c' : gmap obj LayoutEntry) (it : string * obj) :
  entry c it.2 = entry c' it.2 → dumps_item c it = dumps_item c' it.
Proof. destruct it as [uid o]. simpl. by intros ->. Qed.

Lemma dumps_ext (c c' : gmap obj LayoutEntry) (u : gmap string obj) :
  (∀ uid o, u !! uid = Some o → entry c o = entry c' o) →
  dumps c u = dumps c' u.
Proof.
  intros Hagree. unfold dumps.
  assert (Hall : Forall (λ it, entry c it.2 = entry c' it.2) (sorted_items u)).
  { apply Forall_forall. intros [uid o] Hit. apply (Hagree uid).
    unfold sorted_items in Hit. rewrite merge_sort_Permutation in Hit.
    by apply elem_of_map_to_list in Hit. }
  induction Hall as [|it l Hit _ IH]; simpl; [done|].
  by rewrite (dumps_item_ext c c' it Hit), IH.
Qed.

(** X13.  [dumps] looks at the entries of registered objects only: two
    stores that agree on every object of the registry are written as the
    same file. *)
Theorem dumps_reads_registered_only (c c' : gmap obj LayoutEntry)
    (u : gmap string obj) :
  (∀ uid o, u !! uid = Some o → entry c o = entry c' o) →
  dumps c u = dumps c' u.
Proof. apply dumps_ext. Qed.

(** X14.  The viewport never reaches the file.  When the root is listed by
    no network, then at any point of any session a [pan] or a [zoom] that
    ends normally rewrites the file with exactly what the store and registry
    gave before the action: the pan and zoom it stored are not in it. *)
Theorem viewport_is_never_saved (f : string) (events : list event)
    (c : gmap obj LayoutEntry) (d : gmap string (list cfg_line))
    (scale x y : json) :
  (∀ n, model m ∉ networks m n) →
  filename m = Some f →
  let s := run m events (init m c d) in
  disk (act_pan m x y s).2 !! (f ++ ".cfg")
  = Some (dumps (config s) (uids s))
  ∧ disk (act_zoom m scale x y s).2 !! (f ++ ".cfg")
    = Some (dumps (config s) (uids s))
  ∧ (act_pan m x y s).1 = Ok tt
  ∧ (act_zoom m scale x y s).1 = Ok tt.
Proof.
  intros Hroot Hf s.
  assert (Hreg : ∀ uid o, uids s !! uid = Some o → o ≠ net (model m)).
  { intros uid o Ho ->.
    destruct (registered_registrable m events c d uid _ Ho)
      as [Hc|[n Hn]]; [done|].
    unfold children in Hn. rewrite !elem_of_app in Hn.
    destruct Hn as [Hn|[Hn|Hn]];
      apply list_elem_of_fmap in Hn as (i & Heq & Hi); try discriminate.
    injection Heq as <-. by apply (Hroot n). }
  unfold act_pan, act_zoom, print, assign_size, assign_pos, config_item,
    update_entry, save_config. rewrite Hf. unfold_monad. simpl.
  rewrite !lookup_insert_eq.
  split; [|split; [|done]]; f_equal; apply dumps_ext;
    intros uid o Ho; specialize (Hreg uid o Ho);
    by rewrite !entry_insert_ne.
Qed.

End File.

Lemma successful_action_saves_witness :
  in_sync Demo.nested
    (message Demo.nested
       (JObj [("act", JStr "pos"); ("uid", JStr "E");
              ("x", JNum 3); ("y", JNum 4)]) Demo.after_first_tick).2.
Proof.
  apply (successful_action_saves Demo.nested
           [("act", JStr "pos"); ("uid", JStr "E");
            ("x", JNum 3); ("y", JNum 4)] "pos" Demo.after_first_tick).
  - reflexivity.
  - vm_compute. reflexivity.
Defined.

Lemma dumps_reads_registered_only_witness :
  dumps (config Demo.after_first_tick) (uids Demo.after_first_tick)
  = dumps (delete (net 0) (config Demo.after_first_tick))
      (uids Demo.after_first_tick).
Proof.
  apply dumps_reads_registered_only.
  intros uid o H. apply elem_of_map_to_list in H.
  replace (map_to_list (uids Demo.after_first_tick))
    with [("conn_7", conn 7); ("E", ens 1); ("A", net 3); ("N", node 2)]
    in H by (vm_compute; reflexivity).
  repeat (apply elem_of_cons in H as [H|H];
          [injection H as -> ->; vm_compute; reflexivity|]).
  exfalso. by apply elem_of_nil in H.
Defined.

Lemma viewport_is_never_saved_witness :
  let s := run Demo.nested [Tick 8] (init Demo.nested ∅ ∅) in
  disk (act_pan Demo.nested (JNum 3) (JNum 4) s).2 !! "demo.cfg"
  = Some (dumps (config s) (uids s)).
Proof.
  intros s.
  destruct (viewport_is_never_saved Demo.nested "demo" [Tick 8] ∅ ∅
              (JNum 2) (JNum 3) (JNum 4)) as (H & _); [|done|exact H].
  intros n. simpl. destruct n as [|[|[|[|n]]]];
    rewrite ?elem_of_cons, elem_of_nil; intros H; intuition discriminate.
Defined.


(** ** Calling a handler with the wrong arguments *)

Section Arguments.
Variable m : Model.

Lemma keys_match (info : gmap string json) (l : list string) :
  NoDup l →
  Forall (λ a, is_Some (info !! a)) l →
  base.size info = length l →
  dom info = (list_to_set l : gset string).
Proof.
  intros Hnodup Hall Hsize. symmetry. apply set_subseteq_size_eq.
  - intros a Ha. apply elem_of_list_to_set in Ha. apply elem_of_dom.
    by eapply Forall_forall in Hall.
  - rewrite size_dom, Hsize. by rewrite size_list_to_set.
Qed.

(** X15.  A message that names one of the six actions but does not carry
    exactly the parameters of its handler (one is missing, or there is one
    too many) ends with [TypeError] before the handler runs: the state is
    untouched. *)
Theorem wrong_arguments_rejected (kv : list (string * json))
    (action : string) (s : Session) :
  dict_of kv !! "act" = Some (JStr action) →
  action ∈ known_actions →
  dom (delete "act" (dict_of kv))
  ≠ (list_to_set (handler_params action) : gset string) →
  message m (JObj kv) s = (Raise TypeError, s).
Proof.
  intros Hact Hknown Hkeys. unfold message. rewrite Hact.
  set (info := delete "act" (dict_of kv)) in *. clearbody info.
  assert (H1 : ∀ a f, dom info ≠ (list_to_set [a] : gset string) →
            call1 info a f s = (Raise TypeError, s)).
  { intros a f Hne. unfold call1. destruct (info !! a) eqn:Ea; [|done].
    case_decide as Hsize; [|done]. exfalso. apply Hne.
    apply keys_match; [apply NoDup_singleton| |done].
    repeat constructor. by rewrite Ea. }
  assert (H2 : ∀ a b f, a ≠ b →
            dom info ≠ (list_to_set [a; b] : gset string) →
            call2 info a b f s = (Raise TypeError, s)).
  { intros a b f Hab Hne. unfold call2.
    destruct (info !! a) eqn:Ea; [|done].
    destruct (info !! b) eqn:Eb; [|done].
    case_decide as Hsize; [|done]. exfalso. apply Hne.
    apply keys_match; [| |done].
    - apply NoDup_cons. split; [by intros ->%list_elem_of_singleton|].
      apply NoDup_singleton.
    - repeat constructor; by rewrite ?Ea, ?Eb. }
  assert (H3 : ∀ a b c f, a ≠ b → a ≠ c → b ≠ c →
            dom info ≠ (list_to_set [a; b; c] : gset string) →
            call3 info a b c f s = (Raise TypeError, s)).
  { intros a b c f Hab Hac Hbc Hne. unfold call3.
    destruct (info !! a) eqn:Ea; [|done].
    destruct (info !! b) eqn:Eb; [|done].
    destruct (info !! c) eqn:Ec; [|done].
    case_decide as Hsize; [|done]. exfalso. apply Hne.
    apply keys_match; [| |done].
    - apply NoDup_cons. split.
      { intros [->| ->%list_elem_of_singleton]%elem_of_cons; done. }
      apply NoDup_cons. split; [by intros ->%list_elem_of_singleton|].
      apply NoDup_singleton.
    - repeat constructor; by rewrite ?Ea, ?Eb, ?Ec. }
  unfold dispatch. unfold handler_params in Hkeys.
  repeat case_decide; subst;
    first [by apply H1 | by apply H2 | by apply H3 | idtac].
  exfalso. unfold known_actions in Hknown.
  repeat (apply elem_of_cons in Hknown as [->|Hknown]; [done|]).
  by apply elem_of_nil in Hknown.
Qed.

(** X16.  [expand] on the uid of a registered object that is not a network
    fails, but only after the object was put on the queue; the tick that
    later pops it ends with [AttributeError]: it has taken the object from
    the queue, and it has written nothing to the client and changed neither
    the store, the registry, the parent index and its queue, nor the file
    system.  (The tick does not reach [lock.release()]; the lock is not part
    of the state followed here, and nothing is said about it.) *)
Theorem expand_leaf_poisons_queue (u : string) (o : obj) (s : Session) :
  uids s !! u = Some o →
  cls o ≠ Network →
  (∃ e, act_expand m (JStr u) s
        = (Raise e, with_to_be_expanded (to_be_expanded s ++ [o]) s))
  ∧ ∀ fuel sx rest,
      to_be_expanded sx = o :: rest →
      let r := update_client m fuel sx in
      r.1 = Raise AttributeError
      ∧ to_be_expanded r.2 = rest
      ∧ client r.2 = client sx
      ∧ config r.2 = config sx
      ∧ uids r.2 = uids sx
      ∧ parents r.2 = parents sx
      ∧ networks_to_search r.2 = networks_to_search sx
      ∧ disk r.2 = disk sx.
Proof.
  intros Hu Hcls. split.
  - unfold act_expand, lookup_uid, assign_expanded, config_item.
    unfold_monad. rewrite Hu. simpl.
    destruct o as [[] i]; simpl; try done; eauto.
  - intros fuel sx rest Hq. unfold update_client, expand_network.
    unfold_monad. rewrite Hq. by destruct o as [[] i].
Qed.

End Arguments.

Lemma wrong_arguments_rejected_witness :
  message Demo.nested
    (JObj [("act", JStr "pos"); ("uid", JStr "E"); ("x", JNum 3)])
    Demo.after_first_tick
  = (Raise TypeError, Demo.after_first_tick).
Proof.
  apply (wrong_arguments_rejected Demo.nested _ "pos").
  - reflexivity.
  - unfold known_actions. rewrite !elem_of_cons. auto 10.
  - intros H.
    assert (Hy : "y" ∈ (list_to_set (handler_params "pos") : gset string)).
    { apply elem_of_list_to_set. unfold handler_params. simpl.
      rewrite !elem_of_cons. auto. }
    rewrite <- H in Hy. apply elem_of_dom in Hy as [v Hv].
    vm_compute in Hv. discriminate Hv.
Defined.

Lemma expand_leaf_poisons_queue_witness :
  ∃ e, act_expand Demo.nested (JStr "E") Demo.after_first_tick
       = (Raise e, with_to_be_expanded
                     (to_be_expanded Demo.after_first_tick ++ [ens 1])
                     Demo.after_first_tick).
Proof.
  apply (expand_leaf_poisons_queue Demo.nested "E" (ens 1)).
  - vm_compute. reflexivity.
  - done.
Defined.

(** ** Positions and sizes through ticks *)

Lemma keeps_set_refl c : keeps_set c c.
Proof. by intros o. Qed.

Lemma keeps_set_trans c1 c2 c3 :
  keeps_set c1 c2 → keeps_set c2 c3 → keeps_set c1 c3.
Proof.
  intros H1 H2 o. destruct (H1 o) as [P1 Z1], (H2 o) as [P2 Z2]. split; auto.
Qed.

Lemma keeps_set_expanded c o b :
  keeps_set c (<[o := set_expanded b (entry c o)]> c).
Proof.
  intros o'. destruct (decide (o = o')) as [<-|Hne].
  - by rewrite entry_insert_eq.
  - by rewrite entry_insert_ne.
Qed.

Section Stored.
Variable m : Model.

(** [create_object] leaves the object with the position and the size it
    sends, and unsets nothing. *)
Lemma create_object_stored (o : obj) (type : string) (parent : option string)
    (s s' : Session) :
  cls o ≠ Connection → (type = "net" → cls o = Network) →
  create_object m o type parent s = (Ok tt, s') →
  keeps_set (config s) (config s')
  ∧ pos (entry (config s') o) = Some (placed m o s)
  ∧ size (entry (config s') o) = Some (sized o s).
Proof.
  intros Hcls Hnet Hrun.
  destruct (create_object_ok m o type parent s Hcls Hnet)
    as (s1 & Hrun' & Hcfg & _).
  rewrite Hrun in Hrun'. injection Hrun' as <-. rewrite Hcfg.
  unfold placed, sized.
  destruct (pos (entry (config s) o)) as [p|] eqn:Ep;
    destruct (size (entry (config s) o)) as [z|] eqn:Ez;
    rewrite ?entry_insert_eq; simpl;
    (split; [|by rewrite ?Ep, ?Ez]);
    try apply keeps_set_refl;
    (intros o'; destruct (decide (o = o')) as [<-|Hne];
      [rewrite entry_insert_eq; simpl; rewrite ?Ep, ?Ez; split; congruence
      |by rewrite entry_insert_ne]).
Qed.

Lemma told_as_stored_app_l new new' c o :
  told_as_stored m new c o → told_as_stored m (new ++ new') c o.
Proof.
  intros (info & Hin & H). exists info. split; [|done].
  apply elem_of_app. by left.
Qed.

Lemma told_as_stored_app_r new new' c o :
  told_as_stored m new' c o → told_as_stored m (new ++ new') c o.
Proof.
  intros (info & Hin & H). exists info. split; [|done].
  apply elem_of_app. by right.
Qed.

Lemma told_as_stored_keeps new c c' o :
  keeps_set c c' → told_as_stored m new c o → told_as_stored m new c' o.
Proof.
  intros Hk (info & Hin & Hu & Hp & Hz). exists info.
  destruct (Hk o) as [Kp Kz]. auto.
Qed.

(** One of the object loops of [expand_network]: it runs to its end, and
    every object of the list is announced with the position and size the
    store holds when the loop ends. *)
Lemma object_loop_stored (mk : nat → obj) (type : string)
    (parent : option string) (l : list nat) :
  (∀ i, cls (mk i) ≠ Connection) →
  (type = "net" → ∀ i, cls (mk i) = Network) →
  ∀ s, ∃ s' new,
    for_each l (λ i, create_object m (mk i) type parent) s = (Ok tt, s')
    ∧ client s' = (client s ++ new)%list
    ∧ keeps_set (config s) (config s')
    ∧ (∀ i, i ∈ l → told_as_stored m new (config s') (mk i)).
Proof.
  intros Hcls Hnet. induction l as [|i l IH]; intros s.
  - exists s, []. simpl. rewrite app_nil_r.
    split; [done|]. split; [done|]. split; [apply keeps_set_refl|].
    intros j Hj. by apply elem_of_nil in Hj.
  - assert (Hnet' : type = "net" → cls (mk i) = Network) by auto.
    destruct (create_object_ok m (mk i) type parent s (Hcls i) Hnet')
      as (s1 & Hrun & _ & _ & _ & Hcl & _).
    destruct (create_object_stored (mk i) type parent s s1 (Hcls i) Hnet' Hrun)
      as (Hk & Hp & Hz).
    destruct (IH s1) as (s' & new & Hrest & Hcl' & Hk' & Htold).
    eexists s', (_ :: new). simpl for_each.
    rewrite (bind_ok _ _ _ _ _ Hrun).
    split; [exact Hrest|]. split; [by rewrite Hcl', Hcl, <- app_assoc|].
    split; [by eapply keeps_set_trans|].
    intros j [->|Hj]%elem_of_cons.
    + eexists. split; [apply list_elem_of_here|]. simpl.
      destruct (Hk' (mk i)) as [Kp Kz]. auto.
    + destruct (Htold j Hj) as (info & Hin & H).
      exists info. split; [by apply list_elem_of_further|done].
Qed.

(** The three object loops taken together. *)
Lemma expand_objects_stored (fuel n : nat) (s : Session) :
  ∃ s' new,
    expand_network m fuel (net n) s
    = (for_each (connections m n)
         (λ i, create_connection m fuel i (parent_field m (net n))) ;;
       assign_expanded (net n) true) s'
    ∧ client s' = (client s ++ new)%list
    ∧ keeps_set (config s) (config s')
    ∧ (∀ o, o ∈ children m n → told_as_stored m new (config s') o).
Proof.
  unfold expand_network, children. fold (parent_field m (net n)).
  set (parent := parent_field m (net n)). simpl.
  destruct (object_loop_stored ens "ens" parent (ensembles m n)
              ltac:(done) ltac:(done) s)
    as (s1 & new1 & R1 & C1 & K1 & T1).
  destruct (object_loop_stored node "node" parent (nodes m n)
              ltac:(done) ltac:(done) s1)
    as (s2 & new2 & R2 & C2 & K2 & T2).
  destruct (object_loop_stored net "net" parent (networks m n)
              ltac:(done) ltac:(done) s2)
    as (s3 & new3 & R3 & C3 & K3 & T3).
  exists s3, (new1 ++ new2 ++ new3)%list.
  split.
  { rewrite (bind_ok _ _ _ _ _ R1), (bind_ok _ _ _ _ _ R2).
    by rewrite (bind_ok _ _ _ _ _ R3). }
  split; [by rewrite C3, C2, C1, <- !app_assoc|].
  split; [eapply keeps_set_trans; [|exact K3]; by eapply keeps_set_trans|].
  intros o [(i & -> & Hi)%list_elem_of_fmap
           |[(i & -> & Hi)%list_elem_of_fmap
            |(i & -> & Hi)%list_elem_of_fmap]%elem_of_app]%elem_of_app.
  - apply told_as_stored_app_l.
    eapply told_as_stored_keeps; [|by apply T1].
    by eapply keeps_set_trans.
  - apply told_as_stored_app_r, told_as_stored_app_l.
    eapply told_as_stored_keeps; [exact K3|by apply T2].
  - apply told_as_stored_app_r, told_as_stored_app_r. by apply T3.
Qed.

(** A tick that pops a network: whatever its outcome, it unsets and changes
    no position or size that was set, and it has announced every child of
    the network with the position and size the store holds when it ends. *)
Lemma tick_stored (fuel n : nat) (rest : list obj) (s : Session)
    (r : outcome unit) (s' : Session) :
  to_be_expanded s = net n :: rest →
  update_client m fuel s = (r, s') →
  keeps_set (config s) (config s')
  ∧ ∃ new, client s' = (client s ++ new)%list
           ∧ ∀ o, o ∈ children m n → told_as_stored m new (config s') o.
Proof.
  intros Hq. rewrite (update_client_cons m fuel s _ _ Hq).
  unfold mbind at 1, M_bind at 1.
  destruct (expand_objects_stored fuel n (with_to_be_expanded rest s))
    as (s1 & new1 & -> & C1 & K1 & T1).
  simpl in C1, K1.
  unfold mbind at 1, M_bind at 1.
  destruct (for_each _ _ s1) as [r2 s2] eqn:E2.
  destruct (connection_loop_frame m _ _ _ _ _ _ E2)
    as [(Hcfg & _) [new2 C2]].
  assert (Hend : ∀ sx newx, config sx = config s2 ∨
                   config sx = <[net n := set_expanded true
                                   (entry (config s2) (net n))]> (config s2) →
            client sx = (client s2 ++ newx)%list →
            keeps_set (config s) (config sx)
            ∧ ∃ new, client sx = (client s ++ new)%list
                     ∧ ∀ o, o ∈ children m n →
                         told_as_stored m new (config sx) o).
  { intros sx newx Hsx Hcx.
    assert (Hk : keeps_set (config s1) (config sx)).
    { destruct Hsx as [->| ->]; rewrite Hcfg;
        [apply keeps_set_refl|apply keeps_set_expanded]. }
    split; [by eapply keeps_set_trans|].
    exists (new1 ++ new2 ++ newx)%list.
    split; [by rewrite Hcx, C2, C1, <- !app_assoc|].
    intros o Ho. apply told_as_stored_app_l.
    eapply told_as_stored_keeps; [exact Hk|by apply T1]. }
  destruct r2 as [[]| e |].
  2,3: intros [= <- <-]; apply (Hend s2 []); [by left|by rewrite app_nil_r].
  unfold assign_expanded, config_item, update_entry. unfold_monad. simpl.
  set (s3 := with_config _ s2).
  case_decide.
  - destruct (send_pan_and_zoom_ok m s3) as (p & z & ->).
    intros [= <- <-]. apply (Hend _ [Pan p; Zoom z]); [by right|done].
  - intros [= <- <-]. apply (Hend s3 []); [by right|].
    by rewrite app_nil_r.
Qed.

Lemma update_client_keeps (fuel : nat) (s : Session) (r : outcome unit)
    (s' : Session) :
  update_client m fuel s = (r, s') → keeps_set (config s) (config s').
Proof.
  destruct (to_be_expanded s) as [|[k n] rest] eqn:Hq.
  - unfold update_client. unfold_monad. rewrite Hq.
    intros [= <- <-]. apply keeps_set_refl.
  - destruct (decide (k = Network)) as [->|Hk].
    + intros Hrun. by destruct (tick_stored fuel n rest s r s' Hq Hrun).
    + rewrite (update_client_cons m fuel s _ _ Hq).
      unfold expand_network. unfold_monad.
      destruct k; try done; intros [= <- <-]; apply keeps_set_refl.
Qed.

Lemma message_keeps (c0 : gmap obj LayoutEntry) (msg : json) :
  ¬ moves (Message msg) →
  preserves (λ s, keeps_set c0 (config s)) (message m msg).
Proof.
  intros Hmoves.
  set (P := λ s : Session, keeps_set c0 (config s)).
  assert (Hae : ∀ o b, preserves P (assign_expanded o b)).
  { intros o b. unfold assign_expanded, config_item. apply preserves_bind.
    - destruct (cls o); first [apply preserves_ret | apply preserves_raise].
    - intros _. destruct (cls o); try apply preserves_raise.
      apply preserves_modify. intros s Hs. unfold P. simpl.
      eapply keeps_set_trans; [exact Hs|apply keeps_set_expanded]. }
  assert (Hsave : preserves P (save_config m)).
  { unfold save_config. destruct (filename m); [|apply preserves_raise].
    by apply preserves_modify. }
  assert (Hlook : ∀ uid, preserves P (lookup_uid uid)).
  { intros uid. unfold lookup_uid. destruct uid; try apply preserves_raise.
    apply preserves_bind; [apply preserves_get_state|].
    intros s0. destruct (uids s0 !! s);
      [apply preserves_ret|apply preserves_raise]. }
  assert (He : ∀ uid, preserves P (act_expand m uid)).
  { intros uid. unfold act_expand. apply preserves_bind; [done|].
    intros o. apply preserves_bind; [by apply preserves_modify|].
    intros _. by apply preserves_bind. }
  assert (Hc : ∀ uid, preserves P (act_collapse m uid)).
  { intros uid. unfold act_collapse. apply preserves_bind; [done|].
    intros o. by apply preserves_bind. }
  unfold message. destruct msg; try apply preserves_raise.
  destruct (dict_of kv !! "act") as [[| | | | |action| |]|] eqn:Hact;
    try apply preserves_raise; try (by apply preserves_modify).
  assert (Hno : action ∉ moving_actions).
  { intros Hin. apply Hmoves. simpl. eauto. }
  assert (Hcall : ∀ info a f, (∀ uid, preserves P (f uid)) →
            preserves P (call1 info a f)).
  { intros info a f Hf. unfold call1.
    destruct (info !! a); [|apply preserves_raise].
    case_decide; [apply Hf|apply preserves_raise]. }
  unfold dispatch.
  destruct (decide (action = "expand")); [by apply Hcall|].
  destruct (decide (action = "collapse")); [by apply Hcall|].
  destruct (decide (action = "pan")) as [->|_].
  { exfalso. apply Hno. apply list_elem_of_here. }
  destruct (decide (action = "zoom")) as [->|_].
  { exfalso. apply Hno. apply list_elem_of_further, list_elem_of_here. }
  destruct (decide (action = "pos")) as [->|_].
  { exfalso. apply Hno. do 2 apply list_elem_of_further.
    apply list_elem_of_here. }
  destruct (decide (action = "size")) as [->|_].
  { exfalso. apply Hno. do 3 apply list_elem_of_further.
    apply list_elem_of_here. }
  apply preserves_raise.
Qed.

End Stored.

Section StoredSessions.
Variable m : Model.

(** X17.  Only [pan], [zoom], [pos] and [size] move or resize anything.
    Through a session of ticks and of messages that carry none of these four
    actions, however each of them ends, every position and every size that
    was set stays as it was: expansion fills in what is unset and never
    overwrites. *)
Theorem set_layout_survives (events : list event) (s : Session) :
  (∀ e, e ∈ events → ¬ moves e) →
  keeps_set (config s) (config (run m events s)).
Proof.
  revert s. induction events as [|e events IH]; intros s Hev.
  - apply keeps_set_refl.
  - simpl. eapply keeps_set_trans; [|apply IH].
    + destruct e as [fuel|msg]; simpl.
      * destruct (update_client m fuel s) as [r s'] eqn:E.
        by apply update_client_keeps in E.
      * destruct (message m msg s) as [r s'] eqn:E.
        apply (message_keeps m (config s) msg) in E; [done| |].
        -- apply Hev, list_elem_of_here.
        -- apply keeps_set_refl.
    + intros e' He'. by apply Hev, list_elem_of_further.
Qed.

(** X18.  The client is told what the store holds.  A tick that pops a
    network, whatever its outcome, has written for every child of that
    network a "create object" message whose position and size are the ones
    the store holds for the child when the tick ends. *)
Theorem client_told_what_is_stored (fuel n : nat) (rest : list obj)
    (s : Session) :
  to_be_expanded s = net n :: rest →
  ∃ new, client (update_client m fuel s).2 = (client s ++ new)%list
         ∧ ∀ o, o ∈ children m n →
             told_as_stored m new (config (update_client m fuel s).2) o.
Proof.
  intros Hq. destruct (update_client m fuel s) as [r s'] eqn:E.
  by destruct (tick_stored m fuel n rest s r s' Hq E).
Qed.

End StoredSessions.

Lemma set_layout_survives_witness :
  keeps_set (config Demo.after_first_tick)
    (config (run Demo.nested
               [Message (JObj [("act", JStr "expand"); ("uid", JStr "A")]);
                Tick 8]
               Demo.after_first_tick)).
Proof.
  apply (set_layout_survives Demo.nested).
  intros e He. apply elem_of_cons in He as [->|He].
  - intros (a & Ha & Hin). vm_compute in Ha. injection Ha as <-.
    unfold moving_actions in Hin.
    rewrite !elem_of_cons, elem_of_nil in Hin. intuition discriminate.
  - apply elem_of_cons in He as [->|He]; [by intros []|].
    by apply elem_of_nil in He.
Defined.

Lemma client_told_what_is_stored_witness :
  ∃ new, client (update_client Demo.nested 8 (init Demo.nested ∅ ∅)).2
         = new
         ∧ told_as_stored Demo.nested new
             (config (update_client Demo.nested 8 (init Demo.nested ∅ ∅)).2)
             (net 3).
Proof.
  destruct (client_told_what_is_stored Demo.nested 8 0 []
              (init Demo.nested ∅ ∅)) as (new & Hc & Htold); [reflexivity|].
  exists new. split; [exact Hc|]. apply Htold.
  unfold children. simpl. rewrite !elem_of_cons. auto.
Defined.

(** ** Connections in the registry *)

(** ['conn_%d' % id(conn)] tells connections apart. *)
Lemma conn_uid_inj (i j : nat) : conn_uid i = conn_uid j → i = j.
Proof.
  unfold conn_uid. intros H. injection H as H.
  change (NilZero.string_of_uint (Nat.to_uint i)
          = NilZero.string_of_uint (Nat.to_uint j)) in H.
  apply DecimalNat.Unsigned.to_uint_inj.
  assert (Hnil : ∀ n, Nat.to_uint n ≠ Decimal.Nil).
  { intros n Hn. pose proof (DecimalNat.Unsigned.of_to n) as Hof.
    pose proof (DecimalNat.Unsigned.to_of (Nat.to_uint n)) as Hto.
    rewrite Hof, Hn in Hto. discriminate. }
  apply (f_equal NilZero.uint_of_string) in H.
  rewrite !NilZero.usu in H by apply Hnil. by injection H.
Qed.

Section Connections.
Variable m : Model.

Lemma create_connection_registers (fuel i : nat) parent s s' :
  create_connection m fuel i parent s = (Ok tt, s') →
  uids s' = <[conn_uid i := conn i]> (uids s).
Proof.
  unfold create_connection. unfold mbind at 1, M_bind at 1.
  unfold register at 1. unfold modify at 1. cbv beta iota.
  set (s0 := with_uids _ s).
  assert (H0 : uids s0 = <[conn_uid i := conn i]> (uids s)) by done.
  rewrite <- H0. clearbody s0.
  unfold mbind at 1, M_bind at 1.
  destruct (get_parents m fuel _ s0) as [[pres| e |] s1] eqn:E1;
    [|discriminate..].
  apply get_parents_frame in E1 as (_ & U1 & _).
  unfold mbind at 1, M_bind at 1.
  destruct (get_parents m fuel _ s1) as [[posts| e |] s2] eqn:E2;
    [|discriminate..].
  apply get_parents_frame in E2 as (_ & U2 & _).
  unfold write. unfold_monad. intros [= <-]. simpl. congruence.
Qed.

Lemma connection_loop_registers (fuel : nat) parent (l : list nat) :
  ∀ s s', for_each l (λ i, create_connection m fuel i parent) s = (Ok tt, s') →
  (∀ i, i ∈ l → uids s' !! conn_uid i = Some (conn i))
  ∧ (∀ i, uids s !! conn_uid i = Some (conn i) →
          uids s' !! conn_uid i = Some (conn i)).
Proof.
  induction l as [|j l IH]; intros s s'; simpl.
  - intros [= <-]. split; [|done]. intros i Hi. by apply elem_of_nil in Hi.
  - unfold mbind, M_bind.
    destruct (create_connection m fuel j parent s) as [[[]| e |] s1] eqn:E;
      [|discriminate..].
    intros Hrest. apply create_connection_registers in E.
    destruct (IH _ _ Hrest) as [Hin Hkeep].
    assert (Hstep : ∀ i, uids s !! conn_uid i = Some (conn i) ∨ i = j →
              uids s1 !! conn_uid i = Some (conn i)).
    { intros i Hi. rewrite E.
      destruct (decide (conn_uid j = conn_uid i)) as [Heq|Hne].
      - apply conn_uid_inj in Heq as ->. by rewrite lookup_insert_eq.
      - rewrite lookup_insert_ne by done. by destruct Hi as [Hi| ->]. }
    split.
    + intros i [->|Hi]%elem_of_cons; [|by apply Hin].
      apply Hkeep, Hstep. by right.
    + intros i Hi. apply Hkeep, Hstep. by left.
Qed.

(** X19.  A tick that pops a network and ends normally leaves every
    connection of that network in the registry under its own uid
    ['conn_<id>']: connections that come later in the loop never take the
    uid of an earlier one. *)
Theorem connections_are_registered (fuel n : nat) (rest : list obj)
    (s s' : Session) :
  to_be_expanded s = net n :: rest →
  update_client m fuel s = (Ok tt, s') →
  ∀ i, i ∈ connections m n → uids s' !! conn_uid i = Some (conn i).
Proof.
  intros Hq. rewrite (update_client_cons m fuel s _ _ Hq).
  unfold mbind at 1, M_bind at 1.
  destruct (expand_network_objects m fuel n (with_to_be_expanded rest s))
    as (s1 & new1 & -> & _).
  unfold mbind at 1, M_bind at 1.
  destruct (for_each _ _ s1) as [[[]| e |] s2] eqn:E2; [|discriminate..].
  apply connection_loop_registers in E2 as [Hin _].
  unfold assign_expanded, config_item, update_entry. unfold_monad. simpl.
  set (s3 := with_config _ s2).
  assert (H3 : uids s3 = uids s2) by done. clearbody s3.
  case_decide.
  - destruct (send_pan_and_zoom_ok m s3) as (p & z & ->).
    intros [= <-] i Hi. simpl. rewrite H3. by apply Hin.
  - intros [= <-] i Hi. rewrite H3. by apply Hin.
Qed.

End Connections.

Lemma connections_are_registered_witness :
  uids Demo.after_first_tick !! conn_uid 7 = Some (conn 7).
Proof.
  apply (connections_are_registered Demo.nested 8 0 []
           (init Demo.nested ∅ ∅) Demo.after_first_tick).
  - reflexivity.
  - vm_compute. reflexivity.
  - simpl. apply list_elem_of_here.
Defined.

(** ** The order and the size of the file *)

Lemma string_compare_le_trans (s1 : string) : ∀ s2 s3,
  String.compare s1 s2 ≠ Gt → String.compare s2 s3 ≠ Gt →
  String.compare s1 s3 ≠ Gt.
Proof.
  induction s1 as [|c1 s1 IH]; intros [|c2 s2] [|c3 s3]; simpl; try done.
  unfold Ascii.compare.
  destruct (N.compare_spec (Ascii.N_of_ascii c1) (Ascii.N_of_ascii c2)) as [E12|L12|G12];
    destruct (N.compare_spec (Ascii.N_of_ascii c2) (Ascii.N_of_ascii c3)) as [E23|L23|G23];
    try done.
  - rewrite E12, E23, N.compare_refl. apply IH.
  - intros _ _. rewrite E12. by rewrite (proj2 (N.compare_lt_iff _ _) L23).
  - intros _ _. rewrite <- E23. by rewrite (proj2 (N.compare_lt_iff _ _) L12).
  - intros _ _.
    by rewrite (proj2 (N.compare_lt_iff _ _) (N.lt_trans _ _ _ L12 L23)).
Qed.

Lemma string_leb_trans (s1 s2 s3 : string) :
  String.leb s1 s2 = true → String.leb s2 s3 = true → String.leb s1 s3 = true.
Proof.
  unfold String.leb. intros H12 H23.
  pose proof (string_compare_le_trans s1 s2 s3) as H.
  destruct (String.compare s1 s2), (String.compare s2 s3),
    (String.compare s1 s3); try done; exfalso; by apply H.
Qed.

Lemma string_leb_refl (s : string) : String.leb s s = true.
Proof. by destruct (String.leb_total s s). Qed.

Lemma item_le_trans : Transitive item_le.
Proof. intros a b c. apply string_leb_trans. Qed.

Lemma item_le_total : Total item_le.
Proof. intros a b. apply String.leb_total. Qed.

Lemma dumps_item_uid (c : gmap obj LayoutEntry) (it : string * obj)
    (l : cfg_line) :
  l ∈ dumps_item c it → l_uid l = it.1 ∧ cls it.2 ≠ Connection.
Proof.
  destruct it as [uid o]. simpl.
  destruct (cls o); rewrite ?elem_of_cons, elem_of_nil;
    intros H; repeat destruct H as [H|H]; subst; done.
Qed.

Lemma dumps_item_length (c : gmap obj LayoutEntry) (it : string * obj) :
  length (dumps_item c it) = lines_of it.2.
Proof. destruct it as [uid o]. unfold lines_of. simpl. by destruct (cls o). Qed.

(** X20.  The file [dumps] writes is ordered by uid, whatever the order in
    which the objects were registered; every line is about a registered
    object that is not a connection; and the file has two lines for each
    registered ensemble and node, three for each registered network and
    none for a connection. *)
Theorem dumps_sorted_by_uid (c : gmap obj LayoutEntry)
    (u : gmap string obj) :
  StronglySorted line_le (dumps c u)
  ∧ (∀ l, l ∈ dumps c u →
       ∃ o, u !! l_uid l = Some o ∧ cls o ≠ Connection)
  ∧ length (dumps c u) = sum_list (lines_of <$> (map_to_list u).*2).
Proof.
  unfold dumps. split; [|split].
  - pose proof (@StronglySorted_merge_sort _ item_le _ item_le_trans
                  item_le_total (map_to_list u)) as Hs.
    fold (sorted_items u) in Hs.
    induction Hs as [|it l Hs IH Hall]; simpl; [constructor|].
    apply StronglySorted_app_2; [| |done].
    + intros x1 x2 H1 H2.
      apply dumps_item_uid in H1 as [H1 _].
      apply list_elem_of_In, in_flat_map in H2 as (it' & Hit' & H2).
      apply list_elem_of_In in Hit', H2.
      apply dumps_item_uid in H2 as [H2 _].
      unfold line_le. rewrite H1, H2.
      rewrite Forall_forall in Hall. by apply Hall.
    + assert (Hsame : ∀ x, x ∈ dumps_item c it → l_uid x = it.1)
        by (intros x Hx; by apply dumps_item_uid in Hx as [? _]).
      induction (dumps_item c it) as [|x xs IHx]; constructor.
      * apply IHx. intros y Hy. by apply Hsame, list_elem_of_further.
      * apply Forall_forall. intros y Hy. unfold line_le.
        rewrite (Hsame x), (Hsame y);
          [apply string_leb_refl|by apply list_elem_of_further
          |apply list_elem_of_here].
  - intros l Hl.
    apply list_elem_of_In, in_flat_map in Hl as ([uid o] & Hit & Hl).
    apply list_elem_of_In in Hit, Hl.
    unfold sorted_items in Hit. rewrite merge_sort_Permutation in Hit.
    apply elem_of_map_to_list in Hit.
    apply dumps_item_uid in Hl as [-> Hc]. by exists o.
  - assert (Hlen : ∀ l, length (flat_map (dumps_item c) l)
                        = sum_list (lines_of <$> l.*2)).
    { induction l as [|it l IH]; simpl; [done|].
      by rewrite length_app, dumps_item_length, IH. }
    rewrite Hlen. unfold sorted_items.
    by rewrite merge_sort_Permutation.
Qed.

Lemma dumps_sorted_by_uid_witness :
  length (dumps (config Demo.after_first_tick) (uids Demo.after_first_tick))
  = 7.
Proof.
  destruct (dumps_sorted_by_uid (config Demo.after_first_tick)
              (uids Demo.after_first_tick)) as (_ & _ & ->).
  vm_compute. reflexivity.
Defined.

(** ** Sessions without a file name *)

Section Unnamed.
Variable m : Model.
Hypothesis Hnone : filename m = None.

Lemma fails_bind {A B} (c : M A) (k : A → M B) :
  quiet c → (∀ a, fails (k a)) → fails (c ≫= k).
Proof.
  intros Hc Hk s. unfold mbind, M_bind.
  destruct (c s) as [[a| e |] s1] eqn:E; destruct (Hc _ _ _ E) as [Hr Hd].
  - destruct (Hk a s1) as (e & s' & -> & Hd'). exists e, s'.
    split; [done|congruence].
  - eauto.
  - done.
Qed.

Lemma fails_raise {A} e : fails (raise (A := A) e).
Proof. intros s. by exists e, s. Qed.

Lemma fails_save_config : fails (save_config m).
Proof. unfold save_config. rewrite Hnone. apply fails_raise. Qed.

Lemma quiet_assign_pos o v : quiet (assign_pos o v).
Proof.
  intros s r s'. unfold assign_pos, config_item, update_entry. unfold_monad.
  destruct (cls o), v; by intros [= <- <-].
Qed.

Lemma quiet_assign_size o v : quiet (assign_size o v).
Proof.
  intros s r s'. unfold assign_size, config_item, update_entry. unfold_monad.
  destruct (cls o), v; by intros [= <- <-].
Qed.

Lemma quiet_assign_expanded o b : quiet (assign_expanded o b).
Proof.
  intros s r s'. unfold assign_expanded, config_item, update_entry.
  unfold_monad. destruct (cls o); by intros [= <- <-].
Qed.

Lemma quiet_lookup_uid uid : quiet (lookup_uid uid).
Proof.
  intros s r s'. unfold lookup_uid. unfold_monad.
  destruct uid; try by intros [= <- <-].
  destruct (uids s !! s0); by intros [= <- <-].
Qed.

Lemma quiet_modify f :
  (∀ s, disk (f s) = disk s) → quiet (modify f).
Proof. intros Hf s r s' [= <- <-]. by rewrite Hf. Qed.

Lemma actions_unnamed (action : string) (info : gmap string json) :
  fails (dispatch m action info).
Proof.
  assert (He : ∀ uid, fails (act_expand m uid)).
  { intros uid. unfold act_expand.
    apply fails_bind; [apply quiet_lookup_uid|]. intros o.
    apply fails_bind; [by apply quiet_modify|]. intros _.
    apply fails_bind; [apply quiet_assign_expanded|]. intros _.
    apply fails_save_config. }
  assert (Hc : ∀ uid, fails (act_collapse m uid)).
  { intros uid. unfold act_collapse.
    apply fails_bind; [apply quiet_lookup_uid|]. intros o.
    apply fails_bind; [apply quiet_assign_expanded|]. intros _.
    apply fails_save_config. }
  assert (Hpan : ∀ x y, fails (act_pan m x y)).
  { intros x y. unfold act_pan, print.
    apply fails_bind; [by apply quiet_modify|]. intros _.
    apply fails_bind; [apply quiet_assign_pos|]. intros _.
    apply fails_save_config. }
  assert (Hzoom : ∀ z x y, fails (act_zoom m z x y)).
  { intros z x y. unfold act_zoom, print.
    apply fails_bind; [by apply quiet_modify|]. intros _.
    apply fails_bind; [apply quiet_assign_size|]. intros _.
    apply fails_bind; [apply quiet_assign_pos|]. intros _.
    apply fails_save_config. }
  assert (Hpos : ∀ uid x y, fails (act_pos m uid x y)).
  { intros uid x y. unfold act_pos.
    apply fails_bind; [apply quiet_lookup_uid|]. intros o.
    apply fails_bind; [apply quiet_assign_pos|]. intros _.
    apply fails_save_config. }
  assert (Hsize : ∀ uid w h, fails (act_size m uid w h)).
  { intros uid w h. unfold act_size.
    apply fails_bind; [apply quiet_lookup_uid|]. intros o.
    apply fails_bind; [apply quiet_assign_size|]. intros _.
    apply fails_save_config. }
  unfold dispatch, call1, call2, call3.
  repeat case_decide; repeat case_match;
    first [apply fails_raise | done].
Qed.

(** X21.  In a session that has no file name no action ends normally: a
    message that names an action always ends in an exception (the
    [TypeError] of [None + '.cfg'] at the latest) and writes nothing to the
    file system.  The handler has done its work all the same: a [pan]
    leaves the new position in the store. *)
Theorem unnamed_session_actions_raise (kv : list (string * json))
    (action : string) (x y : json) (s : Session) :
  dict_of kv !! "act" = Some (JStr action) →
  (∃ e s', message m (JObj kv) s = (Raise e, s') ∧ disk s' = disk s)
  ∧ ∃ s', act_pan m x y s = (Raise TypeError, s')
          ∧ pos (entry (config s') (net (model m))) = Some (x, y).
Proof.
  intros Hact. split.
  - unfold message. rewrite Hact. apply actions_unnamed.
  - unfold act_pan, print, assign_pos, config_item, update_entry, save_config.
    rewrite Hnone. unfold_monad. simpl. eexists. split; [reflexivity|].
    simpl. by rewrite entry_insert_eq.
Qed.

End Unnamed.

Lemma unnamed_session_actions_raise_witness :
  ∃ e s', message Demo.unnamed
            (JObj [("act", JStr "pan"); ("x", JNum 3); ("y", JNum 4)])
            (init Demo.unnamed ∅ ∅) = (Raise e, s')
          ∧ disk s' = ∅.
Proof.
  destruct (unnamed_session_actions_raise Demo.unnamed eq_refl
              [("act", JStr "pan"); ("x", JNum 3); ("y", JNum 4)] "pan"
              (JNum 3) (JNum 4) (init Demo.unnamed ∅ ∅)) as [H _].
  - reflexivity.
  - exact H.
Defined.
